(** * A 3x3x3 cube, its layer-by-layer solver and the move optimiser

    Shallow embedding of [maths.py], [cube.py], [optimize.py] and [solve.py].

    Conventions of the embedding.
    - Python integers are [Z]; one-character strings (sticker colours) are
      [ascii], read as the code points 0..255; a colour slot that holds
      Python's [None] is [None : option ascii].
    - A [Piece] object is mutated in place and is shared between
      [Cube.pieces], [Cube.faces], [Cube.edges], [Cube.corners] and the
      variables of the solver.  The cube is therefore a store, the list of
      its piece objects, and a reference to a piece is its index in that
      list.
    - A Python exception is a [Raise]; procedures that mutate are functions
      from the state before to the outcome paired with the state after, so
      that the state left behind by an exception is part of the model. *)

From Stdlib Require Import ZArith Ascii String List Lia Permutation.
From stdpp Require Import prelude strings.

#[local] Open Scope Z_scope.

(** ** Exceptions and the state-and-exception monad *)

Inductive exn :=
  | AssertionError
  | ValueError
  | IndexError
  | AttributeError
  | TypeError
  | Exception (msg : string).

Inductive result (A : Type) :=
  | Ok (a : A)
  | Raise (e : exn).
Arguments Ok {A} a.
Arguments Raise {A} e.

Definition rbind {A B} (r : result A) (k : A -> result B) : result B :=
  match r with
  | Ok a => k a
  | Raise e => Raise e
  end.

(** A procedure over a mutable state [S]. *)
Definition proc (S A : Type) := S -> result A * S.

Definition ret {S A} (a : A) : proc S A := fun s => (Ok a, s).
Definition raise {S A} (e : exn) : proc S A := fun s => (Raise e, s).
Definition bind {S A B} (m : proc S A) (k : A -> proc S B) : proc S B :=
  fun s => match m s with
           | (Ok a, s') => k a s'
           | (Raise e, s') => (Raise e, s')
           end.
(** Evaluate something that only reads the state. *)
Definition query {S A} (f : S -> result A) : proc S A := fun s => (f s, s).
Definition assert {S} (b : bool) : proc S unit :=
  if b then ret tt else raise AssertionError.

Declare Scope proc_scope.
Delimit Scope proc_scope with proc.
Notation "x <- m ;; k" := (bind m (fun x => k))
  (at level 100, m at next level, right associativity) : proc_scope.
Notation "m ;; k" := (bind m (fun _ => k))
  (at level 100, right associativity) : proc_scope.

Declare Scope result_scope.
Delimit Scope result_scope with result.
Notation "x <- m ;; k" := (rbind m (fun x => k))
  (at level 100, m at next level, right associativity) : result_scope.

(** ** maths.py *)

Record Point := mkPoint { px : Z; py : Z; pz : Z }.

#[global] Instance Point_eq_dec : EqDecision Point.
Proof. solve_decision. Defined.

(** [Point.__add__], [__sub__], [__mul__], [dot], [cross]. *)
Definition padd (a b : Point) : Point :=
  mkPoint (px a + px b) (py a + py b) (pz a + pz b).
Definition psub (a b : Point) : Point :=
  mkPoint (px a - px b) (py a - py b) (pz a - pz b).
Definition pmul (a : Point) (k : Z) : Point :=
  mkPoint (px a * k) (py a * k) (pz a * k).
Definition dot (a b : Point) : Z :=
  px a * px b + py a * py b + pz a * pz b.
Definition cross (a b : Point) : Point :=
  mkPoint (py a * pz b - pz a * py b)
          (pz a * px b - px a * pz b)
          (px a * py b - py a * px b).

(** [Point.__iter__]. *)
Definition piter (a : Point) : list Z := [px a; py a; pz a].

(** [Point.__getitem__]. *)
Definition pget (a : Point) (item : nat) : result Z :=
  match item with
  | 0%nat => Ok (px a)
  | 1%nat => Ok (py a)
  | 2%nat => Ok (pz a)
  | _ => Raise IndexError
  end.

(** [Point.count]. *)
Definition pcount (a : Point) (val : Z) : Z :=
  Z.b2z (px a =? val) + Z.b2z (py a =? val) + Z.b2z (pz a =? val).

(** [Point.__eq__] against a point or a 3-tuple. *)
Definition peqb (a b : Point) : bool :=
  (px a =? px b) && (py a =? py b) && (pz a =? pz b).

(** Python's [any(p)]: some coordinate is truthy, that is, nonzero. *)
Definition pany (a : Point) : bool :=
  existsb (fun v => negb (v =? 0)) (piter a).

Record Matrix := mkMatrix {
  m0 : Z; m1 : Z; m2 : Z;
  m3 : Z; m4 : Z; m5 : Z;
  m6 : Z; m7 : Z; m8 : Z }.

(** [Matrix.rows] and [Matrix.cols], each row or column read as a [Point]. *)
Definition rows (m : Matrix) : Point * Point * Point :=
  (mkPoint (m0 m) (m1 m) (m2 m),
   mkPoint (m3 m) (m4 m) (m5 m),
   mkPoint (m6 m) (m7 m) (m8 m)).
Definition cols (m : Matrix) : Point * Point * Point :=
  (mkPoint (m0 m) (m3 m) (m6 m),
   mkPoint (m1 m) (m4 m) (m7 m),
   mkPoint (m2 m) (m5 m) (m8 m)).

(** [Matrix.__mul__] with a [Point]. *)
Definition mmul_point (m : Matrix) (other : Point) : Point :=
  let '(r0, r1, r2) := rows m in
  mkPoint (dot other r0) (dot other r1) (dot other r2).

(** [Matrix.__mul__] with a [Matrix]. *)
Definition mmul (m other : Matrix) : Matrix :=
  let '(r0, r1, r2) := rows m in
  let '(c0, c1, c2) := cols other in
  mkMatrix (dot r0 c0) (dot r0 c1) (dot r0 c2)
           (dot r1 c0) (dot r1 c1) (dot r1 c2)
           (dot r2 c0) (dot r2 c1) (dot r2 c2).

(** ** cube.py: constants *)

Definition RIGHT := mkPoint 1 0 0.
Definition X_AXIS := RIGHT.
Definition LEFT := mkPoint (-1) 0 0.
Definition UP := mkPoint 0 1 0.
Definition Y_AXIS := UP.
Definition DOWN := mkPoint 0 (-1) 0.
Definition FRONT := mkPoint 0 0 1.
Definition Z_AXIS := FRONT.
Definition BACK := mkPoint 0 0 (-1).

Inductive PieceType := FACE | EDGE | CORNER.

#[global] Instance PieceType_eq_dec : EqDecision PieceType.
Proof. solve_decision. Defined.

Definition ROT_XY_CW := mkMatrix 0 1 0 (-1) 0 0 0 0 1.
Definition ROT_XY_CC := mkMatrix 0 (-1) 0 1 0 0 0 0 1.
Definition ROT_XZ_CW := mkMatrix 0 0 (-1) 0 1 0 1 0 0.
Definition ROT_XZ_CC := mkMatrix 0 0 1 0 1 0 (-1) 0 0.
Definition ROT_YZ_CW := mkMatrix 1 0 0 0 0 1 0 (-1) 0.
Definition ROT_YZ_CC := mkMatrix 1 0 0 0 0 (-1) 0 1 0.

(** [get_rot_from_face]: the names of the clockwise and counter-clockwise
    turn of a face, [None] for a point that is no face direction. *)
Definition get_rot_from_face (face : Point) : option (string * string) :=
  if peqb face RIGHT then Some ("R", "Ri")%string
  else if peqb face LEFT then Some ("L", "Li")%string
  else if peqb face UP then Some ("U", "Ui")%string
  else if peqb face DOWN then Some ("D", "Di")%string
  else if peqb face FRONT then Some ("F", "Fi")%string
  else if peqb face BACK then Some ("B", "Bi")%string
  else None.

(** ** cube.py: Piece *)

Definition color := option ascii.

Record Piece := mkPiece {
  pos : Point;
  colors : list color;
  type : PieceType }.

Definition color_eqb (a b : color) : bool := bool_decide (a = b).

(** [colors.count(None)]. *)
Definition count_None (cs : list color) : nat :=
  length (List.filter (fun c => color_eqb c None) cs).

(** [Piece._set_piece_type]. *)
Definition _set_piece_type (cs : list color) : result PieceType :=
  if (count_None cs =? 2)%nat then Ok FACE
  else if (count_None cs =? 1)%nat then Ok EDGE
  else if (count_None cs =? 0)%nat then Ok CORNER
  else Raise ValueError.

(** [Piece.__init__]. *)
Definition Piece_init (p : Point) (cs : list color) : result Piece :=
  if negb (forallb (fun v => (v =? -1) || (v =? 0) || (v =? 1)) (piter p))
  then Raise AssertionError
  else if negb (length cs =? 3)%nat then Raise AssertionError
  else (t <- _set_piece_type cs ;; Ok (mkPiece p cs t))%result.

(** [(i for i, x in enumerate(rot) if x != 0)]. *)
Definition nonzero_axes (rot : Point) : list nat :=
  map fst (List.filter (fun ix => negb (snd ix =? 0))
                       (combine [0%nat; 1%nat; 2%nat] (piter rot))).

(** [Piece.rotate].  The position is assigned before the two axes are
    unpacked, so an exception leaves the piece at its new position with its
    old colours. *)
Definition rotate (matrix : Matrix) : proc Piece unit := fun self =>
  let before := pos self in
  let self := mkPiece (mmul_point matrix (pos self)) (colors self) (type self) in
  let rot := psub (pos self) before in
  if negb (pany rot) then (Ok tt, self)
  else
    let rot := if pcount rot 0 =? 2 then padd rot (mmul_point matrix rot) else rot in
    match nonzero_axes rot with
    | [i; j] =>
        match colors self !! i, colors self !! j with
        | Some ci, Some cj =>
            (Ok tt, mkPiece (pos self) (<[j := ci]> (<[i := cj]> (colors self))) (type self))
        | _, _ => (Raise IndexError, self)
        end
    | _ => (Raise ValueError, self)
    end.

(** ** cube.py: Cube *)

(** The store of piece objects, in the order of [Cube.pieces]:
    [faces] are the references 0..5, [edges] 6..17, [corners] 18..25. *)
Abbreviation Cube := (list Piece).

Definition faces (c : Cube) : list Piece := take 6 c.
Definition edges (c : Cube) : list Piece := take 12 (drop 6 c).
Definition corners (c : Cube) : list Piece := drop 18 c.

(** Python's [string.whitespace]. *)
Definition string_whitespace : list ascii :=
  [" "%char; "009"%char; "010"%char; "013"%char; "011"%char; "012"%char].

Definition in_string_whitespace (ch : ascii) : bool :=
  existsb (Ascii.eqb ch) string_whitespace.

(** [x for x in s if x not in string.whitespace]. *)
Definition remove_whitespace (s : list ascii) : list ascii :=
  List.filter (fun ch => negb (in_string_whitespace ch)) s.

(** The sticker table of [Cube.__init__]: for each piece its position and,
    per axis, the index of its sticker in the string. *)
Definition face_table : list (Point * list (option nat)) :=
  [ (RIGHT, [Some 28; None; None]);
    (LEFT,  [Some 22; None; None]);
    (UP,    [None; Some 4; None]);
    (DOWN,  [None; Some 49; None]);
    (FRONT, [None; None; Some 25]);
    (BACK,  [None; None; Some 31]) ]%nat.

Definition edge_table : list (Point * list (option nat)) :=
  [ (padd RIGHT UP,    [Some 16; Some 5; None]);
    (padd RIGHT DOWN,  [Some 40; Some 50; None]);
    (padd RIGHT FRONT, [Some 27; None; Some 26]);
    (padd RIGHT BACK,  [Some 29; None; Some 30]);
    (padd LEFT UP,     [Some 10; Some 3; None]);
    (padd LEFT DOWN,   [Some 34; Some 48; None]);
    (padd LEFT FRONT,  [Some 23; None; Some 24]);
    (padd LEFT BACK,   [Some 21; None; Some 32]);
    (padd UP FRONT,    [None; Some 7; Some 13]);
    (padd UP BACK,     [None; Some 1; Some 19]);
    (padd DOWN FRONT,  [None; Some 46; Some 37]);
    (padd DOWN BACK,   [None; Some 52; Some 43]) ]%nat.

Definition corner_table : list (Point * list (option nat)) :=
  [ (padd (padd RIGHT UP) FRONT,   [Some 15; Some 8; Some 14]);
    (padd (padd RIGHT UP) BACK,    [Some 17; Some 2; Some 18]);
    (padd (padd RIGHT DOWN) FRONT, [Some 39; Some 47; Some 38]);
    (padd (padd RIGHT DOWN) BACK,  [Some 41; Some 53; Some 42]);
    (padd (padd LEFT UP) FRONT,    [Some 11; Some 6; Some 12]);
    (padd (padd LEFT UP) BACK,     [Some 9; Some 0; Some 20]);
    (padd (padd LEFT DOWN) FRONT,  [Some 35; Some 45; Some 36]);
    (padd (padd LEFT DOWN) BACK,   [Some 33; Some 51; Some 44]) ]%nat.

(** Build the pieces of one table; [cube_str[i]] raises out of range. *)
Fixpoint build_pieces (cube_str : list ascii)
    (table : list (Point * list (option nat))) : result (list Piece) :=
  match table with
  | [] => Ok []
  | (p, slots) :: rest =>
      (cs <- (fix stickers (l : list (option nat)) : result (list color) :=
                match l with
                | [] => Ok []
                | None :: l' => (cs <- stickers l' ;; Ok (None :: cs))
                | Some i :: l' =>
                    match cube_str !! i with
                    | Some ch => (cs <- stickers l' ;; Ok (Some ch :: cs))
                    | None => Raise IndexError
                    end
                end) slots ;;
       piece <- Piece_init p cs ;;
       ps <- build_pieces cube_str rest ;;
       Ok (piece :: ps))%result
  end.

(** [Cube._assert_data]. *)
Definition _assert_data (c : Cube) : result unit :=
  if negb (length c =? 26)%nat then Raise AssertionError
  else if negb (forallb (fun p => bool_decide (type p = FACE)) (faces c))
  then Raise AssertionError
  else if negb (forallb (fun p => bool_decide (type p = EDGE)) (edges c))
  then Raise AssertionError
  else if negb (forallb (fun p => bool_decide (type p = CORNER)) (corners c))
  then Raise AssertionError
  else Ok tt.

(** [Cube.__init__] on a string. *)
Definition Cube_init (cube_str : string) : result Cube :=
  let cube_str := remove_whitespace (list_ascii_of_string cube_str) in
  if negb (length cube_str =? 54)%nat then Raise AssertionError
  else
    (fs <- build_pieces cube_str face_table ;;
     es <- build_pieces cube_str edge_table ;;
     cs <- build_pieces cube_str corner_table ;;
     let pieces := fs ++ es ++ cs in
     _ <- _assert_data pieces ;;
     Ok pieces)%result.

(** [Cube._from_cube]: a deep copy.  Every piece is built afresh through
    [Piece.__init__], which recomputes its type. *)
Fixpoint _from_cube (c : Cube) : result Cube :=
  match c with
  | [] => Ok []
  | p :: rest =>
      (p' <- Piece_init (pos p) (colors p) ;;
       rest' <- _from_cube rest ;;
       Ok (p' :: rest'))%result
  end.

(** References, in store order starting at [n], to the pieces that satisfy
    [f]: the list comprehensions of [_face] and [_slice]. *)
Fixpoint select_from (n : nat) (f : Piece -> bool) (c : list Piece) : list nat :=
  match c with
  | [] => []
  | p :: rest =>
      if f p then n :: select_from (S n) f rest else select_from (S n) f rest
  end.

Definition select (f : Piece -> bool) (c : Cube) : list nat := select_from 0 f c.

(** [Cube._face]. *)
Definition _face (axis : Point) (c : Cube) : result (list nat) :=
  if negb (pcount axis 0 =? 2) then Raise AssertionError
  else Ok (select (fun p => 0 <? dot (pos p) axis) c).

(** [Cube._slice]. *)
Definition _slice (plane : Point) (c : Cube) : result (list nat) :=
  if negb (pcount plane 0 =? 1) then Raise AssertionError
  else
    match List.filter (fun i => match pget plane i with
                                | Ok v => v =? 0
                                | Raise _ => false
                                end) [0%nat; 1%nat; 2%nat] with
    | i :: _ =>
        Ok (select (fun p => match pget (pos p) i with
                             | Ok v => v =? 0
                             | Raise _ => false
                             end) c)
    | [] => Raise (Exception "StopIteration")
    end.

(** [Cube._rotate_pieces]: rotate the referenced pieces one after the
    other, each in place. *)
Fixpoint _rotate_pieces (pieces : list nat) (matrix : Matrix) : proc Cube unit :=
  fun c =>
    match pieces with
    | [] => (Ok tt, c)
    | r :: rest =>
        match c !! r with
        | None => (Raise IndexError, c)
        | Some p =>
            match rotate matrix p with
            | (Ok _, p') => _rotate_pieces rest matrix (<[r := p']> c)
            | (Raise e, p') => (Raise e, <[r := p']> c)
            end
        end
    end.

Definition _rotate_face (face : Point) (matrix : Matrix) : proc Cube unit :=
  (ps <- query (_face face) ;; _rotate_pieces ps matrix)%proc.

Definition _rotate_slice (plane : Point) (matrix : Matrix) : proc Cube unit :=
  (ps <- query (_slice plane) ;; _rotate_pieces ps matrix)%proc.

Definition all_pieces (c : Cube) : list nat := seq 0 (length c).

(** The 24 move methods of [Cube], by name. *)
Module Move.
Inductive t :=
  | L | Li | R | Ri | U | Ui | D | Di | F | Fi | B | Bi
  | M | Mi | E | Ei | S | Si
  | X | Xi | Y | Yi | Z | Zi.

Definition all : list t :=
  [L; Li; R; Ri; U; Ui; D; Di; F; Fi; B; Bi;
   M; Mi; E; Ei; S; Si; X; Xi; Y; Yi; Z; Zi].

Definition name (m : t) : string :=
  match m with
  | L => "L" | Li => "Li" | R => "R" | Ri => "Ri"
  | U => "U" | Ui => "Ui" | D => "D" | Di => "Di"
  | F => "F" | Fi => "Fi" | B => "B" | Bi => "Bi"
  | M => "M" | Mi => "Mi" | E => "E" | Ei => "Ei"
  | S => "S" | Si => "Si"
  | X => "X" | Xi => "Xi" | Y => "Y" | Yi => "Yi"
  | Z => "Z" | Zi => "Zi"
  end.

Definition of_name (s : string) : option t :=
  List.find (fun m => String.eqb (name m) s) all.

(** The move of the same letter with the suffix [i] added or dropped. *)
Definition inverse (m : t) : t :=
  match m with
  | L => Li | Li => L | R => Ri | Ri => R
  | U => Ui | Ui => U | D => Di | Di => D
  | F => Fi | Fi => F | B => Bi | Bi => B
  | M => Mi | Mi => M | E => Ei | Ei => E
  | S => Si | Si => S
  | X => Xi | Xi => X | Y => Yi | Yi => Y
  | Z => Zi | Zi => Z
  end.
End Move.

#[global] Instance Move_eq_dec : EqDecision Move.t.
Proof. solve_decision. Defined.

(** The body of each move method. *)
Definition method (m : Move.t) : proc Cube unit :=
  match m with
  | Move.L  => _rotate_face LEFT ROT_YZ_CC
  | Move.Li => _rotate_face LEFT ROT_YZ_CW
  | Move.R  => _rotate_face RIGHT ROT_YZ_CW
  | Move.Ri => _rotate_face RIGHT ROT_YZ_CC
  | Move.U  => _rotate_face UP ROT_XZ_CW
  | Move.Ui => _rotate_face UP ROT_XZ_CC
  | Move.D  => _rotate_face DOWN ROT_XZ_CC
  | Move.Di => _rotate_face DOWN ROT_XZ_CW
  | Move.F  => _rotate_face FRONT ROT_XY_CW
  | Move.Fi => _rotate_face FRONT ROT_XY_CC
  | Move.B  => _rotate_face BACK ROT_XY_CC
  | Move.Bi => _rotate_face BACK ROT_XY_CW
  | Move.M  => _rotate_slice (padd Y_AXIS Z_AXIS) ROT_YZ_CC
  | Move.Mi => _rotate_slice (padd Y_AXIS Z_AXIS) ROT_YZ_CW
  | Move.E  => _rotate_slice (padd X_AXIS Z_AXIS) ROT_XZ_CC
  | Move.Ei => _rotate_slice (padd X_AXIS Z_AXIS) ROT_XZ_CW
  | Move.S  => _rotate_slice (padd X_AXIS Y_AXIS) ROT_XY_CW
  | Move.Si => _rotate_slice (padd X_AXIS Y_AXIS) ROT_XY_CC
  | Move.X  => fun c => _rotate_pieces (all_pieces c) ROT_YZ_CW c
  | Move.Xi => fun c => _rotate_pieces (all_pieces c) ROT_YZ_CC c
  | Move.Y  => fun c => _rotate_pieces (all_pieces c) ROT_XZ_CW c
  | Move.Yi => fun c => _rotate_pieces (all_pieces c) ROT_XZ_CC c
  | Move.Z  => fun c => _rotate_pieces (all_pieces c) ROT_XY_CW c
  | Move.Zi => fun c => _rotate_pieces (all_pieces c) ROT_XY_CC c
  end.

(** ** cube.py: queries *)

(** Dereference a piece reference. *)
Definition deref (c : Cube) (r : nat) : result Piece :=
  match c !! r with
  | Some p => Ok p
  | None => Raise IndexError
  end.

(** [piece.colors[i]]. *)
Definition color_slot (p : Piece) (i : nat) : result color :=
  match colors p !! i with
  | Some v => Ok v
  | None => Raise IndexError
  end.

(** [[piece.colors[i] for piece in pieces]]. *)
Fixpoint slot_of_each (c : Cube) (i : nat) (pieces : list nat) : result (list color) :=
  match pieces with
  | [] => Ok []
  | r :: rest =>
      (p <- deref c r ;;
       v <- color_slot p i ;;
       vs <- slot_of_each c i rest ;;
       Ok (v :: vs))%result
  end.

(** The local function [check] of [Cube.is_solved]. *)
Definition check (cs : list color) : result bool :=
  if negb (length cs =? 9)%nat then Raise AssertionError
  else Ok (forallb (fun v => color_eqb v (List.hd None cs)) cs).

Definition check_face (face : Point) (i : nat) (c : Cube) : result bool :=
  (ps <- _face face c ;; cs <- slot_of_each c i ps ;; check cs)%result.

(** [Cube.is_solved]; [and] evaluates its right operand only when the left
    one is true. *)
Definition is_solved (c : Cube) : result bool :=
  let and_then (a b : result bool) : result bool :=
    (v <- a ;; if v : bool then b else Ok false)%result in
  and_then (check_face FRONT 2 c)
    (and_then (check_face BACK 2 c)
       (and_then (check_face UP 1 c)
          (and_then (check_face DOWN 1 c)
             (and_then (check_face LEFT 0 c) (check_face RIGHT 0 c))))).

(** The first piece, in store order, that satisfies [f]. *)
Definition first_ref (f : Piece -> bool) (c : Cube) : option nat :=
  List.hd_error (select f c).

(** [Cube.find_piece] on the tuple of its arguments; [None] is Python's [None]. *)
Definition find_piece (cs : list color) (c : Cube) : option nat :=
  if existsb (color_eqb None) cs then None
  else first_ref (fun p =>
         (Z.of_nat (count_None (colors p)) =? 3 - Z.of_nat (length cs))
         && forallb (fun v => existsb (color_eqb v) (colors p)) cs) c.

(** [Cube.get_piece] and [Cube.__getitem__]. *)
Definition get_piece (point : Point) (c : Cube) : option nat :=
  first_ref (fun p => peqb (pos p) point) c.

(** [self[point].colors[i]]: the attribute access on [None] raises. *)
Definition color_at (point : Point) (i : nat) (c : Cube) : result color :=
  match get_piece point c with
  | None => Raise AttributeError
  | Some r => (p <- deref c r ;; color_slot p i)%result
  end.

Definition left_color := color_at LEFT 0.
Definition right_color := color_at RIGHT 0.
Definition up_color := color_at UP 1.
Definition down_color := color_at DOWN 1.
Definition front_color := color_at FRONT 2.
Definition back_color := color_at BACK 2.

(** ** cube.py: the net *)

(** Comparison of the 2-tuples used as sort keys. *)
Definition key_ltb (a b : Z * Z) : bool :=
  (fst a <? fst b) || ((fst a =? fst b) && (snd a <? snd b)).

(** [sorted(pieces, key=key)]: a stable sort, here by insertion of each
    element behind the elements whose key is not greater. *)
Fixpoint insert_sorted {A} (key : A -> Z * Z) (a : A) (l : list A) : list A :=
  match l with
  | [] => [a]
  | b :: l' =>
      if key_ltb (key a) (key b) then a :: b :: l'
      else b :: insert_sorted key a l'
  end.

Definition sorted {A} (key : A -> Z * Z) (l : list A) : list A :=
  fold_left (fun acc a => insert_sorted key a acc) l [].

(** One face of [_color_list]: its pieces sorted by [key], then slot [i]
    of each. *)
Definition face_colors (face : Point) (key : Point -> Z * Z) (i : nat)
    (c : Cube) : result (list color) :=
  (ps <- _face face c ;;
   let key_of r := match c !! r with
                   | Some p => key (pos p)
                   | None => (0, 0)
                   end in
   slot_of_each c i (sorted key_of ps))%result.

(** Python's [l[a:b]]. *)
Definition slice {A} (l : list A) (a b : nat) : list A := take (b - a) (drop a l).

(** [Cube._color_list]. *)
Definition _color_list (c : Cube) : result (list color) :=
  (right <- face_colors RIGHT (fun p => (- py p, - pz p)) 0 c ;;
   left <- face_colors LEFT (fun p => (- py p, pz p)) 0 c ;;
   up <- face_colors UP (fun p => (pz p, px p)) 1 c ;;
   down <- face_colors DOWN (fun p => (- pz p, px p)) 1 c ;;
   front <- face_colors FRONT (fun p => (- py p, px p)) 2 c ;;
   back <- face_colors BACK (fun p => (- py p, - px p)) 2 c ;;
   Ok (up ++ slice left 0 3 ++ slice front 0 3 ++ slice right 0 3 ++ slice back 0 3
       ++ slice left 3 6 ++ slice front 3 6 ++ slice right 3 6 ++ slice back 3 6
       ++ slice left 6 9 ++ slice front 6 9 ++ slice right 6 9 ++ slice back 6 9
       ++ down))%result.

(** [Cube.__eq__] between two cubes. *)
Definition Cube_eq (c other : Cube) : result bool :=
  (a <- _color_list c ;;
   b <- _color_list other ;;
   Ok (bool_decide (a = b)))%result.

(** [str.isspace] on the code points 0..255: what [str.strip] and
    [str.split] treat as whitespace.  Besides [string.whitespace] these are
    the four separators 28..31, NEL (133) and the no-break space (160). *)
Definition isspace (ch : ascii) : bool :=
  let n := nat_of_ascii ch in
  ((9 <=? n) && (n <=? 13) || (28 <=? n) && (n <=? 32)
   || (n =? 133) || (n =? 160))%nat.

Fixpoint lstrip (s : list ascii) : list ascii :=
  match s with
  | ch :: s' => if isspace ch then lstrip s' else s
  | [] => []
  end.

(** [str.strip()]. *)
Definition strip (s : list ascii) : list ascii :=
  rev (lstrip (rev (lstrip s))).

(** [str(x)] of a colour slot. *)
Definition str_of_color (v : color) : list ascii :=
  match v with
  | Some ch => [ch]
  | None => list_ascii_of_string "None"
  end.

(** [template.format] on the argument list, for a template whose only fields are [{}]. *)
Fixpoint format (template : list ascii) (args : list color) : result (list ascii) :=
  match template with
  | "{"%char :: (("}"%char :: rest) as tl) =>
      match args with
      | a :: args' => (s <- format rest args' ;; Ok (str_of_color a ++ s))%result
      | [] => Raise IndexError
      end
  | ch :: rest => (s <- format rest args ;; Ok (ch :: s))%result
  | [] => Ok []
  end.

Definition newline : string := String "010"%char EmptyString.

Definition template : string :=
  ("    {}{}{}" ++ newline ++
   "    {}{}{}" ++ newline ++
   "    {}{}{}" ++ newline ++
   "{}{}{} {}{}{} {}{}{} {}{}{}" ++ newline ++
   "{}{}{} {}{}{} {}{}{} {}{}{}" ++ newline ++
   "{}{}{} {}{}{} {}{}{} {}{}{}" ++ newline ++
   "    {}{}{}" ++ newline ++
   "    {}{}{}" ++ newline ++
   "    {}{}{}")%string.

(** [Cube.__str__]. *)
Definition Cube_str (c : Cube) : result (list ascii) :=
  (cl <- _color_list c ;;
   s <- format (list_ascii_of_string template) cl ;;
   Ok (list_ascii_of_string "    " ++ strip s))%result.

(** [Cube.flat_str]. *)
Definition flat_str (c : Cube) : result (list ascii) :=
  (s <- Cube_str c ;; Ok (remove_whitespace s))%result.

(** ** cube.py: sequence *)

(** [str.split()]: the maximal runs of characters that are not whitespace.
    [tok] is the token read so far. *)
Fixpoint split_from (tok : string) (s : string) : list string :=
  match s with
  | EmptyString =>
      match tok with
      | EmptyString => []
      | _ => [tok]
      end
  | String ch s' =>
      if isspace ch then
        match tok with
        | EmptyString => split_from EmptyString s'
        | _ => tok :: split_from EmptyString s'
        end
      else split_from (tok ++ String ch EmptyString) s'
  end.

Definition split (s : string) : list string := split_from EmptyString s.

(** [" ".join(names)]. *)
Definition join (names : list string) : string := String.concat " " names.

Section Sequence.
(** The attributes of a [Cube] object other than its 24 move methods
    (data attributes, the other methods of the class, what it inherits
    from [object]): for a name, [None] when there is no such attribute,
    otherwise what calling the attribute without arguments does. *)
Variable other_attribute : string -> option (proc Cube unit).

(** [getattr(self, name)]. *)
Definition getattr (name : string) : result (proc Cube unit) :=
  match Move.of_name name with
  | Some m => Ok (method m)
  | None =>
      match other_attribute name with
      | Some f => Ok f
      | None => Raise AttributeError
      end
  end.

(** [[getattr(self, name) for name in names]]. *)
Fixpoint getattr_each (names : list string) : result (list (proc Cube unit)) :=
  match names with
  | [] => Ok []
  | name :: rest =>
      (f <- getattr name ;; fs <- getattr_each rest ;; Ok (f :: fs))%result
  end.

(** [for move in moves: move()]. *)
Fixpoint call_each (moves : list (proc Cube unit)) : proc Cube unit :=
  match moves with
  | [] => ret tt
  | move :: rest => (move ;; call_each rest)%proc
  end.

(** [Cube.sequence]. *)
Definition sequence (move_str : string) : proc Cube unit := fun c =>
  match getattr_each (split move_str) with
  | Ok moves => call_each moves c
  | Raise e => (Raise e, c)
  end.

(** Replaying a list of move names as [solve_cube.py] does:
    [cube.sequence(" ".join(names))]. *)
Definition replay (names : list string) : proc Cube unit :=
  sequence (join names).
End Sequence.

(** ** optimize.py *)

Definition X_ROT_CW : list (string * string) :=
  [("U", "F"); ("B", "U"); ("D", "B"); ("F", "D");
   ("E", "Si"); ("S", "E"); ("Y", "Z"); ("Z", "Yi")]%string.
Definition Y_ROT_CW : list (string * string) :=
  [("B", "L"); ("R", "B"); ("F", "R"); ("L", "F");
   ("S", "Mi"); ("M", "S"); ("Z", "X"); ("X", "Zi")]%string.
Definition Z_ROT_CW : list (string * string) :=
  [("U", "L"); ("R", "U"); ("D", "R"); ("L", "D");
   ("E", "Mi"); ("M", "E"); ("Y", "Xi"); ("X", "Y")]%string.

(** [{v: k for k, v in table.items()}]; no value occurs twice in the three
    tables above, so no key of the result is overwritten. *)
Definition inverted (table : list (string * string)) : list (string * string) :=
  map (fun kv => (snd kv, fst kv)) table.

Definition X_ROT_CC := inverted X_ROT_CW.
Definition Y_ROT_CC := inverted Y_ROT_CW.
Definition Z_ROT_CC := inverted Z_ROT_CW.

(** [table[key]], [None] when [key not in table]. *)
Fixpoint table_get (table : list (string * string)) (key : string) : option string :=
  match table with
  | [] => None
  | (k, v) :: rest => if String.eqb k key then Some v else table_get rest key
  end.

(** [get_rot_table]; it falls off its end, returning [None], for any other
    string. *)
Definition get_rot_table (rot : string) : option (list (string * string)) :=
  if String.eqb rot "X" then Some X_ROT_CW
  else if String.eqb rot "Xi" then Some X_ROT_CC
  else if String.eqb rot "Y" then Some Y_ROT_CW
  else if String.eqb rot "Yi" then Some Y_ROT_CC
  else if String.eqb rot "Z" then Some Z_ROT_CW
  else if String.eqb rot "Zi" then Some Z_ROT_CC
  else None.

(** [move.endswith('i')]. *)
Fixpoint endswith_i (move : string) : bool :=
  match move with
  | EmptyString => false
  | String ch EmptyString => Ascii.eqb ch "i"
  | String _ rest => endswith_i rest
  end.

(** [_invert]: [move[:1]] keeps the first character only. *)
Definition _invert (move : string) : string :=
  if endswith_i move then
    match move with
    | String ch _ => String ch EmptyString
    | EmptyString => EmptyString
    end
  else (move ++ "i")%string.

(** One iteration of the loop of [_unrotate]. *)
Definition unrotate_move (rot_table : list (string * string)) (move : string) : string :=
  match table_get rot_table move with
  | Some v => v
  | None =>
      match table_get rot_table (_invert move) with
      | Some v => _invert v
      | None => move
      end
  end.

(** [_unrotate]; with no table, the first [move in rot_table] raises. *)
Definition _unrotate (rot : string) (moves : list string) : result (list string) :=
  match get_rot_table rot with
  | Some rot_table => Ok (map (unrotate_move rot_table) moves)
  | None =>
      match moves with
      | [] => Ok []
      | _ => Raise TypeError
      end
  end.

(** The [while] loops of the three rules walk an index [i] over the list
    and never look at or change what lies before [i].  Each loop is
    therefore a function of the part of the list from [i] on, returning
    that part as the loop leaves it and whether it changed anything.
    The loops that rewrite what lies ahead take the number of iterations
    still allowed, [fuel]; the length of the list is enough. *)

(** The loop of [apply_repeat_three_optimization] on [moves[i:]]. *)
Fixpoint repeat_three_pass (fuel : nat) (moves : list string) : list string * bool :=
  match fuel with
  | O => (moves, false)
  | S fuel =>
      match moves with
      | a :: b :: c :: rest =>
          if String.eqb a b && String.eqb b c then
            (fst (repeat_three_pass fuel (_invert a :: rest)), true)
          else
            let '(moves', changed) := repeat_three_pass fuel (b :: c :: rest) in
            (a :: moves', changed)
      | _ => (moves, false)
      end
  end.

(** [apply_repeat_three_optimization]: the loop, then the recursive call
    when something changed; [depth] bounds the recursion. *)
Fixpoint repeat_three_rec (depth : nat) (moves : list string) : list string :=
  match depth with
  | O => moves
  | S depth =>
      let '(moves', changed) := repeat_three_pass (length moves) moves in
      if changed then repeat_three_rec depth moves' else moves'
  end.

Definition apply_repeat_three_optimization (moves : list string) : list string :=
  repeat_three_rec (S (length moves)) moves.

(** The loop of [apply_do_undo_optimization] on [moves[i:]]. *)
Fixpoint do_undo_pass (moves : list string) : list string * bool :=
  match moves with
  | a :: ((b :: rest) as tl) =>
      if String.eqb (_invert a) b then (fst (do_undo_pass rest), true)
      else
        let '(moves', changed) := do_undo_pass tl in
        (a :: moves', changed)
  | _ => (moves, false)
  end.

Fixpoint do_undo_rec (depth : nat) (moves : list string) : list string :=
  match depth with
  | O => moves
  | S depth =>
      let '(moves', changed) := do_undo_pass moves in
      if changed then do_undo_rec depth moves' else moves'
  end.

Definition apply_do_undo_optimization (moves : list string) : list string :=
  do_undo_rec (S (length moves)) moves.

Definition rots : list string := ["X"; "Y"; "Z"; "Xi"; "Yi"; "Zi"]%string.

Definition in_rots (move : string) : bool := existsb (String.eqb move) rots.

(** The [for j in reversed(range(i + 1, len(moves)))] search on
    [moves[i+1:]]: the last occurrence of [target], as the elements before
    it and those after it. *)
Fixpoint split_at_last (target : string) (l : list string)
    : option (list string * list string) :=
  match l with
  | [] => None
  | a :: l' =>
      match split_at_last target l' with
      | Some (inner, after) => Some (a :: inner, after)
      | None => if String.eqb a target then Some ([], l') else None
      end
  end.

(** The loop of [apply_no_full_cube_rotation_optimization] on [moves[i:]].
    After a rewrite [i] is incremented all the same, which steps over the
    first of the rewritten moves. *)
Fixpoint no_rotation_pass (fuel : nat) (moves : list string)
    : result (list string * bool) :=
  match fuel with
  | O => Ok (moves, false)
  | S fuel =>
      match moves with
      | [] => Ok ([], false)
      | m :: rest =>
          let skip :=
            (r <- no_rotation_pass fuel rest ;;
             Ok (m :: fst r, snd r))%result in
          if negb (in_rots m) then skip
          else
            match split_at_last (_invert m) rest with
            | None => skip
            | Some (inner, after) =>
                (inner' <- _unrotate m inner ;;
                 match inner' ++ after with
                 | [] => Ok ([], true)
                 | h :: t =>
                     (r <- no_rotation_pass fuel t ;; Ok (h :: fst r, true))
                 end)%result
            end
      end
  end.

Fixpoint no_rotation_rec (depth : nat) (moves : list string) : result (list string) :=
  match depth with
  | O => Ok moves
  | S depth =>
      (r <- no_rotation_pass (length moves) moves ;;
       if snd r then no_rotation_rec depth (fst r) else Ok (fst r))%result
  end.

Definition apply_no_full_cube_rotation_optimization (moves : list string)
    : result (list string) :=
  no_rotation_rec (S (length moves)) moves.

(** [optimize_moves]. *)
Definition optimize_moves (moves : list string) : result (list string) :=
  (result <- apply_no_full_cube_rotation_optimization moves ;;
   Ok (apply_do_undo_optimization (apply_repeat_three_optimization result)))%result.

(** ** solve.py *)

(** The iterations of a [while] loop that the model may run: a loop that
    uses them up ends in this marker, which is no Python exception. *)
Definition OutOfFuel : exn := Exception "loop still running".

(** [while cond: body], where [body] gets the value of the local counter
    [count] and the loop increments it; the result is the final count. *)
Fixpoint while_count {St} (fuel : nat) (cond : proc St bool)
    (body : Z -> proc St unit) (count : Z) : proc St Z :=
  match fuel with
  | O => raise OutOfFuel
  | S fuel =>
      (b <- cond ;;
       if b : bool then (body count ;; while_count fuel cond body (count + 1))
       else ret count)%proc
  end.

(** [for _ in range(n): body]. *)
Fixpoint for_range {St} (n : nat) (body : proc St unit) : proc St unit :=
  match n with
  | O => ret tt
  | S n => (body ;; for_range n body)%proc
  end.

(** [a and b] on conditions. *)
Definition and_then {St} (a b : proc St bool) : proc St bool :=
  (v <- a ;; if v : bool then b else ret false)%proc.

(** [a or b] on conditions. *)
Definition or_else {St} (a b : proc St bool) : proc St bool :=
  (v <- a ;; if v : bool then ret true else b)%proc.

Definition not_ {St} (a : proc St bool) : proc St bool :=
  (v <- a ;; ret (negb v))%proc.

Module Solver.

(** The attributes of a [Solver] object; [self.colors], which is never
    read, is left out. *)
Record t := mk {
  cube : Cube;
  moves : list string;
  left_piece : option nat;
  right_piece : option nat;
  up_piece : option nat;
  down_piece : option nat;
  inifinite_loop_max_iterations : Z }.

(** [Solver.__init__]. *)
Definition init (c : Cube) : result t :=
  (l <- left_color c ;;
   r <- right_color c ;;
   u <- up_color c ;;
   d <- down_color c ;;
   Ok (mk c []
         (find_piece [l] c) (find_piece [r] c)
         (find_piece [u] c) (find_piece [d] c) 12))%result.

Definition stuck : exn := Exception "Stuck in loop - unsolvable cube".

Section Methods.
Variable other_attribute : string -> option (proc Cube unit).

(** The solver object itself. *)
Definition self : proc t t := fun s => (Ok s, s).

(** Something read off [self.cube]. *)
Definition on_cube {A} (f : Cube -> result A) : proc t A :=
  fun s => (f (cube s), s).

(** [Solver.move]. *)
Definition move (move_str : string) : proc t unit := fun s =>
  let s := mk (cube s) (moves s ++ split move_str)
             (left_piece s) (right_piece s) (up_piece s) (down_piece s)
             (inifinite_loop_max_iterations s) in
  let '(r, c) := sequence other_attribute move_str (cube s) in
  (r, mk c (moves s) (left_piece s) (right_piece s) (up_piece s)
        (down_piece s) (inifinite_loop_max_iterations s)).

(** [piece.pos] and [piece.colors[i]] through a variable that holds a piece
    or [None]. *)
Definition pos_of (piece : option nat) : proc t Point :=
  on_cube (fun c =>
    match piece with
    | Some r => (p <- deref c r ;; Ok (pos p))%result
    | None => Raise AttributeError
    end).

Definition color_of (piece : option nat) (i : nat) : proc t color :=
  on_cube (fun c =>
    match piece with
    | Some r => (p <- deref c r ;; color_slot p i)%result
    | None => Raise AttributeError
    end).

(** [self.cube.find_piece(...)] on colours read off the cube. *)
Definition find (cs : list (Cube -> result color)) : proc t (option nat) :=
  on_cube (fun c =>
    (vs <- (fix eval (l : list (Cube -> result color)) : result (list color) :=
              match l with
              | [] => Ok []
              | f :: l' => (v <- f c ;; vs <- eval l' ;; Ok (v :: vs))
              end) cs ;;
     Ok (find_piece vs c))%result).

(** [cw, cc = cube.get_rot_from_face(pos)]. *)
Definition rot_from_face (p : Point) : proc t (string * string) :=
  match get_rot_from_face p with
  | Some names => ret names
  | None => raise TypeError
  end.

(** [self.cube[point].colors[i] == self.cube.<face>_color()]. *)
Definition sticker_is (point : Point) (i : nat) (face : Cube -> result color)
    : proc t bool :=
  (a <- on_cube (color_at point i) ;;
   b <- on_cube face ;;
   ret (color_eqb a b))%proc.

(** A step of a counted loop that gives up at the iteration ceiling. *)
Definition guarded (step : proc t unit) (count : Z) : proc t unit :=
  (step ;;
   s <- self ;;
   if inifinite_loop_max_iterations s <=? count + 1 then raise stuck else ret tt)%proc.

(** [Solver._cross_left_or_right]. *)
Definition _cross_left_or_right (fuel : nat) (edge_piece face_piece : option nat)
    (face_color : color) (move_1 move_2 : string) : proc t unit :=
  (in_place <-
     and_then
       (e <- pos_of edge_piece ;; f <- pos_of face_piece ;;
        ret (peqb e (mkPoint (px f) (py f) 1)))
       (a <- color_of edge_piece 2 ;; b <- on_cube front_color ;;
        ret (color_eqb a b)) ;;
   if in_place : bool then ret tt
   else
     e <- pos_of edge_piece ;;
     undo_move <-
       (if pz e =? 0 then
          names <- rot_from_face (mkPoint 0 (py e) (pz e)) ;;
          let '(cw, cc) := names in
          e <- pos_of edge_piece ;;
          if peqb e (padd LEFT UP) || peqb e (padd RIGHT DOWN)
          then (move cw ;; ret (Some cc))
          else (move cc ;; ret (Some cw))
        else
          e <- pos_of edge_piece ;;
          if pz e =? 1 then
            names <- rot_from_face (mkPoint (px e) (py e) 0) ;;
            let '(cw, cc) := names in
            move (cc ++ " " ++ cc)%string ;;
            e <- pos_of edge_piece ;;
            f <- pos_of face_piece ;;
            if negb (px e =? px f) then ret (Some (cw ++ " " ++ cw)%string)
            else ret None
          else ret None) ;;
     e <- pos_of edge_piece ;;
     assert (pz e =? -1) ;;
     _ <- while_count fuel
            (e <- pos_of edge_piece ;; f <- pos_of face_piece ;;
             ret (negb ((px e =? px f) && (py e =? py f))))
            (guarded (move "B")) 0 ;;
     match undo_move with
     | Some undo => if negb (String.eqb undo "") then move undo else ret tt
     | None => ret tt
     end ;;
     a <- color_of edge_piece 0 ;;
     if color_eqb a face_color then move move_1 else move move_2)%proc.

(** [Solver.cross]. *)
Definition cross (fuel : nat) : proc t unit :=
  (fl_piece <- find [front_color; left_color] ;;
   fr_piece <- find [front_color; right_color] ;;
   fu_piece <- find [front_color; up_color] ;;
   fd_piece <- find [front_color; down_color] ;;
   s <- self ;;
   c <- on_cube left_color ;;
   _cross_left_or_right fuel fl_piece (left_piece s) c "L L" "E L Ei Li" ;;
   c <- on_cube right_color ;;
   _cross_left_or_right fuel fr_piece (right_piece s) c "R R" "Ei R E Ri" ;;
   move "Z" ;;
   c <- on_cube left_color ;;
   _cross_left_or_right fuel fd_piece (down_piece s) c "L L" "E L Ei Li" ;;
   c <- on_cube right_color ;;
   _cross_left_or_right fuel fu_piece (up_piece s) c "R R" "Ei R E Ri" ;;
   move "Zi")%proc.

(** [Solver.place_frd_corner]. *)
Definition place_frd_corner (fuel : nat) (corner_piece right_piece down_piece : option nat)
    (front_color : color) : proc t unit :=
  let not_at_back : proc t bool :=
    (e <- pos_of corner_piece ;; ret (negb (pz e =? -1)))%proc in
  (e <- pos_of corner_piece ;;
   (if pz e =? 1 then
      names <- rot_from_face (mkPoint 0 (py e) 0) ;;
      let '(cw, cc) := names in
      count <- while_count fuel not_at_back (fun _ => move cw) 0 ;;
      r <- (if 1 <? count then
              for_range (Z.to_nat count) (move cc) ;;
              count <- while_count fuel not_at_back (fun _ => move cc) 0 ;;
              ret (count, cw)
            else ret (count, cc)) ;;
      let '(count, undo_move) := r in
      move "B" ;;
      for_range (Z.to_nat count) (move undo_move)
    else ret tt) ;;
   _ <- while_count fuel
          (e <- pos_of corner_piece ;;
           r <- pos_of right_piece ;;
           d <- pos_of down_piece ;;
           ret (negb ((px e =? px r) && (py e =? py d))))
          (fun _ => move "B") 0 ;;
   a <- color_of corner_piece 0 ;;
   if color_eqb a front_color then move "B D Bi Di"
   else
     b <- color_of corner_piece 1 ;;
     if color_eqb b front_color then move "Bi Ri B R"
     else move "Ri B B R Bi Bi D Bi Di")%proc.

(** [Solver.cross_corners]. *)
Definition cross_corners (fuel : nat) : proc t unit :=
  (fld_piece <- find [front_color; left_color; down_color] ;;
   flu_piece <- find [front_color; left_color; up_color] ;;
   frd_piece <- find [front_color; right_color; down_color] ;;
   fru_piece <- find [front_color; right_color; up_color] ;;
   s <- self ;;
   c <- on_cube front_color ;;
   place_frd_corner fuel frd_piece (right_piece s) (down_piece s) c ;;
   move "Z" ;;
   c <- on_cube front_color ;;
   place_frd_corner fuel fru_piece (up_piece s) (right_piece s) c ;;
   move "Z" ;;
   c <- on_cube front_color ;;
   place_frd_corner fuel flu_piece (left_piece s) (up_piece s) c ;;
   move "Z" ;;
   c <- on_cube front_color ;;
   place_frd_corner fuel fld_piece (down_piece s) (left_piece s) c ;;
   move "Z")%proc.

(** [Solver.place_middle_layer_ld_edge]. *)
Definition place_middle_layer_ld_edge (fuel : nat) (ld_piece : option nat)
    (left_color down_color : color) : proc t unit :=
  (e <- pos_of ld_piece ;;
   (if pz e =? 0 then
      count <- while_count fuel
                 (e <- pos_of ld_piece ;;
                  ret (negb ((px e =? -1) && (py e =? -1))))
                 (fun _ => move "Z") 0 ;;
      move "B L Bi Li Bi Di B D" ;;
      for_range (Z.to_nat count) (move "Zi")
    else ret tt) ;;
   e <- pos_of ld_piece ;;
   assert (pz e =? -1) ;;
   a <- color_of ld_piece 2 ;;
   if color_eqb a left_color then
     _ <- while_count fuel
            (e <- pos_of ld_piece ;; ret (negb (py e =? -1)))
            (fun _ => move "B") 0 ;;
     move "B L Bi Li Bi Di B D"
   else
     a <- color_of ld_piece 2 ;;
     if color_eqb a down_color then
       _ <- while_count fuel
              (e <- pos_of ld_piece ;; ret (negb (px e =? -1)))
              (fun _ => move "B") 0 ;;
       move "Bi Di B D B L Bi Li"
     else raise (Exception "BUG!!"))%proc.

(** [Solver.second_layer]. *)
Definition second_layer (fuel : nat) : proc t unit :=
  let place piece :=
    (l <- on_cube left_color ;;
     d <- on_cube down_color ;;
     place_middle_layer_ld_edge fuel piece l d)%proc in
  (rd_piece <- find [right_color; down_color] ;;
   ru_piece <- find [right_color; up_color] ;;
   ld_piece <- find [left_color; down_color] ;;
   lu_piece <- find [left_color; up_color] ;;
   place ld_piece ;;
   move "Z" ;;
   place rd_piece ;;
   move "Z" ;;
   place ru_piece ;;
   move "Z" ;;
   place lu_piece ;;
   move "Z")%proc.

(** [Solver.back_face_edges]. *)
Definition back_face_edges (fuel : nat) : proc t unit :=
  let front p := sticker_is p 2 front_color in
  let state1 :=
    and_then (front (mkPoint 0 1 1))
      (and_then (front (mkPoint (-1) 0 1))
         (and_then (front (mkPoint 0 (-1) 1)) (front (mkPoint 1 0 1)))) in
  let state2 := and_then (front (mkPoint 0 1 1)) (front (mkPoint (-1) 0 1)) in
  let state3 := and_then (front (mkPoint (-1) 0 1)) (front (mkPoint 1 0 1)) in
  let state4 :=
    and_then (not_ (front (mkPoint 0 1 1)))
      (and_then (not_ (front (mkPoint (-1) 0 1)))
         (and_then (not_ (front (mkPoint 0 (-1) 1)))
            (not_ (front (mkPoint 1 0 1))))) in
  (move "X X" ;;
   _ <- while_count fuel (not_ state1)
          (guarded
             (b <- or_else state4 state2 ;;
              if b : bool then move "D F R Fi Ri Di"
              else
                b <- state3 ;;
                if b : bool then move "D R F Ri Fi Di" else move "F")) 0 ;;
   move "Xi Xi")%proc.

(** [assert piece.pos == point]. *)
Definition assert_at (piece : option nat) (point : Point) : proc t unit :=
  (e <- pos_of piece ;; assert (peqb e point))%proc.

(** [Solver.last_layer_corners_position]. *)
Definition last_layer_corners_position : proc t unit :=
  let move_1 := "Li Fi L D F Di Li F L F F "%string in
  let move_2 := "F Li Fi L D F Di Li F L F "%string in
  (move "X X" ;;
   c1 <- find [front_color; right_color; down_color] ;;
   c2 <- find [front_color; left_color; down_color] ;;
   c3 <- find [front_color; right_color; up_color] ;;
   c4 <- find [front_color; left_color; up_color] ;;
   e <- pos_of c4 ;;
   (if peqb e (mkPoint 1 (-1) 1) then move (move_1 ++ "Zi " ++ move_1 ++ " Z")%string
    else if peqb e (mkPoint 1 1 1) then move ("Z " ++ move_2 ++ " Zi")%string
    else if peqb e (mkPoint (-1) (-1) 1) then move ("Zi " ++ move_1 ++ " Z")%string
    else ret tt) ;;
   assert_at c4 (mkPoint (-1) 1 1) ;;
   e <- pos_of c2 ;;
   (if peqb e (mkPoint 1 1 1) then move (move_2 ++ move_1)%string
    else if peqb e (mkPoint 1 (-1) 1) then move move_1
    else ret tt) ;;
   assert_at c2 (mkPoint (-1) (-1) 1) ;;
   e <- pos_of c3 ;;
   (if peqb e (mkPoint 1 (-1) 1) then move move_2 else ret tt) ;;
   assert_at c3 (mkPoint 1 1 1) ;;
   assert_at c1 (mkPoint 1 (-1) 1) ;;
   move "Xi Xi")%proc.

(** [Solver.last_layer_corners_orientation]. *)
Definition last_layer_corners_orientation (fuel : nat) : proc t unit :=
  let at_ x y i := sticker_is (mkPoint x y 1) i front_color in
  let all4 a b c d := and_then a (and_then b (and_then c d)) in
  let state1 := and_then (at_ 1 1 1%nat) (and_then (at_ (-1) (-1) 1%nat) (at_ 1 (-1) 0%nat)) in
  let state2 := and_then (at_ (-1) 1 1%nat) (and_then (at_ 1 1 0%nat) (at_ 1 (-1) 1%nat)) in
  let state3 := all4 (at_ (-1) (-1) 1%nat) (at_ 1 (-1) 1%nat) (at_ (-1) 1 2%nat) (at_ 1 1 2%nat) in
  let state4 := all4 (at_ (-1) 1 1%nat) (at_ (-1) (-1) 1%nat) (at_ 1 1 2%nat) (at_ 1 (-1) 2%nat) in
  let state5 := and_then (at_ (-1) 1 1%nat) (at_ 1 (-1) 0%nat) in
  let state6 := all4 (at_ 1 1 1%nat) (at_ 1 (-1) 1%nat) (at_ (-1) (-1) 0%nat) (at_ (-1) 1 0%nat) in
  let state7 := all4 (at_ 1 1 0%nat) (at_ 1 (-1) 0%nat) (at_ (-1) (-1) 0%nat) (at_ (-1) 1 0%nat) in
  let state8 := all4 (at_ 1 1 2%nat) (at_ 1 (-1) 2%nat) (at_ (-1) (-1) 2%nat) (at_ (-1) 1 2%nat) in
  let move_1 := "Ri Fi R Fi Ri F F R F F "%string in
  let move_2 := "R F Ri F R F F Ri F F "%string in
  let first_of (cases : list (proc t bool * string)) (otherwise : string) :=
    (fix go (l : list (proc t bool * string)) : proc t unit :=
       match l with
       | [] => move otherwise
       | (test, names) :: l' => (b <- test ;; if b : bool then move names else go l')%proc
       end) cases in
  (move "X X" ;;
   _ <- while_count fuel (not_ state8)
          (guarded
             (first_of
                [ (state1, move_1);
                  (state2, move_2);
                  (state3, move_2 ++ "F F " ++ move_1);
                  (state4, move_2 ++ move_1);
                  (state5, move_1 ++ "F " ++ move_2);
                  (state6, move_1 ++ "Fi " ++ move_1);
                  (state7, move_1 ++ "F F " ++ move_1) ]%string
                "F")) 0 ;;
   bru_corner <- find [front_color; right_color; up_color] ;;
   _ <- while_count fuel
          (e <- pos_of bru_corner ;; ret (negb (peqb e (mkPoint 1 1 1))))
          (fun _ => move "F") 0 ;;
   move "Xi Xi")%proc.

(** [Solver._handle_last_layer_state1]. *)
Definition _handle_last_layer_state1 (fuel : nat) (h_move : string) : proc t unit :=
  (count <- while_count fuel
              (not_ (sticker_is (padd LEFT FRONT) 2 left_color))
              (fun count =>
                 move "F" ;;
                 if count + 1 =? 4
                 then raise (Exception "Bug: Failed to handle last layer state1")
                 else ret tt) 0 ;;
   move h_move ;;
   for_range (Z.to_nat count) (move "Fi"))%proc.

(** The local function [correct_edge] of [_handle_last_layer_state2]. *)
Definition correct_edge : proc t (option nat) :=
  let candidate point i face (otherwise : proc t (option nat)) :=
    (b <- and_then (sticker_is point 2 front_color) (sticker_is point i face) ;;
     if b : bool then on_cube (fun c => Ok (get_piece point c)) else otherwise)%proc in
  candidate (padd LEFT FRONT) 0%nat left_color
    (candidate (padd RIGHT FRONT) 0%nat right_color
       (candidate (padd UP FRONT) 1%nat up_color
          (candidate (padd DOWN FRONT) 1%nat down_color (ret None)))).

(** The [while True] loop of [_handle_last_layer_state2]; it returns the
    edge found. *)
Fixpoint find_correct_edge (fuel : nat) (cycle_move : string) (count : Z)
    : proc t (option nat) :=
  match fuel with
  | O => raise OutOfFuel
  | S fuel =>
      (edge <- correct_edge ;;
       match edge with
       | Some _ => ret edge
       | None =>
           move cycle_move ;;
           let count := count + 1 in
           (if count mod 3 =? 0 then move "Z" else ret tt) ;;
           s <- self ;;
           if inifinite_loop_max_iterations s <=? count then raise stuck
           else find_correct_edge fuel cycle_move count
       end)%proc
  end.

(** [Solver._handle_last_layer_state2]. *)
Definition _handle_last_layer_state2 (fuel : nat) (cycle_move : string) : proc t unit :=
  (edge <- find_correct_edge fuel cycle_move 0 ;;
   _ <- while_count fuel
          (e <- pos_of edge ;; ret (negb (peqb e (mkPoint (-1) 0 1))))
          (fun _ => move "Z") 0 ;;
   b <- and_then (sticker_is (padd LEFT FRONT) 2 front_color)
                 (sticker_is (padd LEFT FRONT) 0 left_color) ;;
   assert b)%proc.

Definition solved : proc t bool := on_cube is_solved.

(** The [for _ in range(4)] loop of [last_layer_edges]; [true] when it
    left the method through [return]. *)
Fixpoint fish_rounds (n : nat) (fish_pattern : proc t bool) (fish_move : string)
    : proc t bool :=
  match n with
  | O => ret false
  | S n =>
      (b <- fish_pattern ;;
       if b : bool then
         move fish_move ;;
         done <- solved ;;
         if done : bool then ret true else fish_rounds n fish_pattern fish_move
       else
         move "Z" ;;
         fish_rounds n fish_pattern fish_move)%proc
  end.

(** The [while not self.cube.is_solved()] loop of [last_layer_edges];
    [true] when the method was left through [return]. *)
Fixpoint finish_edges (fuel : nat) (fish_pattern h_pattern1 h_pattern2 : proc t bool)
    (fish_move h_pattern_move cycle_move : string) (count : Z) : proc t bool :=
  match fuel with
  | O => raise OutOfFuel
  | S fuel =>
      (done <- solved ;;
       if done : bool then ret false
       else
         returned <- fish_rounds 4 fish_pattern fish_move ;;
         if returned : bool then ret true
         else
           b <- h_pattern1 ;;
           (if b : bool then move h_pattern_move
            else
              b <- h_pattern2 ;;
              if b : bool then move ("Z " ++ h_pattern_move ++ "Zi")%string
              else move cycle_move) ;;
           let count := count + 1 in
           s <- self ;;
           if inifinite_loop_max_iterations s <=? count then raise stuck
           else finish_edges fuel fish_pattern h_pattern1 h_pattern2
                  fish_move h_pattern_move cycle_move count)%proc
  end.

(** [Solver.last_layer_edges]. *)
Definition last_layer_edges (fuel : nat) : proc t unit :=
  let cycle_move := "R R F D Ui R R Di U F R R"%string in
  let h_pattern_move := "Ri S Ri Ri S S Ri Fi Fi R Si Si Ri Ri Si R Fi Fi "%string in
  let fish_move := ("Di Li " ++ h_pattern_move ++ " L D")%string in
  (move "X X" ;;
   br_edge <- find [front_color; right_color] ;;
   bl_edge <- find [front_color; left_color] ;;
   bu_edge <- find [front_color; up_color] ;;
   bd_edge <- find [front_color; down_color] ;;
   let faces_front piece :=
     (a <- color_of piece 2 ;; b <- on_cube front_color ;; ret (color_eqb a b))%proc in
   let state1 :=
     and_then (not_ (faces_front bu_edge))
       (and_then (not_ (faces_front bd_edge))
          (and_then (not_ (faces_front bl_edge)) (not_ (faces_front br_edge)))) in
   let state2 :=
     or_else (faces_front bu_edge)
       (or_else (faces_front bd_edge)
          (or_else (faces_front bl_edge) (faces_front br_edge))) in
   b <- state1 ;;
   (if b : bool then _handle_last_layer_state1 fuel h_pattern_move else ret tt) ;;
   b <- state2 ;;
   (if b : bool then _handle_last_layer_state2 fuel cycle_move else ret tt) ;;
   let h_pattern1 :=
     and_then (not_ (sticker_is (mkPoint (-1) 0 1) 0 left_color))
       (and_then (not_ (sticker_is (mkPoint 1 0 1) 0 right_color))
          (and_then (sticker_is (mkPoint 0 (-1) 1) 1 down_color)
             (sticker_is (mkPoint 0 1 1) 1 up_color))) in
   let h_pattern2 :=
     and_then (sticker_is (mkPoint (-1) 0 1) 0 left_color)
       (and_then (sticker_is (mkPoint 1 0 1) 0 right_color)
          (and_then (sticker_is (mkPoint 0 (-1) 1) 1 front_color)
             (sticker_is (mkPoint 0 1 1) 1 front_color))) in
   let fish_pattern :=
     and_then (sticker_is (padd FRONT DOWN) 2 down_color)
       (and_then (sticker_is (padd FRONT RIGHT) 2 right_color)
          (and_then (sticker_is (padd FRONT DOWN) 1 front_color)
             (sticker_is (padd FRONT RIGHT) 0 front_color))) in
   returned <- finish_edges fuel fish_pattern h_pattern1 h_pattern2
                 fish_move h_pattern_move cycle_move 0 ;;
   if returned : bool then ret tt else move "Xi Xi")%proc.

(** [Solver.solve]. *)
Definition solve (fuel : nat) : proc t unit :=
  (cross fuel ;;
   cross_corners fuel ;;
   second_layer fuel ;;
   back_face_edges fuel ;;
   last_layer_corners_position ;;
   last_layer_corners_orientation fuel ;;
   last_layer_edges fuel)%proc.
End Methods.

End Solver.

(** * Specification vocabulary *)

#[global] Instance Piece_eq_dec : EqDecision Piece.
Proof. solve_decision. Defined.

Definition origin := mkPoint 0 0 0.

(** The lattice {-1,0,1}^3. *)
Definition on_lattice (p : Point) : bool :=
  forallb (fun v => (-1 <=? v) && (v <=? 1)) (piter p).

Definition lattice : list Point :=
  let vs := [-1; 0; 1] in
  flat_map (fun a => flat_map (fun b => map (fun c => mkPoint a b c) vs) vs) vs.

(** The 26 positions of a cube: the lattice without its centre. *)
Definition cubie_positions : list Point :=
  List.filter (fun p => negb (peqb p origin)) lattice.

(** A piece as [Piece.__init__] accepts it: a lattice position and three
    colour slots. *)
Definition piece_ok (p : Piece) : Prop :=
  on_lattice (pos p) = true /\ length (colors p) = 3%nat.

(** What a move does to one piece, read off the method itself by running
    it on the store that holds just this piece. *)
Definition turned (m : Move.t) (p : Piece) : Piece :=
  match snd (method m [p]) with
  | [p'] => p'
  | _ => p
  end.

(** The slots that hold a sticker are exactly the axes on which the
    position is nonzero. *)
Definition has_sticker (v : color) : bool :=
  match v with
  | Some _ => true
  | None => false
  end.

Definition slots_match (p : Piece) : Prop :=
  map has_sticker (colors p) = map (fun v => negb (v =? 0)) (piter (pos p)).

Definition well_formed_piece (p : Piece) : Prop :=
  on_lattice (pos p) = true /\ slots_match p.

(** The invariant of the cube: 26 pieces at pairwise distinct lattice
    positions other than the centre, each with its stickers on the axes of
    its position. *)
Record well_formed (c : Cube) : Prop := {
  wf_length : length c = 26%nat;
  wf_distinct : NoDup (map pos c);
  wf_positions : Forall (fun p => pos p <> origin) c;
  wf_pieces : Forall well_formed_piece c }.

(** Where a move takes the piece at a position. *)
Definition moved (m : Move.t) (pt : Point) : Point :=
  pos (turned m (mkPiece pt [None; None; None] FACE)).

(** The six rotation matrices, each with the two axes of its plane. *)
Definition rotations : list (Matrix * (nat * nat)) :=
  [ (ROT_XY_CW, (0, 1)); (ROT_XY_CC, (0, 1));
    (ROT_XZ_CW, (0, 2)); (ROT_XZ_CC, (0, 2));
    (ROT_YZ_CW, (1, 2)); (ROT_YZ_CC, (1, 2)) ]%nat.

(** A name of one of the 24 move methods. *)
Definition valid_name (s : string) : Prop := exists m, Move.name m = s.

(** What a move name, and a list of move names, does to one piece. *)
Definition act_name (s : string) (p : Piece) : Piece :=
  match Move.of_name s with
  | Some m => turned m p
  | None => p
  end.

Definition act (names : list string) (p : Piece) : Piece :=
  fold_left (fun q s => act_name s q) names p.

(** Two lists of move names with the same effect on every well-formed
    piece, the second made of move names. *)
Definition same_effect (l l' : list string) : Prop :=
  Forall valid_name l' /\
  forall p, well_formed_piece p -> act l' p = act l p.



(** No whole-cube rotation with its inverse somewhere behind it. *)
Fixpoint no_rotation_pair (l : list string) : bool :=
  match l with
  | [] => true
  | m :: rest =>
      (negb (in_rots m) || negb (existsb (fun a => String.eqb a (_invert m)) rest))
      && no_rotation_pair rest
  end.

(** A string without whitespace. *)
Fixpoint no_space (s : string) : bool :=
  match s with
  | EmptyString => true
  | String ch s' => negb (isspace ch) && no_space s'
  end.


(** The cubes that exist: built from a sticker string, then turned by move
    methods. *)
Inductive reachable : Cube -> Prop :=
  | reachable_init (cube_str : string) (c : Cube) :
      Cube_init cube_str = Ok c -> reachable c
  | reachable_move (m : Move.t) (c c' : Cube) :
      reachable c -> method m c = (Ok tt, c') -> reachable c'.

(** [SOLVED_CUBE_STR] of [solve_cube.py] and the cube built from it. *)
Definition SOLVED_CUBE_STR : string :=
  "OOOOOOOOOYYYWWWGGGBBBYYYWWWGGGBBBYYYWWWGGGBBBRRRRRRRRR".

Definition solved_cube : Cube :=
  match Cube_init SOLVED_CUBE_STR with
  | Ok c => c
  | Raise _ => []
  end.

(** * More of the code, and what its theorems need *)

(** [Matrix.__add__] and [Matrix.__sub__]: the sum and the difference,
    entry by entry. *)
Definition madd (a b : Matrix) : Matrix :=
  mkMatrix (m0 a + m0 b) (m1 a + m1 b) (m2 a + m2 b)
           (m3 a + m3 b) (m4 a + m4 b) (m5 a + m5 b)
           (m6 a + m6 b) (m7 a + m7 b) (m8 a + m8 b).

Definition msub (a b : Matrix) : Matrix :=
  mkMatrix (m0 a - m0 b) (m1 a - m1 b) (m2 a - m2 b)
           (m3 a - m3 b) (m4 a - m4 b) (m5 a - m5 b)
           (m6 a - m6 b) (m7 a - m7 b) (m8 a - m8 b).

(** The matrix that leaves every point where it is. *)
Definition identity_matrix : Matrix := mkMatrix 1 0 0 0 1 0 0 0 1.

(** A piece has the type that [_set_piece_type] gives its colours. *)
Definition typed (p : Piece) : Prop := _set_piece_type (colors p) = Ok (type p).

(** The axis about which a move turns: 0 for x, 1 for y, 2 for z. *)
Definition axis_of (m : Move.t) : nat :=
  match m with
  | Move.L | Move.Li | Move.R | Move.Ri | Move.M | Move.Mi | Move.X | Move.Xi => 0
  | Move.U | Move.Ui | Move.D | Move.Di | Move.E | Move.Ei | Move.Y | Move.Yi => 1
  | Move.F | Move.Fi | Move.B | Move.Bi | Move.S | Move.Si | Move.Z | Move.Zi => 2
  end.

(** The cubes of [solve_cube.py]: the solved cube, turned by moves. *)
Inductive scrambled : Cube -> Prop :=
  | scrambled_solved : scrambled solved_cube
  | scrambled_move (m : Move.t) (c c' : Cube) :
      scrambled c -> method m c = (Ok tt, c') -> scrambled c'.

(** ** solve_cube.py *)

Definition SCRAMBLE_MOVES : list string :=
  ["L"; "R"; "U"; "D"; "F"; "B"; "Li"; "Ri"; "Ui"; "Di"; "Fi"; "Bi"]%string.

(** [generate_scramble], on the moves that [random.choice] returns. *)
Definition generate_scramble (choices : list string) : string := join choices.

(** The state a procedure leaves, when it returns. *)
Definition state_after {St A} (m : proc St A) (s : St) : result St :=
  match m s with
  | (Ok _, s') => Ok s'
  | (Raise e, _) => Raise e
  end.

Section Script.
Variable other_attribute : string -> option (proc Cube unit).

(** [solve_random_cube], on the moves that [random.choice] returns; what it
    prints is left out. *)
Definition solve_random_cube (fuel : nat) (choices : list string) : result unit :=
  let scramble := generate_scramble choices in
  (cube_obj <- Cube_init SOLVED_CUBE_STR ;;
   cube_obj <- state_after (sequence other_attribute scramble) cube_obj ;;
   solver <- Solver.init cube_obj ;;
   solver <- state_after (Solver.solve other_attribute fuel) solver ;;
   let solution_moves := Solver.moves solver in
   optimised_moves <- optimize_moves solution_moves ;;
   check_cube <- Cube_init SOLVED_CUBE_STR ;;
   check_cube <- state_after (sequence other_attribute scramble) check_cube ;;
   check_cube <- state_after (sequence other_attribute (join optimised_moves)) check_cube ;;
   b <- is_solved check_cube ;;
   if b : bool then Ok tt else Raise AssertionError)%result.
End Script.

(** ** solve.py: the methods as trees of events *)

(** The methods of [Solver] once more, as data: each method body is a tree
    whose nodes are what the method does to its cube.  Interpreted on a
    cube, a tree does what the method of [Solver] does ([sim_solve]
    below); as data it can also be run on what is known of a cube, which
    is how the solver is shown to solve every scrambled cube. *)

(** What a method of [Solver] does to the objects it works on: it reads an
    attribute of a piece, asks the cube for a piece, turns the cube. *)
Inductive event : Type -> Type :=
  | Get_pos (piece : option nat) : event Point
  | Get_color (piece : option nat) (i : nat) : event color
  | Get_piece (point : Point) : event (option nat)
  | Find_piece (cs : list color) : event (option nat)
  | Is_solved : event bool
  | Do_move (move_str : string) : event unit.

(** A method body: a tree of events, with the calls of other methods
    marked by the name of the method. *)
Inductive prog (A : Type) : Type :=
  | Ret (a : A)
  | Throw (e : exn)
  | Vis {X : Type} (e : event X) (k : X -> prog A)
  | Call (name : string) (body : prog unit) (k : prog A).
Arguments Ret {A} a.
Arguments Throw {A} e.
Arguments Vis {A X} e k.
Arguments Call {A} name body k.

Fixpoint pbind {A B : Type} (p : prog A) (f : A -> prog B) : prog B :=
  match p with
  | Ret a => f a
  | Throw e => Throw e
  | Vis e k => Vis e (fun x => pbind (k x) f)
  | Call name body k => Call name body (pbind k f)
  end.

Definition trigger {X} (e : event X) : prog X := Vis e Ret.
Definition call (name : string) (body : prog unit) : prog unit :=
  Call name body (Ret tt).
Definition passert (b : bool) : prog unit :=
  if b then Ret tt else Throw AssertionError.

Declare Scope prog_scope.
Delimit Scope prog_scope with prog.
Notation "x <- m ;; k" := (pbind m (fun x => k))
  (at level 100, m at next level, right associativity) : prog_scope.
Notation "m ;; k" := (pbind m (fun _ => k))
  (at level 100, right associativity) : prog_scope.

Module Tree.

(** [while cond: body], where [body] gets the value of the local counter
    [count] and the loop increments it; the result is the final count. *)
Fixpoint while_count (fuel : nat) (cond : prog bool)
    (body : Z -> prog unit) (count : Z) : prog Z :=
  match fuel with
  | O => Throw OutOfFuel
  | S fuel =>
      (b <- cond ;;
       if b : bool then (body count ;; while_count fuel cond body (count + 1))
       else Ret count)%prog
  end.

(** [for _ in range(n): body]. *)
Fixpoint for_range (n : nat) (body : prog unit) : prog unit :=
  match n with
  | O => Ret tt
  | S n => (body ;; for_range n body)%prog
  end.

(** [a and b], [a or b], [not a] on conditions. *)
Definition and_then (a b : prog bool) : prog bool :=
  (v <- a ;; if v : bool then b else Ret false)%prog.
Definition or_else (a b : prog bool) : prog bool :=
  (v <- a ;; if v : bool then Ret true else b)%prog.
Definition not_ (a : prog bool) : prog bool :=
  (v <- a ;; Ret (negb v))%prog.

(** The objects a solver works on: its cube and the list of the moves it
    made. *)
Record objects := mk_objects {
  cube : Cube;
  moves : list string }.

(** The attributes that [Solver.__init__] binds once and for all;
    [self.colors], which is never read, is left out. *)
Record t := mk {
  left_piece : option nat;
  right_piece : option nat;
  up_piece : option nat;
  down_piece : option nat;
  inifinite_loop_max_iterations : Z }.

Definition stuck : exn := Exception "Stuck in loop - unsolvable cube".

(** [Solver.move]. *)
Definition move (move_str : string) : prog unit := trigger (Do_move move_str).

(** [piece.pos] and [piece.colors[i]] through a variable that holds a piece
    or [None]. *)
Definition pos_of (piece : option nat) : prog Point := trigger (Get_pos piece).
Definition color_of (piece : option nat) (i : nat) : prog color :=
  trigger (Get_color piece i).

(** [self.cube[point].colors[i]] and the six colour methods of the cube. *)
Definition color_at (point : Point) (i : nat) : prog color :=
  (piece <- trigger (Get_piece point) ;; color_of piece i)%prog.
Definition left_color := color_at LEFT 0.
Definition right_color := color_at RIGHT 0.
Definition up_color := color_at UP 1.
Definition down_color := color_at DOWN 1.
Definition front_color := color_at FRONT 2.

(** [self.cube.find_piece(...)] on colours read off the cube. *)
Fixpoint each (cs : list (prog color)) : prog (list color) :=
  match cs with
  | [] => Ret []
  | f :: cs' => (v <- f ;; vs <- each cs' ;; Ret (v :: vs))%prog
  end.
Definition find (cs : list (prog color)) : prog (option nat) :=
  (vs <- each cs ;; trigger (Find_piece vs))%prog.

(** [Solver.__init__]. *)
Definition init : prog t :=
  (l <- find [left_color] ;;
   r <- find [right_color] ;;
   u <- find [up_color] ;;
   d <- find [down_color] ;;
   Ret (mk l r u d 12))%prog.

(** [cw, cc = cube.get_rot_from_face(pos)]. *)
Definition rot_from_face (p : Point) : prog (string * string) :=
  match get_rot_from_face p with
  | Some names => Ret names
  | None => Throw TypeError
  end.

(** [self.cube[point].colors[i] == self.cube.<face>_color()]. *)
Definition sticker_is (point : Point) (i : nat) (face : prog color) : prog bool :=
  (a <- color_at point i ;;
   b <- face ;;
   Ret (color_eqb a b))%prog.

Section Methods.
Variable self : t.

(** A step of a counted loop that gives up at the iteration ceiling. *)
Definition guarded (step : prog unit) (count : Z) : prog unit :=
  (step ;;
   if inifinite_loop_max_iterations self <=? count + 1 then Throw stuck else Ret tt)%prog.

(** [Solver._cross_left_or_right]. *)
Definition _cross_left_or_right (fuel : nat) (edge_piece face_piece : option nat)
    (face_color : color) (move_1 move_2 : string) : prog unit :=
  (in_place <-
     and_then
       (e <- pos_of edge_piece ;; f <- pos_of face_piece ;;
        Ret (peqb e (mkPoint (px f) (py f) 1)))
       (a <- color_of edge_piece 2 ;; b <- front_color ;;
        Ret (color_eqb a b)) ;;
   if in_place : bool then Ret tt
   else
     e <- pos_of edge_piece ;;
     undo_move <-
       (if pz e =? 0 then
          names <- rot_from_face (mkPoint 0 (py e) (pz e)) ;;
          let '(cw, cc) := names in
          e <- pos_of edge_piece ;;
          if peqb e (padd LEFT UP) || peqb e (padd RIGHT DOWN)
          then (move cw ;; Ret (Some cc))
          else (move cc ;; Ret (Some cw))
        else
          e <- pos_of edge_piece ;;
          if pz e =? 1 then
            names <- rot_from_face (mkPoint (px e) (py e) 0) ;;
            let '(cw, cc) := names in
            move (cc ++ " " ++ cc)%string ;;
            e <- pos_of edge_piece ;;
            f <- pos_of face_piece ;;
            if negb (px e =? px f) then Ret (Some (cw ++ " " ++ cw)%string)
            else Ret None
          else Ret None) ;;
     e <- pos_of edge_piece ;;
     passert (pz e =? -1) ;;
     _ <- while_count fuel
            (e <- pos_of edge_piece ;; f <- pos_of face_piece ;;
             Ret (negb ((px e =? px f) && (py e =? py f))))
            (guarded (move "B")) 0 ;;
     match undo_move with
     | Some undo => if negb (String.eqb undo "") then move undo else Ret tt
     | None => Ret tt
     end ;;
     a <- color_of edge_piece 0 ;;
     if color_eqb a face_color then move move_1 else move move_2)%prog.

(** [Solver.cross]. *)
Definition cross (fuel : nat) : prog unit :=
  (fl_piece <- find [front_color; left_color] ;;
   fr_piece <- find [front_color; right_color] ;;
   fu_piece <- find [front_color; up_color] ;;
   fd_piece <- find [front_color; down_color] ;;
   c <- left_color ;;
   call "_cross_left_or_right"
     (_cross_left_or_right fuel fl_piece (left_piece self) c "L L" "E L Ei Li") ;;
   c <- right_color ;;
   call "_cross_left_or_right"
     (_cross_left_or_right fuel fr_piece (right_piece self) c "R R" "Ei R E Ri") ;;
   move "Z" ;;
   c <- left_color ;;
   call "_cross_left_or_right"
     (_cross_left_or_right fuel fd_piece (down_piece self) c "L L" "E L Ei Li") ;;
   c <- right_color ;;
   call "_cross_left_or_right"
     (_cross_left_or_right fuel fu_piece (up_piece self) c "R R" "Ei R E Ri") ;;
   move "Zi")%prog.

(** [Solver.place_frd_corner]. *)
Definition place_frd_corner (fuel : nat) (corner_piece right_piece down_piece : option nat)
    (front_color : color) : prog unit :=
  let not_at_back : prog bool :=
    (e <- pos_of corner_piece ;; Ret (negb (pz e =? -1)))%prog in
  (e <- pos_of corner_piece ;;
   (if pz e =? 1 then
      names <- rot_from_face (mkPoint 0 (py e) 0) ;;
      let '(cw, cc) := names in
      count <- while_count fuel not_at_back (fun _ => move cw) 0 ;;
      r <- (if 1 <? count then
              for_range (Z.to_nat count) (move cc) ;;
              count <- while_count fuel not_at_back (fun _ => move cc) 0 ;;
              Ret (count, cw)
            else Ret (count, cc)) ;;
      let '(count, undo_move) := r in
      move "B" ;;
      for_range (Z.to_nat count) (move undo_move)
    else Ret tt) ;;
   _ <- while_count fuel
          (e <- pos_of corner_piece ;;
           r <- pos_of right_piece ;;
           d <- pos_of down_piece ;;
           Ret (negb ((px e =? px r) && (py e =? py d))))
          (fun _ => move "B") 0 ;;
   a <- color_of corner_piece 0 ;;
   if color_eqb a front_color then move "B D Bi Di"
   else
     b <- color_of corner_piece 1 ;;
     if color_eqb b front_color then move "Bi Ri B R"
     else move "Ri B B R Bi Bi D Bi Di")%prog.

(** [Solver.cross_corners]. *)
Definition cross_corners (fuel : nat) : prog unit :=
  (fld_piece <- find [front_color; left_color; down_color] ;;
   flu_piece <- find [front_color; left_color; up_color] ;;
   frd_piece <- find [front_color; right_color; down_color] ;;
   fru_piece <- find [front_color; right_color; up_color] ;;
   c <- front_color ;;
   call "place_frd_corner"
     (place_frd_corner fuel frd_piece (right_piece self) (down_piece self) c) ;;
   move "Z" ;;
   c <- front_color ;;
   call "place_frd_corner"
     (place_frd_corner fuel fru_piece (up_piece self) (right_piece self) c) ;;
   move "Z" ;;
   c <- front_color ;;
   call "place_frd_corner"
     (place_frd_corner fuel flu_piece (left_piece self) (up_piece self) c) ;;
   move "Z" ;;
   c <- front_color ;;
   call "place_frd_corner"
     (place_frd_corner fuel fld_piece (down_piece self) (left_piece self) c) ;;
   move "Z")%prog.

(** [Solver.place_middle_layer_ld_edge]. *)
Definition place_middle_layer_ld_edge (fuel : nat) (ld_piece : option nat)
    (left_color down_color : color) : prog unit :=
  (e <- pos_of ld_piece ;;
   (if pz e =? 0 then
      count <- while_count fuel
                 (e <- pos_of ld_piece ;;
                  Ret (negb ((px e =? -1) && (py e =? -1))))
                 (fun _ => move "Z") 0 ;;
      move "B L Bi Li Bi Di B D" ;;
      for_range (Z.to_nat count) (move "Zi")
    else Ret tt) ;;
   e <- pos_of ld_piece ;;
   passert (pz e =? -1) ;;
   a <- color_of ld_piece 2 ;;
   if color_eqb a left_color then
     _ <- while_count fuel
            (e <- pos_of ld_piece ;; Ret (negb (py e =? -1)))
            (fun _ => move "B") 0 ;;
     move "B L Bi Li Bi Di B D"
   else
     a <- color_of ld_piece 2 ;;
     if color_eqb a down_color then
       _ <- while_count fuel
              (e <- pos_of ld_piece ;; Ret (negb (px e =? -1)))
              (fun _ => move "B") 0 ;;
       move "Bi Di B D B L Bi Li"
     else Throw (Exception "BUG!!"))%prog.

(** [Solver.second_layer]. *)
Definition second_layer (fuel : nat) : prog unit :=
  let place piece :=
    (l <- left_color ;;
     d <- down_color ;;
     call "place_middle_layer_ld_edge" (place_middle_layer_ld_edge fuel piece l d))%prog in
  (rd_piece <- find [right_color; down_color] ;;
   ru_piece <- find [right_color; up_color] ;;
   ld_piece <- find [left_color; down_color] ;;
   lu_piece <- find [left_color; up_color] ;;
   place ld_piece ;;
   move "Z" ;;
   place rd_piece ;;
   move "Z" ;;
   place ru_piece ;;
   move "Z" ;;
   place lu_piece ;;
   move "Z")%prog.

(** [Solver.back_face_edges]. *)
Definition back_face_edges (fuel : nat) : prog unit :=
  let front p := sticker_is p 2 front_color in
  let state1 :=
    and_then (front (mkPoint 0 1 1))
      (and_then (front (mkPoint (-1) 0 1))
         (and_then (front (mkPoint 0 (-1) 1)) (front (mkPoint 1 0 1)))) in
  let state2 := and_then (front (mkPoint 0 1 1)) (front (mkPoint (-1) 0 1)) in
  let state3 := and_then (front (mkPoint (-1) 0 1)) (front (mkPoint 1 0 1)) in
  let state4 :=
    and_then (not_ (front (mkPoint 0 1 1)))
      (and_then (not_ (front (mkPoint (-1) 0 1)))
         (and_then (not_ (front (mkPoint 0 (-1) 1)))
            (not_ (front (mkPoint 1 0 1))))) in
  (move "X X" ;;
   _ <- while_count fuel (not_ state1)
          (guarded
             (b <- or_else state4 state2 ;;
              if b : bool then move "D F R Fi Ri Di"
              else
                b <- state3 ;;
                if b : bool then move "D R F Ri Fi Di" else move "F")) 0 ;;
   move "Xi Xi")%prog.

(** [assert piece.pos == point]. *)
Definition assert_at (piece : option nat) (point : Point) : prog unit :=
  (e <- pos_of piece ;; passert (peqb e point))%prog.

(** [Solver.last_layer_corners_position]. *)
Definition last_layer_corners_position : prog unit :=
  let move_1 := "Li Fi L D F Di Li F L F F "%string in
  let move_2 := "F Li Fi L D F Di Li F L F "%string in
  (move "X X" ;;
   c1 <- find [front_color; right_color; down_color] ;;
   c2 <- find [front_color; left_color; down_color] ;;
   c3 <- find [front_color; right_color; up_color] ;;
   c4 <- find [front_color; left_color; up_color] ;;
   e <- pos_of c4 ;;
   (if peqb e (mkPoint 1 (-1) 1) then move (move_1 ++ "Zi " ++ move_1 ++ " Z")%string
    else if peqb e (mkPoint 1 1 1) then move ("Z " ++ move_2 ++ " Zi")%string
    else if peqb e (mkPoint (-1) (-1) 1) then move ("Zi " ++ move_1 ++ " Z")%string
    else Ret tt) ;;
   assert_at c4 (mkPoint (-1) 1 1) ;;
   e <- pos_of c2 ;;
   (if peqb e (mkPoint 1 1 1) then move (move_2 ++ move_1)%string
    else if peqb e (mkPoint 1 (-1) 1) then move move_1
    else Ret tt) ;;
   assert_at c2 (mkPoint (-1) (-1) 1) ;;
   e <- pos_of c3 ;;
   (if peqb e (mkPoint 1 (-1) 1) then move move_2 else Ret tt) ;;
   assert_at c3 (mkPoint 1 1 1) ;;
   assert_at c1 (mkPoint 1 (-1) 1) ;;
   move "Xi Xi")%prog.

(** [Solver.last_layer_corners_orientation]. *)
Definition last_layer_corners_orientation (fuel : nat) : prog unit :=
  let at_ x y i := sticker_is (mkPoint x y 1) i front_color in
  let all4 a b c d := and_then a (and_then b (and_then c d)) in
  let state1 := and_then (at_ 1 1 1%nat) (and_then (at_ (-1) (-1) 1%nat) (at_ 1 (-1) 0%nat)) in
  let state2 := and_then (at_ (-1) 1 1%nat) (and_then (at_ 1 1 0%nat) (at_ 1 (-1) 1%nat)) in
  let state3 := all4 (at_ (-1) (-1) 1%nat) (at_ 1 (-1) 1%nat) (at_ (-1) 1 2%nat) (at_ 1 1 2%nat) in
  let state4 := all4 (at_ (-1) 1 1%nat) (at_ (-1) (-1) 1%nat) (at_ 1 1 2%nat) (at_ 1 (-1) 2%nat) in
  let state5 := and_then (at_ (-1) 1 1%nat) (at_ 1 (-1) 0%nat) in
  let state6 := all4 (at_ 1 1 1%nat) (at_ 1 (-1) 1%nat) (at_ (-1) (-1) 0%nat) (at_ (-1) 1 0%nat) in
  let state7 := all4 (at_ 1 1 0%nat) (at_ 1 (-1) 0%nat) (at_ (-1) (-1) 0%nat) (at_ (-1) 1 0%nat) in
  let state8 := all4 (at_ 1 1 2%nat) (at_ 1 (-1) 2%nat) (at_ (-1) (-1) 2%nat) (at_ (-1) 1 2%nat) in
  let move_1 := "Ri Fi R Fi Ri F F R F F "%string in
  let move_2 := "R F Ri F R F F Ri F F "%string in
  let first_of (cases : list (prog bool * string)) (otherwise : string) :=
    (fix go (l : list (prog bool * string)) : prog unit :=
       match l with
       | [] => move otherwise
       | (test, names) :: l' => (b <- test ;; if b : bool then move names else go l')%prog
       end) cases in
  (move "X X" ;;
   _ <- while_count fuel (not_ state8)
          (guarded
             (first_of
                [ (state1, move_1);
                  (state2, move_2);
                  (state3, move_2 ++ "F F " ++ move_1);
                  (state4, move_2 ++ move_1);
                  (state5, move_1 ++ "F " ++ move_2);
                  (state6, move_1 ++ "Fi " ++ move_1);
                  (state7, move_1 ++ "F F " ++ move_1) ]%string
                "F")) 0 ;;
   bru_corner <- find [front_color; right_color; up_color] ;;
   _ <- while_count fuel
          (e <- pos_of bru_corner ;; Ret (negb (peqb e (mkPoint 1 1 1))))
          (fun _ => move "F") 0 ;;
   move "Xi Xi")%prog.

(** [Solver._handle_last_layer_state1]. *)
Definition _handle_last_layer_state1 (fuel : nat) (h_move : string) : prog unit :=
  (count <- while_count fuel
              (not_ (sticker_is (padd LEFT FRONT) 2 left_color))
              (fun count =>
                 move "F" ;;
                 if count + 1 =? 4
                 then Throw (Exception "Bug: Failed to handle last layer state1")
                 else Ret tt) 0 ;;
   move h_move ;;
   for_range (Z.to_nat count) (move "Fi"))%prog.

(** The local function [correct_edge] of [_handle_last_layer_state2]. *)
Definition correct_edge : prog (option nat) :=
  let candidate point i face (otherwise : prog (option nat)) :=
    (b <- and_then (sticker_is point 2 front_color) (sticker_is point i face) ;;
     if b : bool then trigger (Get_piece point) else otherwise)%prog in
  candidate (padd LEFT FRONT) 0%nat left_color
    (candidate (padd RIGHT FRONT) 0%nat right_color
       (candidate (padd UP FRONT) 1%nat up_color
          (candidate (padd DOWN FRONT) 1%nat down_color (Ret None)))).

(** The [while True] loop of [_handle_last_layer_state2]; it returns the
    edge found. *)
Fixpoint find_correct_edge (fuel : nat) (cycle_move : string) (count : Z)
    : prog (option nat) :=
  match fuel with
  | O => Throw OutOfFuel
  | S fuel =>
      (edge <- correct_edge ;;
       match edge with
       | Some _ => Ret edge
       | None =>
           move cycle_move ;;
           let count := count + 1 in
           (if count mod 3 =? 0 then move "Z" else Ret tt) ;;
           if inifinite_loop_max_iterations self <=? count then Throw stuck
           else find_correct_edge fuel cycle_move count
       end)%prog
  end.

(** [Solver._handle_last_layer_state2]. *)
Definition _handle_last_layer_state2 (fuel : nat) (cycle_move : string) : prog unit :=
  (edge <- find_correct_edge fuel cycle_move 0 ;;
   _ <- while_count fuel
          (e <- pos_of edge ;; Ret (negb (peqb e (mkPoint (-1) 0 1))))
          (fun _ => move "Z") 0 ;;
   b <- and_then (sticker_is (padd LEFT FRONT) 2 front_color)
                 (sticker_is (padd LEFT FRONT) 0 left_color) ;;
   passert b)%prog.

Definition solved : prog bool := trigger Is_solved.

(** The [for _ in range(4)] loop of [last_layer_edges]; [true] when it
    left the method through [return]. *)
Fixpoint fish_rounds (n : nat) (fish_pattern : prog bool) (fish_move : string)
    : prog bool :=
  match n with
  | O => Ret false
  | S n =>
      (b <- fish_pattern ;;
       if b : bool then
         move fish_move ;;
         done <- solved ;;
         if done : bool then Ret true else fish_rounds n fish_pattern fish_move
       else
         move "Z" ;;
         fish_rounds n fish_pattern fish_move)%prog
  end.

(** The [while not self.cube.is_solved()] loop of [last_layer_edges];
    [true] when the method was left through [return]. *)
Fixpoint finish_edges (fuel : nat) (fish_pattern h_pattern1 h_pattern2 : prog bool)
    (fish_move h_pattern_move cycle_move : string) (count : Z) : prog bool :=
  match fuel with
  | O => Throw OutOfFuel
  | S fuel =>
      (done <- solved ;;
       if done : bool then Ret false
       else
         returned <- fish_rounds 4 fish_pattern fish_move ;;
         if returned : bool then Ret true
         else
           b <- h_pattern1 ;;
           (if b : bool then move h_pattern_move
            else
              b <- h_pattern2 ;;
              if b : bool then move ("Z " ++ h_pattern_move ++ "Zi")%string
              else move cycle_move) ;;
           let count := count + 1 in
           if inifinite_loop_max_iterations self <=? count then Throw stuck
           else finish_edges fuel fish_pattern h_pattern1 h_pattern2
                  fish_move h_pattern_move cycle_move count)%prog
  end.

(** [Solver.last_layer_edges]. *)
Definition last_layer_edges (fuel : nat) : prog unit :=
  let cycle_move := "R R F D Ui R R Di U F R R"%string in
  let h_pattern_move := "Ri S Ri Ri S S Ri Fi Fi R Si Si Ri Ri Si R Fi Fi "%string in
  let fish_move := ("Di Li " ++ h_pattern_move ++ " L D")%string in
  (move "X X" ;;
   br_edge <- find [front_color; right_color] ;;
   bl_edge <- find [front_color; left_color] ;;
   bu_edge <- find [front_color; up_color] ;;
   bd_edge <- find [front_color; down_color] ;;
   let faces_front piece :=
     (a <- color_of piece 2 ;; b <- front_color ;; Ret (color_eqb a b))%prog in
   let state1 :=
     and_then (not_ (faces_front bu_edge))
       (and_then (not_ (faces_front bd_edge))
          (and_then (not_ (faces_front bl_edge)) (not_ (faces_front br_edge)))) in
   let state2 :=
     or_else (faces_front bu_edge)
       (or_else (faces_front bd_edge)
          (or_else (faces_front bl_edge) (faces_front br_edge))) in
   b <- state1 ;;
   (if b : bool
    then call "_handle_last_layer_state1" (_handle_last_layer_state1 fuel h_pattern_move)
    else Ret tt) ;;
   b <- state2 ;;
   (if b : bool
    then call "_handle_last_layer_state2" (_handle_last_layer_state2 fuel cycle_move)
    else Ret tt) ;;
   let h_pattern1 :=
     and_then (not_ (sticker_is (mkPoint (-1) 0 1) 0 left_color))
       (and_then (not_ (sticker_is (mkPoint 1 0 1) 0 right_color))
          (and_then (sticker_is (mkPoint 0 (-1) 1) 1 down_color)
             (sticker_is (mkPoint 0 1 1) 1 up_color))) in
   let h_pattern2 :=
     and_then (sticker_is (mkPoint (-1) 0 1) 0 left_color)
       (and_then (sticker_is (mkPoint 1 0 1) 0 right_color)
          (and_then (sticker_is (mkPoint 0 (-1) 1) 1 front_color)
             (sticker_is (mkPoint 0 1 1) 1 front_color))) in
   let fish_pattern :=
     and_then (sticker_is (padd FRONT DOWN) 2 down_color)
       (and_then (sticker_is (padd FRONT RIGHT) 2 right_color)
          (and_then (sticker_is (padd FRONT DOWN) 1 front_color)
             (sticker_is (padd FRONT RIGHT) 0 front_color))) in
   returned <- finish_edges fuel fish_pattern h_pattern1 h_pattern2
                 fish_move h_pattern_move cycle_move 0 ;;
   if returned : bool then Ret tt else move "Xi Xi")%prog.

(** [Solver.solve]. *)
Definition solve (fuel : nat) : prog unit :=
  (call "cross" (cross fuel) ;;
   call "cross_corners" (cross_corners fuel) ;;
   call "second_layer" (second_layer fuel) ;;
   call "back_face_edges" (back_face_edges fuel) ;;
   call "last_layer_corners_position" last_layer_corners_position ;;
   call "last_layer_corners_orientation" (last_layer_corners_orientation fuel) ;;
   call "last_layer_edges" (last_layer_edges fuel))%prog.
End Methods.

(** [Solver(c).solve()]. *)
Definition run (fuel : nat) : prog unit :=
  (self <- init ;; solve self fuel)%prog.

Section Semantics.
Variable other_attribute : string -> option (proc Cube unit).

(** What the events do to the objects. *)
Definition handle {X} (e : event X) : proc objects X :=
  match e with
  | Get_pos piece => fun s =>
      (match piece with
       | Some r => (p <- deref (cube s) r ;; Ok (pos p))%result
       | None => Raise AttributeError
       end, s)
  | Get_color piece i => fun s =>
      (match piece with
       | Some r => (p <- deref (cube s) r ;; color_slot p i)%result
       | None => Raise AttributeError
       end, s)
  | Get_piece point => fun s => (Ok (get_piece point (cube s)), s)
  | Find_piece cs => fun s => (Ok (find_piece cs (cube s)), s)
  | Is_solved => fun s => (is_solved (cube s), s)
  | Do_move move_str => fun s =>
      let moves := (moves s ++ split move_str)%list in
      let '(r, c) := sequence other_attribute move_str (cube s) in
      (r, mk_objects c moves)
  end.

Fixpoint interp {A : Type} (p : prog A) : proc objects A :=
  match p with
  | Ret a => ret a
  | Throw e => raise e
  | Vis e k => bind (handle e) (fun x => interp (k x))
  | Call _ body k => bind (interp body) (fun _ => interp k)
  end.
End Semantics.

End Tree.

(** The solver object made of the attributes bound by [__init__] and the
    objects it works on. *)
Definition pack (self : Tree.t) (o : Tree.objects) : Solver.t :=
  Solver.mk (Tree.cube o) (Tree.moves o)
    (Tree.left_piece self) (Tree.right_piece self)
    (Tree.up_piece self) (Tree.down_piece self)
    (Tree.inifinite_loop_max_iterations self).

(** ** The trees of events and the methods of Solver *)

(** A method of [Solver] does what its tree of events does. *)
Definition sim (other_attribute : string -> option (proc Cube unit)) (self : Tree.t)
    {A : Type} (p : prog A) (m : proc Solver.t A) : Prop :=
  forall o, m (pack self o)
            = (fst (Tree.interp other_attribute p o),
               pack self (snd (Tree.interp other_attribute p o))).

(** * What is known of a cube *)

(** There are more than 4 * 10^19 scrambled cubes, too many to run the
    solver on each.  The methods are run instead on what is known of
    the cube: for each piece of the store, the states it may be in.  At
    the start only the centres are known.  An event that reads the cube
    splits what is known into one case for each value it may return (and
    what is known grows by that value); a move turns all states.  The
    laws that every scrambled cube obeys discard the cases that describe
    no cube. *)

(** The 24 whole-cube rotations, as lists of move names. *)
Definition rotations24 : list (list string) :=
  flat_map (fun a => map (fun b => a ++ b)%list [[]; ["X"]; ["X"; "X"]; ["Xi"]])
    [[]; ["Y"]; ["Y"; "Y"]; ["Yi"]; ["Z"]; ["Zi"]]%string.

(** Equality of pieces, by comparison. *)
Definition slot_eqb (a b : color) : bool :=
  match a, b with
  | None, None => true
  | Some x, Some y => Ascii.eqb x y
  | _, _ => false
  end.

Fixpoint slots_eqb (l l' : list color) : bool :=
  match l, l' with
  | [], [] => true
  | a :: l, b :: l' => if slot_eqb a b then slots_eqb l l' else false
  | _, _ => false
  end.

Definition type_eqb (a b : PieceType) : bool :=
  match a, b with
  | FACE, FACE | EDGE, EDGE | CORNER, CORNER => true
  | _, _ => false
  end.

Definition piece_eqb (p q : Piece) : bool :=
  if peqb (pos p) (pos q)
  then if slots_eqb (colors p) (colors q) then type_eqb (type p) (type q) else false
  else false.

Fixpoint pieces_eqb (l l' : list Piece) : bool :=
  match l, l' with
  | [], [] => true
  | a :: l, b :: l' => if piece_eqb a b then pieces_eqb l l' else false
  | _, _ => false
  end.

(** What a move does to one piece, written out: the layer it turns and
    the quarter turn it makes. *)
Definition quarter (f : Z -> Z -> Z -> Point) (g : color -> color -> color -> list color)
    (p : Piece) : Piece :=
  match p with
  | mkPiece (mkPoint x y z) [a; b; c] t => mkPiece (f x y z) (g a b c) t
  | _ => p
  end.

Definition yz_cw := quarter (fun x y z => mkPoint x z (- y)) (fun a b c => [a; c; b]).
Definition yz_cc := quarter (fun x y z => mkPoint x (- z) y) (fun a b c => [a; c; b]).
Definition xz_cw := quarter (fun x y z => mkPoint (- z) y x) (fun a b c => [c; b; a]).
Definition xz_cc := quarter (fun x y z => mkPoint z y (- x)) (fun a b c => [c; b; a]).
Definition xy_cw := quarter (fun x y z => mkPoint y (- x) z) (fun a b c => [b; a; c]).
Definition xy_cc := quarter (fun x y z => mkPoint (- y) x z) (fun a b c => [b; a; c]).

Definition turn (m : Move.t) (p : Piece) : Piece :=
  match m with
  | Move.L => if px (pos p) =? -1 then yz_cc p else p
  | Move.Li => if px (pos p) =? -1 then yz_cw p else p
  | Move.R => if px (pos p) =? 1 then yz_cw p else p
  | Move.Ri => if px (pos p) =? 1 then yz_cc p else p
  | Move.U => if py (pos p) =? 1 then xz_cw p else p
  | Move.Ui => if py (pos p) =? 1 then xz_cc p else p
  | Move.D => if py (pos p) =? -1 then xz_cc p else p
  | Move.Di => if py (pos p) =? -1 then xz_cw p else p
  | Move.F => if pz (pos p) =? 1 then xy_cw p else p
  | Move.Fi => if pz (pos p) =? 1 then xy_cc p else p
  | Move.B => if pz (pos p) =? -1 then xy_cc p else p
  | Move.Bi => if pz (pos p) =? -1 then xy_cw p else p
  | Move.M => if px (pos p) =? 0 then yz_cc p else p
  | Move.Mi => if px (pos p) =? 0 then yz_cw p else p
  | Move.E => if py (pos p) =? 0 then xz_cc p else p
  | Move.Ei => if py (pos p) =? 0 then xz_cw p else p
  | Move.S => if pz (pos p) =? 0 then xy_cw p else p
  | Move.Si => if pz (pos p) =? 0 then xy_cc p else p
  | Move.X => yz_cw p
  | Move.Xi => yz_cc p
  | Move.Y => xz_cw p
  | Move.Yi => xz_cc p
  | Move.Z => xy_cw p
  | Move.Zi => xy_cc p
  end.

Definition turns (ms : list Move.t) (p : Piece) : Piece :=
  fold_left (fun q m => turn m q) ms p.

(** The moves that a list of names stands for, when each names a move. *)
Fixpoint moves_of (names : list string) : option (list Move.t) :=
  match names with
  | [] => Some []
  | n :: names' =>
      match Move.of_name n, moves_of names' with
      | Some m, Some ms => Some (m :: ms)
      | _, _ => None
      end
  end.

(** A list without the elements that occur again further on. *)
Fixpoint dedupe {A} (eqb : A -> A -> bool) (l : list A) : list A :=
  match l with
  | [] => []
  | a :: l' => if existsb (eqb a) l' then dedupe eqb l' else a :: dedupe eqb l'
  end.

(** The states a piece of the solved cube can be brought into, and these
    for each piece of the store. *)
Definition orbit (p : Piece) : list Piece :=
  dedupe piece_eqb (map (fun g => act g p) rotations24).

Definition orbits : list (list Piece) :=
  Eval vm_compute in map orbit solved_cube.

(** The six centres as the 24 rotations of the solved cube leave them. *)
Definition centre_configs : list (list Piece) :=
  Eval vm_compute in map (fun g => map (act g) (faces solved_cube)) rotations24.

(** For each piece of the store, the states it may be in; [None] when
    nothing is known of it, that is, any state of its orbit. *)
Definition knowledge := list (option (list Piece)).

(** A cube is one of those that the knowledge describes. *)
Definition fits (c : Cube) (s : knowledge) : Prop :=
  Forall2 (fun p k => match k with
                      | Some K => In p K
                      | None => True
                      end) c s.

(** Where a piece is, when all its states are at one position. *)
Definition located (k : option (list Piece)) : option Point :=
  match k with
  | Some (p :: K) =>
      if forallb (fun q => peqb (pos q) (pos p)) K then Some (pos p) else None
  | _ => None
  end.

Definition occupied (s : knowledge) : list Point := omap located s.

Definition free (taken : list Point) (p : Piece) : bool :=
  negb (existsb (peqb (pos p)) taken).

(** The states piece [r] may be in: those known, or its orbit; without the
    positions where other pieces are known to be. *)
Definition states (s : knowledge) (r : nat) : option (list Piece) :=
  match s !! r with
  | None => None
  | Some None => Some (List.filter (free (occupied s)) (nth r orbits []))
  | Some (Some K) =>
      match located (Some K) with
      | Some _ => Some K
      | None => Some (List.filter (free (occupied s)) K)
      end
  end.

(** ** The laws of the cube *)

(** The colours of the up and down centres of the solved cube, and those
    of its front and back centres. *)
Definition UD (v : color) : bool := slot_eqb v (Some "O"%char) || slot_eqb v (Some "R"%char).
Definition FB (v : color) : bool := slot_eqb v (Some "W"%char) || slot_eqb v (Some "B"%char).

Definition slot_where (f : color -> bool) (p : Piece) : option nat :=
  match colors p with
  | [a; b; c] =>
      if f a then Some 0%nat else if f b then Some 1%nat
      else if f c then Some 2%nat else None
  | _ => None
  end.

(** The twist of a corner: 0 when its up or down sticker is on the y
    axis, else 1 or 2 by the sense in which it is turned away. *)
Definition corner_twist (p : Piece) : Z :=
  match type p with
  | CORNER =>
      match slot_where UD p with
      | Some 1%nat => 0
      | Some 0%nat => if 0 <? px (pos p) * py (pos p) * pz (pos p) then 1 else 2
      | _ => if 0 <? px (pos p) * py (pos p) * pz (pos p) then 2 else 1
      end
  | _ => 0
  end.

(** The flip of an edge: 0 when its leading sticker (up or down if it has
    one, else front or back) is on its leading axis (y, else z). *)
Definition edge_flip (p : Piece) : Z :=
  match type p with
  | EDGE =>
      let ref := match slot_where UD p with
                 | Some i => Some i
                 | None => slot_where FB p
                 end in
      let slot := if py (pos p) =? 0 then 2%nat else 1%nat in
      match ref with
      | Some i => if (i =? slot)%nat then 0 else 1
      | None => 0
      end
  | _ => 0
  end.

Definition total (f : Piece -> Z) (l : list Piece) : Z :=
  fold_right (fun p acc => f p + acc) 0 l.

(** The parity of the number of inversions of a list of positions. *)
Definition code (pt : Point) : Z := 9 * px pt + 3 * py pt + pz pt.

Definition precedes (a b : Point) : bool := code a <? code b.

Fixpoint odd_inversions (l : list Point) : bool :=
  match l with
  | [] => false
  | a :: l' => xorb (fold_right (fun b acc => xorb (precedes b a) acc) false l')
                    (odd_inversions l')
  end.

Definition solved_parity : bool :=
  Eval vm_compute in odd_inversions (map pos solved_cube).

(** The laws that every cube turned from the solved one obeys: each piece
    is in its orbit, no two at one position, the flips of the edges add
    up to an even number, the twists of the corners to a multiple of 3,
    and the positions have as many inversions, up to parity, as in the
    solved cube. *)
Record lawful (c : Cube) : Prop := {
  law_orbits : Forall2 (fun p orb => In p orb) c orbits;
  law_distinct : NoDup (map pos c);
  law_flips : total edge_flip (edges c) mod 2 = 0;
  law_twists : total corner_twist (corners c) mod 3 = 0;
  law_parity : odd_inversions (map pos c) = solved_parity }.

(** The pieces, when each is known exactly. *)
Fixpoint exactly (s : knowledge) : option (list Piece) :=
  match s with
  | [] => Some []
  | Some [p] :: s' =>
      match exactly s' with
      | Some l => Some (p :: l)
      | None => None
      end
  | _ => None
  end.

Fixpoint positions (s : knowledge) : option (list Point) :=
  match s with
  | [] => Some []
  | k :: s' =>
      match located k with
      | Some pt =>
          match positions s' with
          | Some l => Some (pt :: l)
          | None => None
          end
      | None => None
      end
  end.

(** What is known does not contradict the laws. *)
Definition consistent (s : knowledge) : bool :=
  match exactly (take 12 (drop 6 s)) with
  | Some l => total edge_flip l mod 2 =? 0
  | None => true
  end
  && match exactly (drop 18 s) with
     | Some l => total corner_twist l mod 3 =? 0
     | None => true
     end
  && match positions s with
     | Some l => Bool.eqb (odd_inversions l) solved_parity
     | None => true
     end.

(** ** The events on what is known *)

(** The elements of [l] by the value of [f]. *)
Definition group {V} (eqb : V -> V -> bool) (f : Piece -> V) (l : list Piece)
    : list (V * list Piece) :=
  map (fun v => (v, List.filter (fun q => eqb (f q) v) l)) (dedupe eqb (map f l)).

(** The marker of an outcome that the knowledge does not determine. *)
Definition unknown : exn := Exception "not known".

(** Reading [f] off piece [r]: one outcome for each value that [f] takes
    on the states the piece may be in. *)
Definition split_by {V} (eqb : V -> V -> bool) (f : Piece -> V) (s : knowledge) (r : nat)
    : list (result V * knowledge) :=
  match states s r with
  | None => [(Raise IndexError, s)]
  | Some [p] => [(Ok (f p), s)]
  | Some E =>
      flat_map (fun vK =>
                  let s' := <[r := Some (snd vK)]> s in
                  if consistent s' then [(Ok (fst vK), s')] else [])
               (group eqb f E)
  end.

Definition raw (s : knowledge) (r : nat) : list Piece :=
  match s !! r with
  | Some (Some K) => K
  | _ => nth r orbits []
  end.

Fixpoint index_where {A} (f : A -> bool) (n : nat) (l : list A) : option nat :=
  match l with
  | [] => None
  | a :: l' => if f a then Some n else index_where f (S n) l'
  end.

Definition at_point (pt : Point) (k : option (list Piece)) : bool :=
  match located k with
  | Some q => peqb q pt
  | None => false
  end.

(** All ways to make piece [r] exact. *)
Definition pin (s : knowledge) (r : nat) : list knowledge :=
  match states s r with
  | None => []
  | Some E =>
      flat_map (fun p => let s' := <[r := Some [p]]> s in
                         if consistent s' then [s'] else []) E
  end.

Definition inexact (k : option (list Piece)) : bool :=
  match k with
  | Some [_] => false
  | _ => true
  end.

(** All ways to make every piece exact. *)
Fixpoint complete (fuel : nat) (s : knowledge) : list knowledge :=
  match index_where inexact 0 s with
  | None => [s]
  | Some r =>
      match fuel with
      | O => []
      | S fuel => flat_map (complete fuel) (pin s r)
      end
  end.

Definition known_event {X} (e : event X) (s : knowledge) : list (result X * knowledge) :=
  match e with
  | Get_pos piece =>
      match piece with
      | Some r => split_by peqb pos s r
      | None => [(Raise AttributeError, s)]
      end
  | Get_color piece i =>
      match piece with
      | Some r =>
          if (i <? 3)%nat
          then split_by slot_eqb (fun p => nth i (colors p) None) s r
          else [(Raise unknown, s)]
      | None => [(Raise AttributeError, s)]
      end
  | Get_piece pt =>
      if negb (existsb (peqb pt) cubie_positions) then [(Raise unknown, s)]
      else
        match index_where (at_point pt) 0 s with
        | Some r => [(Ok (Some r), s)]
        | None =>
            flat_map (fun r =>
                        match List.filter (fun p => peqb (pos p) pt) (raw s r) with
                        | [] => []
                        | K =>
                            let s' := <[r := Some K]> s in
                            if consistent s' then [(Ok (Some r), s')] else []
                        end)
                     (seq 0 (length s))
        end
  | Find_piece cs => [(Ok (find_piece cs solved_cube), s)]
  | Is_solved =>
      map (fun s' =>
             match exactly s' with
             | Some c => (is_solved c, s')
             | None => (Raise unknown, s')
             end)
          (complete 26 s)
  | Do_move move_str =>
      match moves_of (split move_str) with
      | Some ms => [(Ok tt, map (option_map (map (turns ms))) s)]
      | None => [(Raise unknown, s)]
      end
  end.

(** ** Running a method on what is known *)

Definition key_eqb (a b : option (list Piece)) : bool :=
  match a, b with
  | None, None => true
  | Some K, Some K' => pieces_eqb K K'
  | _, _ => false
  end.

Fixpoint knowledge_eqb (a b : knowledge) : bool :=
  match a, b with
  | [], [] => true
  | x :: a', y :: b' => if key_eqb x y then knowledge_eqb a' b' else false
  | _, _ => false
  end.

Definition either (a b : option (list Piece)) : option (list Piece) :=
  match a, b with
  | Some K, Some K' =>
      Some (K ++ List.filter (fun p => negb (existsb (piece_eqb p) K)) K')
  | _, _ => None
  end.

(** What is known in both cases, piece by piece. *)
Fixpoint join2 (a b : knowledge) : knowledge :=
  match a, b with
  | x :: a', y :: b' => either x y :: join2 a' b'
  | _, _ => []
  end.

Definition join_all (l : list knowledge) : list knowledge :=
  match l with
  | [] => []
  | a :: l' =>
      if forallb (fun b => (length b =? length a)%nat) l'
      then [fold_left join2 l' a]
      else l
  end.

Definition is_ok {A} (r : result A) : bool :=
  match r with
  | Ok _ => true
  | Raise _ => false
  end.

(** The methods after which the cases are joined into one; after the
    others, equal cases are merged. *)
Definition joined (name : string) : bool :=
  existsb (String.eqb name)
    ["back_face_edges"; "last_layer_corners_position";
     "last_layer_corners_orientation"]%string.

Definition merge (name : string) (l : list knowledge) : list knowledge :=
  if joined name then join_all l else dedupe knowledge_eqb l.

(** All outcomes of a program on the cubes that some element of [l]
    describes. *)
Fixpoint known_run {A : Type} (p : prog A) (l : list knowledge) : list (result A * knowledge) :=
  match p with
  | Ret a => map (fun s => (Ok a, s)) l
  | Throw e => map (fun s => (Raise e, s)) l
  | Vis e k =>
      flat_map (fun s =>
        flat_map (fun o =>
                    match fst o with
                    | Ok x => known_run (k x) [snd o]
                    | Raise ex => [(Raise ex, snd o)]
                    end)
                 (known_event e s)) l
  | Call name body k =>
      let outs := known_run body l in
      if forallb (fun o => is_ok (fst o)) outs
      then known_run k (merge name (map snd outs))
      else [(Raise unknown, [])]
  end.

(** What is known of a scrambled cube at the start: its centres. *)
Definition initial (centres : list Piece) : knowledge :=
  map (fun p => Some [p]) centres ++ repeat None 20.

(** The outcome is a solved cube. *)
Definition solved_outcome (o : result unit * knowledge) : bool :=
  match fst o, exactly (snd o) with
  | Ok _, Some c =>
      match is_solved c with
      | Ok true => true
      | _ => false
      end
  | _, _ => false
  end.

(** ** What the proofs check by computation *)

(** The orbits of the edges and of the corners of the store. *)
Definition edge_orbits : list (list Piece) := take 12 (drop 6 orbits).
Definition corner_orbits : list (list Piece) := drop 18 orbits.

(** By how much a move changes [f] at a position: read off the first state
    there among the given orbits. *)
Definition shift (f : Piece -> Z) (orbs : list (list Piece)) (m : Move.t) (pt : Point) : Z :=
  match List.find (fun p => peqb (pos p) pt) (concat orbs) with
  | Some p => f (turn m p) - f p
  | None => 0
  end.

(** The sum of a list of integers. *)
Definition sum_of (l : list Z) : Z := fold_right Z.add 0 l.

(** Where a move takes a position, and whether it changes the order of two
    positions. *)
Definition carried (m : Move.t) (pt : Point) : Point :=
  pos (turn m (mkPiece pt [None; None; None] FACE)).

Definition swapped (m : Move.t) (a b : Point) : bool :=
  xorb (precedes (carried m b) (carried m a)) (precedes b a).

(** The exclusive or of [q] over the pairs of a list, each element with
    those behind it. *)
Fixpoint over_pairs (q : Point -> Point -> bool) (l : list Point) : bool :=
  match l with
  | [] => false
  | a :: l' => xorb (fold_right (fun b acc => xorb (q a b) acc) false l')
                    (over_pairs q l')
  end.

(** What is checked of each state of an orbit: it is a well-formed piece
    away from the centre, [turn] does to it what the move method does,
    and every move leaves it in the orbit. *)
Definition piece_check (orb : list Piece) (p : Piece) : bool :=
  on_lattice (pos p)
  && negb (peqb (pos p) origin)
  && bool_decide (map has_sticker (colors p) = map (fun v => negb (v =? 0)) (piter (pos p)))
  && forallb (fun m => piece_eqb (turned m p) (turn m p)
                       && existsb (piece_eqb (turn m p)) orb) Move.all.

(** What is checked of [f] over the orbits at the positions [pts]: modulo
    [n], a move changes [f] on a state by the shift at its position, and
    the shifts of a move over all positions add up to 0. *)
Definition shift_check (f : Piece -> Z) (n : Z) (orbs : list (list Piece))
    (pts : list Point) : bool :=
  (length pts =? length orbs)%nat
  && forallb (fun orb => forallb (fun p =>
       existsb (peqb (pos p)) pts
       && forallb (fun m => f (turn m p) mod n =? (f p + shift f orbs m (pos p)) mod n)
            Move.all) orb) orbs
  && forallb (fun m => sum_of (map (shift f orbs m) pts) mod n =? 0) Move.all.

(** The exclusive or of [f] over a list. *)
Definition xor_all (f : Point -> bool) (l : list Point) : bool :=
  fold_right (fun b acc => xorb (f b) acc) false l.

(** What is checked of each move on the 26 positions: it changes the order
    of an even number of pairs, [carried] is where it takes a position,
    and a pair changes order whichever of the two comes first. *)
Definition parity_check : bool :=
  forallb (fun m =>
    negb (over_pairs (swapped m) cubie_positions)
    && forallb (fun a => peqb (moved m a) (carried m a)) cubie_positions
    && forallb (fun a => forallb (fun b =>
         Bool.eqb (swapped m a b) (swapped m b a)) cubie_positions) cubie_positions)
    Move.all.

(** What is checked of the solved cube: each piece is in its orbit, no two
    at one position, and the flips and twists add up as the laws say. *)
Definition store_check : bool :=
  (length solved_cube =? length orbits)%nat
  && forallb (fun po => existsb (piece_eqb (fst po)) (snd po)) (combine solved_cube orbits)
  && bool_decide (NoDup (map pos solved_cube))
  && (total edge_flip (edges solved_cube) mod 2 =? 0)
  && (total corner_twist (corners solved_cube) mod 3 =? 0).

(** The centres are as one of the 24 rotations leaves them. *)
Definition centred (c : Cube) : Prop := In (faces c) centre_configs.

(** What is checked of the centres: every move takes one of the 24
    configurations to one of them, and the solved cube has one. *)
Definition centres_check : bool :=
  forallb (fun cfg => forallb (fun m =>
    existsb (pieces_eqb (map (turn m) cfg)) centre_configs) Move.all) centre_configs
  && existsb (pieces_eqb (faces solved_cube)) centre_configs.

(** What is checked of the colours: every state of an orbit has as many
    empty slots, and shows the same colours, as the piece of the solved
    cube. *)
Definition colors_check : bool :=
  (length solved_cube =? length orbits)%nat
  && forallb (fun po =>
       forallb (fun q =>
         (count_None (colors q) =? count_None (colors (fst po)))%nat
         && forallb (fun v => existsb (color_eqb v) (colors (fst po))) (colors q)
         && forallb (fun v => existsb (color_eqb v) (colors q)) (colors (fst po)))
       (snd po)) (combine solved_cube orbits).

(** ** The events on the cube and on what is known *)

(** From [o] to [o'] the cube was turned by move methods, whose names were
    appended to the list of moves. *)
Definition trace (o o' : Tree.objects) : Prop :=
  exists names,
    Tree.moves o' = (Tree.moves o ++ names)%list /\
    Forall valid_name names /\
    Tree.cube o' = map (act names) (Tree.cube o).

(** An outcome on what is known describes an outcome on a cube: it is the
    same result, the cube left is one of those now known, it obeys the
    laws and was reached by move methods.  An outcome that says [unknown]
    describes any. *)
Definition describes {A} (o : Tree.objects) (out : result A * knowledge)
    (ro : result A * Tree.objects) : Prop :=
  fst out = Raise unknown \/
  (fst out = fst ro /\ fits (Tree.cube (snd ro)) (snd out) /\
   lawful (Tree.cube (snd ro)) /\ trace o (snd ro)).

(** * Verification *)

(** ** The lattice *)

Lemma on_lattice_cases p : on_lattice p = true -> In p lattice.
Proof.
  destruct p as [a b c]. unfold on_lattice, piter. simpl.
  rewrite !andb_true_iff, !Z.leb_le. intros H.
  assert (Ha : a = -1 \/ a = 0 \/ a = 1) by lia.
  assert (Hb : b = -1 \/ b = 0 \/ b = 1) by lia.
  assert (Hc : c = -1 \/ c = 0 \/ c = 1) by lia.
  clear H.
  destruct Ha as [-> | [-> | ->]], Hb as [-> | [-> | ->]], Hc as [-> | [-> | ->]];
    cbv [lattice flat_map map app In]; auto 30.
Qed.

Lemma three_slots (cs : list color) :
  length cs = 3%nat -> exists a b c, cs = [a; b; c].
Proof.
  destruct cs as [| a [| b [| c [| d cs]]]]; simpl; try discriminate.
  intros _. eauto.
Qed.

(** Case analysis on a piece of the lattice: 27 positions, three symbolic
    colour slots. *)
Ltac lattice_cases p H :=
  let Hl := fresh "Hl" in
  let Hc := fresh "Hc" in
  let pt := fresh "pt" in
  let cs := fresh "cs" in
  let ty := fresh "ty" in
  destruct p as [pt cs ty]; destruct H as [Hl Hc]; simpl in Hl, Hc;
  apply on_lattice_cases in Hl;
  apply three_slots in Hc; destruct Hc as (? & ? & ? & ->);
  cbv [lattice flat_map map app In] in Hl;
  repeat (destruct Hl as [<- | Hl]); [.. | contradiction].

Lemma well_formed_piece_ok (p : Piece) : well_formed_piece p -> piece_ok p.
Proof.
  intros [Hl Hs]. split; [exact Hl |].
  apply (f_equal length) in Hs. by rewrite !length_map in Hs.
Qed.

(** ** Piece.rotate *)

Lemma rotate_ok (matrix : Matrix) (ax : nat * nat) (p : Piece) :
  In (matrix, ax) rotations -> piece_ok p -> fst (rotate matrix p) = Ok tt.
Proof.
  intros Hm Hp. lattice_cases p Hp;
    cbv [rotations In] in Hm;
    repeat (destruct Hm as [Hm | Hm]; [injection Hm as <- <- |]);
    try contradiction; reflexivity.
Qed.

Ltac rotation_cases Hm :=
  cbv [rotations In] in Hm;
  repeat (destruct Hm as [Hm | Hm]; [injection Hm as <- <- <- |]);
  [.. | contradiction].

Ltac close_case :=
  repeat match goal with
         | |- _ /\ _ => split
         | |- exists _, _ => eexists
         | |- _ = _ => reflexivity
         | |- _ = _ -> _ => let H := fresh in intros H; try discriminate H
         | |- (_ = _ -> False) -> _ =>
             let H := fresh in intros H; try (exfalso; apply H; reflexivity)
         | |- _ <> _ -> _ =>
             let H := fresh in intros H; try (exfalso; apply H; reflexivity)
         end.

(** C3.  For a well-formed piece and each of the six rotation matrices,
    [Piece.rotate] returns normally with the position multiplied by the
    matrix and the type kept.  With [d] the displacement, new position
    minus old: when [d] is zero the colours are unchanged; otherwise the
    colours of the two slots [i] and [j] of the rotation plane are
    exchanged and the third slot is kept.  When [d] has a single nonzero
    entry, [d + matrix * d] is nonzero exactly on the axes [i] and [j];
    when [d] has two, [d] itself is. *)
Theorem rotate_swaps_plane_slots (matrix : Matrix) (i j : nat) (p : Piece) :
  In (matrix, (i, j)) rotations ->
  well_formed_piece p ->
  let d := psub (mmul_point matrix (pos p)) (pos p) in
  exists p',
    rotate matrix p = (Ok tt, p') /\
    pos p' = mmul_point matrix (pos p) /\
    type p' = type p /\
    (d = origin -> colors p' = colors p) /\
    (d <> origin ->
       exists a b,
         colors p !! i = Some a /\ colors p !! j = Some b /\
         colors p' = <[j := a]> (<[i := b]> (colors p))) /\
    (pcount d 0 = 2 -> nonzero_axes (padd d (mmul_point matrix d)) = [i; j]) /\
    (d <> origin -> pcount d 0 <> 2 -> nonzero_axes d = [i; j]).
Proof.
  intros Hm Hp%well_formed_piece_ok. lattice_cases p Hp; rotation_cases Hm;
    vm_compute; close_case.
Qed.

Lemma rotate_swaps_plane_slots_witness :
  exists p',
    rotate ROT_XY_CW (mkPiece (mkPoint 1 1 0) [Some "a"%char; Some "b"%char; None] EDGE)
      = (Ok tt, p') /\
    pos p' = mkPoint 1 (-1) 0 /\
    colors p' = [Some "b"%char; Some "a"%char; None].
Proof.
  assert (Hwf : well_formed_piece
                  (mkPiece (mkPoint 1 1 0) [Some "a"%char; Some "b"%char; None] EDGE)).
  { split; reflexivity. }
  destruct (rotate_swaps_plane_slots ROT_XY_CW 0 1 _ (or_introl eq_refl) Hwf)
    as (p' & Hrot & Hpos & _ & _ & Hswap & _).
  exists p'. split; [exact Hrot |]. split; [exact Hpos |].
  destruct Hswap as (a & b & Ha & Hb & Hc); [discriminate |].
  injection Ha as <-. injection Hb as <-. exact Hc.
Defined.

(** ** Rotating the selected pieces of the store *)

Lemma rotate_pieces_select_from (f : Piece -> bool) (matrix : Matrix)
    (suf pre : list Piece) :
  (forall p, p ∈ suf -> f p = true -> fst (rotate matrix p) = Ok tt) ->
  _rotate_pieces (select_from (length pre) f suf) matrix (pre ++ suf)
  = (Ok tt, pre ++ map (fun p => if f p then snd (rotate matrix p) else p) suf).
Proof.
  revert pre. induction suf as [| p suf IH]; intros pre Hok; [reflexivity |].
  assert (Hsuf : forall q, q ∈ suf -> f q = true -> fst (rotate matrix q) = Ok tt).
  { intros q Hq. apply Hok. by right. }
  cbn [select_from]. destruct (f p) eqn:Hf.
  - cbn [_rotate_pieces map]. rewrite Hf. rewrite list_lookup_middle by reflexivity.
    specialize (Hok p (list_elem_of_here _ _) Hf).
    destruct (rotate matrix p) as [r p'] eqn:Hr. simpl in Hok. subst r.
    replace (<[length pre := p']> (pre ++ p :: suf)) with ((pre ++ [p']) ++ suf).
    + specialize (IH (pre ++ [p']) Hsuf).
      rewrite length_app in IH. simpl in IH.
      replace (length pre + 1)%nat with (S (length pre)) in IH by lia.
      rewrite IH. by rewrite <- app_assoc.
    + rewrite <- app_assoc. simpl.
      by rewrite (insert_app_r_alt pre (p :: suf) (length pre)), Nat.sub_diag.
  - specialize (IH (pre ++ [p]) Hsuf).
    rewrite length_app in IH. simpl in IH.
    replace (length pre + 1)%nat with (S (length pre)) in IH by lia.
    rewrite <- app_assoc in IH. simpl in IH. rewrite IH.
    cbn [map]. rewrite Hf. by rewrite <- app_assoc.
Qed.

Lemma rotate_pieces_select (f : Piece -> bool) (matrix : Matrix) (c : Cube) :
  (forall p, p ∈ c -> f p = true -> fst (rotate matrix p) = Ok tt) ->
  _rotate_pieces (select f c) matrix c
  = (Ok tt, map (fun p => if f p then snd (rotate matrix p) else p) c).
Proof. intros H. exact (rotate_pieces_select_from f matrix c [] H). Qed.

Lemma all_pieces_select (c : Cube) : all_pieces c = select (fun _ => true) c.
Proof.
  unfold all_pieces, select. generalize 0%nat.
  induction c as [| p c IH]; intros n; simpl; [reflexivity |].
  by rewrite IH.
Qed.

Lemma rotate_face_map (face : Point) (matrix : Matrix) (ax : nat * nat) (c : Cube) :
  pcount face 0 = 2 -> In (matrix, ax) rotations -> Forall piece_ok c ->
  _rotate_face face matrix c
  = (Ok tt, map (fun p => if 0 <? dot (pos p) face
                          then snd (rotate matrix p) else p) c).
Proof.
  intros Hf Hm Hc. unfold _rotate_face, bind, query, _face.
  rewrite Hf. simpl. apply rotate_pieces_select.
  intros p Hp _. apply (rotate_ok _ ax); [exact Hm |].
  rewrite Forall_forall in Hc. by apply Hc.
Qed.

Lemma rotate_all_map (matrix : Matrix) (ax : nat * nat) (c : Cube) :
  In (matrix, ax) rotations -> Forall piece_ok c ->
  _rotate_pieces (all_pieces c) matrix c
  = (Ok tt, map (fun p => snd (rotate matrix p)) c).
Proof.
  intros Hm Hc. rewrite all_pieces_select.
  rewrite rotate_pieces_select; [reflexivity |].
  intros p Hp _. apply (rotate_ok _ ax); [exact Hm |].
  rewrite Forall_forall in Hc. by apply Hc.
Qed.

Lemma rotate_pieces_singleton (f : Piece -> bool) (matrix : Matrix) (p : Piece) :
  snd (_rotate_pieces (select f [p]) matrix [p])
  = [if f p then snd (rotate matrix p) else p].
Proof.
  unfold select. cbn [select_from]. destruct (f p); [| reflexivity].
  cbn. destruct (rotate matrix p) as [[|] p']; reflexivity.
Qed.

(** Every move method rotates the pieces of one selection by one of the six
    matrices. *)
Lemma method_shape (m : Move.t) :
  exists (f : Piece -> bool) (matrix : Matrix) (ax : nat * nat),
    In (matrix, ax) rotations /\
    forall c : Cube, method m c = _rotate_pieces (select f c) matrix c.
Proof.
  destruct m;
    (do 3 eexists; split;
     [| intros c; cbn [method]; rewrite ?all_pieces_select; reflexivity ];
     cbv [rotations In]; eauto 10).
Qed.

(** On a store of lattice pieces a move method returns normally and acts
    on each piece by itself. *)
Lemma method_map (m : Move.t) (c : Cube) :
  Forall piece_ok c -> method m c = (Ok tt, map (turned m) c).
Proof.
  intros Hc. destruct (method_shape m) as (f & matrix & ax & Hm & Hshape).
  rewrite Hshape, rotate_pieces_select.
  - f_equal. apply map_ext. intros p. unfold turned.
    by rewrite Hshape, rotate_pieces_singleton.
  - intros p Hp _. apply (rotate_ok _ ax); [exact Hm |].
    rewrite Forall_forall in Hc. by apply Hc.
Qed.

(** ** One piece under the moves *)

Lemma turned_ok (m : Move.t) (p : Piece) : piece_ok p -> piece_ok (turned m p).
Proof. intros Hp. lattice_cases p Hp; destruct m; split; reflexivity. Qed.

Lemma turned_type (m : Move.t) (p : Piece) : piece_ok p -> type (turned m p) = type p.
Proof. intros Hp. lattice_cases p Hp; destruct m; reflexivity. Qed.

Lemma turned_inverse (m : Move.t) (p : Piece) :
  piece_ok p -> turned (Move.inverse m) (turned m p) = p.
Proof. intros Hp. lattice_cases p Hp; destruct m; reflexivity. Qed.

Lemma turned_four (m : Move.t) (p : Piece) :
  piece_ok p -> turned m (turned m (turned m (turned m p))) = p.
Proof. intros Hp. lattice_cases p Hp; destruct m; reflexivity. Qed.

Lemma map_turned_ok (m : Move.t) (c : Cube) :
  Forall piece_ok c -> Forall piece_ok (map (turned m) c).
Proof.
  intros Hc. apply Forall_map. eapply Forall_impl; [exact Hc |].
  intros p. apply turned_ok.
Qed.

Lemma map_id_on {A} (P : A -> Prop) (f : A -> A) (l : list A) :
  Forall P l -> (forall a, P a -> f a = a) -> map f l = l.
Proof.
  intros Hl Hf. induction Hl as [| a l Ha _ IH]; simpl; [reflexivity |].
  by rewrite Hf, IH.
Qed.

(** ** The net of a store of lattice pieces *)

Lemma select_from_bounds (f : Piece -> bool) (c : list Piece) (n : nat) :
  Forall (fun r => (n <= r < n + length c)%nat) (select_from n f c).
Proof.
  revert n. induction c as [| p c IH]; intros n; simpl; [constructor |].
  assert (Hrest : Forall (fun r => (n <= r < n + S (length c))%nat)
                         (select_from (S n) f c)).
  { eapply Forall_impl; [apply IH |]. simpl. intros r Hr. lia. }
  destruct (f p); [constructor; [lia | exact Hrest] | exact Hrest].
Qed.

Lemma select_valid (f : Piece -> bool) (c : Cube) :
  Forall (fun r => (r < length c)%nat) (select f c).
Proof.
  eapply Forall_impl; [apply (select_from_bounds f c 0) |].
  simpl. intros r Hr. lia.
Qed.

Lemma insert_sorted_Forall {A} (P : A -> Prop) (key : A -> Z * Z) (a : A) (l : list A) :
  P a -> Forall P l -> Forall P (insert_sorted key a l).
Proof.
  intros Ha Hl. induction Hl as [| b l Hb Hl IH]; simpl.
  - by constructor.
  - destruct (key_ltb (key a) (key b)); repeat constructor; assumption.
Qed.

Lemma sorted_Forall {A} (P : A -> Prop) (key : A -> Z * Z) (l : list A) :
  Forall P l -> Forall P (sorted key l).
Proof.
  unfold sorted. intros Hl.
  assert (Hgen : forall acc, Forall P acc ->
            Forall P (fold_left (fun acc a => insert_sorted key a acc) l acc)).
  { induction Hl as [| a l Ha Hl IH]; intros acc Hacc; simpl; [exact Hacc |].
    apply IH. by apply insert_sorted_Forall. }
  apply Hgen. constructor.
Qed.

Lemma slot_of_each_total (c : Cube) (i : nat) (refs : list nat) :
  Forall piece_ok c -> (i < 3)%nat ->
  Forall (fun r => (r < length c)%nat) refs ->
  exists l, slot_of_each c i refs = Ok l.
Proof.
  intros Hc Hi Hrefs. induction Hrefs as [| r refs Hr _ IH]; simpl; [eauto |].
  destruct IH as [l Hl].
  apply lookup_lt_is_Some_2 in Hr. destruct Hr as [p Hp].
  unfold deref. rewrite Hp. simpl.
  assert (Hok : piece_ok p).
  { rewrite Forall_forall in Hc. apply Hc. by eapply list_elem_of_lookup_2. }
  destruct Hok as [_ Hlen].
  assert (Hslot : is_Some (colors p !! i)).
  { apply lookup_lt_is_Some_2. lia. }
  destruct Hslot as [v Hv]. unfold color_slot. rewrite Hv. simpl.
  rewrite Hl. simpl. eauto.
Qed.

Lemma face_colors_total (face : Point) (key : Point -> Z * Z) (i : nat) (c : Cube) :
  Forall piece_ok c -> (i < 3)%nat -> pcount face 0 = 2 ->
  exists l, face_colors face key i c = Ok l.
Proof.
  intros Hc Hi Hf. unfold face_colors, _face. rewrite Hf. simpl.
  apply slot_of_each_total; [exact Hc | exact Hi |].
  apply sorted_Forall, select_valid.
Qed.

Lemma color_list_total (c : Cube) :
  Forall piece_ok c -> exists l, _color_list c = Ok l.
Proof.
  intros Hc. unfold _color_list.
  destruct (face_colors_total RIGHT (fun p => (- py p, - pz p)) 0 c Hc) as [r ->];
    [lia | reflexivity |].
  destruct (face_colors_total LEFT (fun p => (- py p, pz p)) 0 c Hc) as [l ->];
    [lia | reflexivity |].
  destruct (face_colors_total UP (fun p => (pz p, px p)) 1 c Hc) as [u ->];
    [lia | reflexivity |].
  destruct (face_colors_total DOWN (fun p => (- pz p, px p)) 1 c Hc) as [d ->];
    [lia | reflexivity |].
  destruct (face_colors_total FRONT (fun p => (- py p, px p)) 2 c Hc) as [f ->];
    [lia | reflexivity |].
  destruct (face_colors_total BACK (fun p => (- py p, - px p)) 2 c Hc) as [b ->];
    [lia | reflexivity |].
  simpl. eauto.
Qed.

Lemma Cube_eq_refl (c : Cube) : Forall piece_ok c -> Cube_eq c c = Ok true.
Proof.
  intros Hc. unfold Cube_eq. destruct (color_list_total c Hc) as [l ->].
  simpl. by rewrite bool_decide_eq_true_2.
Qed.

Lemma solved_cube_init : Cube_init SOLVED_CUBE_STR = Ok solved_cube.
Proof. reflexivity. Qed.

Lemma solved_cube_ok : Forall piece_ok solved_cube.
Proof. repeat constructor. Qed.

Lemma bind_ok {S A B} (m : proc S A) (k : A -> proc S B) (s s' : S) (a : A) :
  m s = (Ok a, s') -> bind m k s = k a s'.
Proof. unfold bind. by intros ->. Qed.

Lemma name_inverse (m : Move.t) : Move.name (Move.inverse m) = _invert (Move.name m).
Proof. by destruct m. Qed.

Lemma of_name_name (m : Move.t) : Move.of_name (Move.name m) = Some m.
Proof. by destruct m. Qed.

(** ** Moves and their inverses *)

(** C5.  On every store of lattice pieces, so on every reachable cube, a
    move followed by the move named with the suffix [i] toggled (the
    inverse as [_invert] names it) returns normally and leaves the very
    store it started from; in particular the two are equal as cubes, by
    their net-order colour lists. *)
Theorem move_then_inverse (m : Move.t) (c : Cube) :
  Forall piece_ok c ->
  Move.name (Move.inverse m) = _invert (Move.name m) /\
  exists c',
    (method m ;; method (Move.inverse m))%proc c = (Ok tt, c') /\
    c' = c /\
    Cube_eq c' c = Ok true.
Proof.
  intros Hc. split; [apply name_inverse |].
  exists c. split; [| split; [reflexivity | by apply Cube_eq_refl]].
  rewrite (bind_ok _ _ _ _ _ (method_map m c Hc)).
  rewrite method_map by by apply map_turned_ok.
  f_equal. rewrite map_map. apply (map_id_on piece_ok); [exact Hc |].
  intros p Hp. by apply turned_inverse.
Qed.

Lemma move_then_inverse_witness :
  exists c',
    (method Move.R ;; method Move.Ri)%proc solved_cube = (Ok tt, c') /\
    Cube_eq c' solved_cube = Ok true.
Proof.
  destruct (move_then_inverse Move.R solved_cube solved_cube_ok)
    as (_ & c' & Hrun & _ & Heq).
  exists c'. split; [exact Hrun | exact Heq].
Defined.

(** C6.  On every store of lattice pieces, so on every reachable cube,
    four applications of one move return normally and leave the store
    they started from, equal as a cube by its net-order colour list. *)
Theorem move_four_times (m : Move.t) (c : Cube) :
  Forall piece_ok c ->
  exists c',
    (method m ;; method m ;; method m ;; method m)%proc c = (Ok tt, c') /\
    c' = c /\
    Cube_eq c' c = Ok true.
Proof.
  intros Hc.
  exists c. split; [| split; [reflexivity | by apply Cube_eq_refl]].
  pose proof (map_turned_ok m c Hc) as H1.
  pose proof (map_turned_ok m _ H1) as H2.
  pose proof (map_turned_ok m _ H2) as H3.
  rewrite (bind_ok _ _ _ _ _ (method_map m c Hc)).
  rewrite (bind_ok _ _ _ _ _ (method_map m _ H1)).
  rewrite (bind_ok _ _ _ _ _ (method_map m _ H2)).
  rewrite method_map by exact H3.
  f_equal. rewrite !map_map. apply (map_id_on piece_ok); [exact Hc |].
  intros p Hp. by apply turned_four.
Qed.

Lemma move_four_times_witness :
  exists c',
    (method Move.U ;; method Move.U ;; method Move.U ;; method Move.U)%proc solved_cube
      = (Ok tt, c') /\
    Cube_eq c' solved_cube = Ok true.
Proof.
  destruct (move_four_times Move.U solved_cube solved_cube_ok)
    as (c' & Hrun & _ & Heq).
  exists c'. split; [exact Hrun | exact Heq].
Defined.

(** ** The invariant under the moves *)

Ltac point_cases pt H :=
  apply on_lattice_cases in H;
  cbv [lattice flat_map map app In] in H;
  repeat (destruct H as [<- | H]); [.. | contradiction].

Lemma pos_turned (m : Move.t) (p : Piece) :
  piece_ok p -> pos (turned m p) = moved m (pos p).
Proof. intros Hp. lattice_cases p Hp; destruct m; reflexivity. Qed.

Lemma moved_on_lattice (m : Move.t) (pt : Point) :
  on_lattice pt = true -> on_lattice (moved m pt) = true.
Proof. intros H. point_cases pt H; destruct m; reflexivity. Qed.

Lemma moved_inverse (m : Move.t) (pt : Point) :
  on_lattice pt = true -> moved (Move.inverse m) (moved m pt) = pt.
Proof. intros H. point_cases pt H; destruct m; reflexivity. Qed.

Lemma moved_not_origin (m : Move.t) (pt : Point) :
  on_lattice pt = true -> pt <> origin -> moved m pt <> origin.
Proof.
  intros H Hne. point_cases pt H; destruct m;
    solve [discriminate | exfalso; apply Hne; reflexivity].
Qed.

Lemma turned_well_formed (m : Move.t) (p : Piece) :
  well_formed_piece p -> well_formed_piece (turned m p).
Proof.
  intros Hwf. pose proof (well_formed_piece_ok p Hwf) as Hp.
  destruct Hwf as [_ Hs].
  lattice_cases p Hp;
    match goal with
    | H : slots_match (mkPiece _ [?a; ?b; ?c] _) |- _ =>
        destruct a, b, c; try discriminate H
    end;
    destruct m; split; reflexivity.
Qed.

Lemma map_pos_turned (m : Move.t) (c : Cube) :
  Forall piece_ok c -> map pos (map (turned m) c) = map (moved m) (map pos c).
Proof.
  intros Hc. rewrite !map_map.
  induction Hc as [| p c Hp _ IH]; simpl; [reflexivity |].
  by rewrite pos_turned, IH.
Qed.

Lemma well_formed_ok (c : Cube) : well_formed c -> Forall piece_ok c.
Proof.
  intros [_ _ _ Hp]. eapply Forall_impl; [exact Hp |].
  apply well_formed_piece_ok.
Qed.

Lemma map_turned_well_formed (m : Move.t) (c : Cube) :
  well_formed c -> well_formed (map (turned m) c).
Proof.
  intros Hwf. pose proof (well_formed_ok c Hwf) as Hok.
  destruct Hwf as [Hlen Hnd Hpos Hp].
  assert (Hlat : forall pt, pt ∈ map pos c -> on_lattice pt = true).
  { intros pt Hpt. apply list_elem_of_fmap in Hpt as (p & -> & Hin).
    rewrite Forall_forall in Hok. by apply Hok. }
  split.
  - by rewrite length_map.
  - rewrite map_pos_turned by exact Hok.
    apply NoDup_fmap_2_strong; [| exact Hnd].
    intros a b Ha Hb Hab.
    rewrite <- (moved_inverse m a), <- (moved_inverse m b) by auto.
    by rewrite Hab.
  - apply Forall_map. rewrite Forall_forall in *. intros p Hin.
    rewrite pos_turned by auto.
    apply moved_not_origin; [apply Hok |]; auto.
  - apply Forall_map. eapply Forall_impl; [exact Hp |].
    intros p. apply turned_well_formed.
Qed.

Lemma map_turned_types (m : Move.t) (c : Cube) :
  Forall piece_ok c -> map type (map (turned m) c) = map type c.
Proof.
  intros Hc. rewrite map_map.
  induction Hc as [| p c Hp _ IH]; simpl; [reflexivity |].
  by rewrite turned_type, IH.
Qed.

Lemma solved_cube_well_formed : well_formed solved_cube.
Proof.
  split.
  - reflexivity.
  - apply NoDup_ListNoDup.
    apply (List.NoDup_count_occ' Point_eq_dec).
    intros pt Hin. repeat (destruct Hin as [<- | Hin]; [reflexivity |]).
    contradiction.
  - repeat constructor; discriminate.
  - repeat constructor.
Qed.

(** C4.  Each of the 24 move methods, called on a cube that satisfies the
    invariant (26 pieces, at pairwise distinct lattice positions other than
    the centre, each with its stickers exactly on the axes where its
    position is nonzero), returns normally and leaves a cube that satisfies
    it again, with the type of every piece (face, edge, corner) unchanged. *)
Theorem move_preserves_well_formed (m : Move.t) (c : Cube) :
  well_formed c ->
  exists c',
    method m c = (Ok tt, c') /\
    well_formed c' /\
    map type c' = map type c.
Proof.
  intros Hwf. pose proof (well_formed_ok c Hwf) as Hok.
  exists (map (turned m) c). split; [by apply method_map |].
  split; [by apply map_turned_well_formed | by apply map_turned_types].
Qed.

Lemma move_preserves_well_formed_witness :
  exists c',
    method Move.F solved_cube = (Ok tt, c') /\
    well_formed c' /\
    map type c' = map type solved_cube.
Proof.
  exact (move_preserves_well_formed Move.F solved_cube solved_cube_well_formed).
Defined.

(** ** Faces and slices *)

Lemma select_from_length (f : Piece -> bool) (c : list Piece) (n : nat) :
  length (select_from n f c) = length (List.filter f c).
Proof.
  revert n. induction c as [| p c IH]; intros n; simpl; [reflexivity |].
  destruct (f p); simpl; by rewrite IH.
Qed.

Lemma select_from_spec (f : Piece -> bool) (c : list Piece) (n r : nat) :
  r ∈ select_from n f c <->
  exists p, c !! (r - n)%nat = Some p /\ (n <= r)%nat /\ f p = true.
Proof.
  revert n. induction c as [| p c IH]; intros n; simpl.
  - split; [intros H; inversion H | intros (p & Hp & _); discriminate Hp].
  - assert (Hrest : r ∈ select_from (S n) f c <->
                    exists q, (p :: c) !! (r - n)%nat = Some q /\ (S n <= r)%nat /\ f q = true).
    { rewrite IH. split; intros (q & Hq & Hle & Hf); exists q; (split; [| by split]).
      - replace (r - n)%nat with (S (r - S n)) by lia. exact Hq.
      - replace (r - n)%nat with (S (r - S n)) in Hq by lia. exact Hq. }
    destruct (f p) eqn:Hfp.
    + rewrite elem_of_cons, Hrest. split.
      * intros [-> | (q & Hq & Hle & Hf)].
        -- exists p. rewrite Nat.sub_diag. by repeat split.
        -- exists q. repeat split; [exact Hq | lia | exact Hf].
      * intros (q & Hq & Hle & Hf).
        destruct (decide (r = n)) as [-> | Hne]; [by left |].
        right. exists q. repeat split; [exact Hq | lia | exact Hf].
    + rewrite Hrest. split.
      * intros (q & Hq & Hle & Hf). exists q. repeat split; [exact Hq | lia | exact Hf].
      * intros (q & Hq & Hle & Hf).
        destruct (decide (r = n)) as [-> | Hne].
        -- rewrite Nat.sub_diag in Hq. simpl in Hq. congruence.
        -- exists q. repeat split; [exact Hq | lia | exact Hf].
Qed.

(** The references that [select] returns are those of the pieces that
    satisfy the test. *)
Lemma select_spec (f : Piece -> bool) (c : Cube) (r : nat) :
  r ∈ select f c <-> exists p, c !! r = Some p /\ f p = true.
Proof.
  unfold select. rewrite select_from_spec, Nat.sub_0_r.
  split; intros (p & Hp & H); exists p; [by destruct H | repeat split; [done | lia | done]].
Qed.

Lemma filter_on_pos (g : Point -> bool) (c : list Piece) :
  length (List.filter (fun p => g (pos p)) c) = length (List.filter g (map pos c)).
Proof.
  induction c as [| p c IH]; simpl; [reflexivity |].
  destruct (g (pos p)); simpl; by rewrite IH.
Qed.

Lemma filter_length_perm {A} (g : A -> bool) (l k : list A) :
  l ≡ₚ k -> length (List.filter g l) = length (List.filter g k).
Proof.
  induction 1 as [| a l k _ IH | a b l | l k j _ IH1 _ IH2]; simpl.
  - reflexivity.
  - destruct (g a); simpl; by rewrite IH.
  - destruct (g a), (g b); reflexivity.
  - by rewrite IH1.
Qed.

(** The positions of a well-formed cube are the 26 lattice points around
    the centre, in some order. *)
Lemma well_formed_positions (c : Cube) : well_formed c -> map pos c ≡ₚ cubie_positions.
Proof.
  intros Hwf. pose proof (well_formed_ok c Hwf) as Hok.
  destruct Hwf as [Hlen Hnd Hpos _].
  apply submseteq_length_Permutation.
  - apply NoDup_submseteq; [exact Hnd |].
    intros pt Hpt. apply list_elem_of_fmap in Hpt as (p & -> & Hin).
    rewrite Forall_forall in Hok, Hpos.
    destruct (Hok p Hin) as [Hl _]. specialize (Hpos p Hin).
    apply list_elem_of_In. revert Hl Hpos. generalize (pos p). intros pt Hl Hpos.
    point_cases pt Hl;
      first [ exfalso; apply Hpos; reflexivity
            | cbv [cubie_positions lattice flat_map map app List.filter peqb
                   px py pz origin negb andb Z.eqb In]; auto 30 ].
  - rewrite length_map, Hlen. reflexivity.
Qed.

Lemma select_count (g : Point -> bool) (c : Cube) :
  well_formed c ->
  length (select (fun p => g (pos p)) c) = length (List.filter g cubie_positions).
Proof.
  intros Hwf. unfold select.
  rewrite select_from_length, filter_on_pos.
  apply filter_length_perm. by apply well_formed_positions.
Qed.

Lemma coordinate_zero (pt : Point) (k : nat) :
  match pget pt k with
  | Ok v => v =? 0
  | Raise _ => false
  end = true <-> piter pt !! k = Some 0.
Proof.
  destruct pt as [a b d], k as [| [| [| k]]]; cbn;
    rewrite ?Z.eqb_eq; split; intros H; try congruence.
  destruct k; discriminate H.
Qed.

(** The claim of nine pieces in a slice fails on the solved cube: the
    slice of the plane X+Y has eight. *)
Lemma slice_nine_counterexample :
  well_formed solved_cube /\
  exists refs,
    _slice (padd X_AXIS Y_AXIS) solved_cube = Ok refs /\
    length refs <> 9%nat.
Proof.
  split; [exact solved_cube_well_formed |].
  eexists. split; [reflexivity |]. vm_compute. discriminate.
Qed.

(** C7, amended.  On a well-formed cube, [_face] on an axis vector with
    exactly two zero components returns nine pieces, those whose position
    has a positive dot product with the axis; [_slice] on a plane with
    exactly one zero component, at axis [k], returns eight pieces, those
    whose coordinate [k] is zero (the ninth point of that layer is the
    centre of the cube, where there is no piece). *)
Theorem face_nine_slice_eight (c : Cube) (v : Point) :
  well_formed c ->
  (pcount v 0 = 2 ->
   exists refs,
     _face v c = Ok refs /\
     length refs = 9%nat /\
     forall r, r ∈ refs <-> exists p, c !! r = Some p /\ 0 < dot (pos p) v) /\
  (pcount v 0 = 1 ->
   exists refs k,
     _slice v c = Ok refs /\
     length refs = 8%nat /\
     piter v !! k = Some 0 /\
     forall r, r ∈ refs <-> exists p, c !! r = Some p /\ piter (pos p) !! k = Some 0).
Proof.
  intros Hwf. split; intros Hv.
  - unfold _face. rewrite Hv. simpl. eexists. split; [reflexivity |]. split.
    + rewrite (select_count (fun pt => 0 <? dot pt v)) by exact Hwf.
      destruct v as [[| a | a] [| b | b] [| d | d]]; try discriminate Hv; reflexivity.
    + intros r. rewrite select_spec. by setoid_rewrite Z.ltb_lt.
  - assert (Hk : forall k : nat,
               _slice v c = Ok (select (fun p => match pget (pos p) k with
                                                 | Ok w => w =? 0
                                                 | Raise _ => false
                                                 end) c) ->
               piter v !! k = Some 0 ->
               (k < 3)%nat ->
               exists refs k,
                 _slice v c = Ok refs /\
                 length refs = 8%nat /\
                 piter v !! k = Some 0 /\
                 forall r, r ∈ refs <->
                   exists p, c !! r = Some p /\ piter (pos p) !! k = Some 0).
    { intros k Hs Hz Hlt. eexists. exists k. split; [exact Hs |]. split.
      - rewrite (select_count (fun pt => match pget pt k with
                                         | Ok w => w =? 0
                                         | Raise _ => false
                                         end)) by exact Hwf.
        destruct k as [| [| [| k]]]; [reflexivity .. | lia].
      - split; [exact Hz |].
        intros r. rewrite select_spec. by setoid_rewrite coordinate_zero. }
    destruct v as [[| a | a] [| b | b] [| d | d]]; try discriminate Hv;
      first [ apply (Hk 0%nat); [reflexivity | reflexivity | lia]
            | apply (Hk 1%nat); [reflexivity | reflexivity | lia]
            | apply (Hk 2%nat); [reflexivity | reflexivity | lia] ].
Qed.

Lemma face_nine_slice_eight_witness :
  (exists refs, _face UP solved_cube = Ok refs /\ length refs = 9%nat) /\
  (exists refs, _slice (padd X_AXIS Z_AXIS) solved_cube = Ok refs /\ length refs = 8%nat).
Proof.
  split.
  - destruct (proj1 (face_nine_slice_eight solved_cube UP solved_cube_well_formed)
                eq_refl) as (refs & H1 & H2 & _).
    exists refs. by split.
  - destruct (proj2 (face_nine_slice_eight solved_cube (padd X_AXIS Z_AXIS)
                       solved_cube_well_formed) eq_refl) as (refs & k & H1 & H2 & _).
    exists refs. by split.
Defined.

(** ** Construction and rendering *)

Lemma remove_whitespace_Forall (l : list ascii) :
  Forall (fun ch => in_string_whitespace ch = false) (remove_whitespace l).
Proof.
  unfold remove_whitespace. induction l as [| ch l IH]; simpl; [constructor |].
  destruct (in_string_whitespace ch) eqn:Hch; simpl; [exact IH |].
  by constructor.
Qed.

Lemma remove_whitespace_keep (ch : ascii) (l : list ascii) :
  in_string_whitespace ch = false ->
  remove_whitespace (ch :: l) = ch :: remove_whitespace l.
Proof. intros H. unfold remove_whitespace. simpl. by rewrite H. Qed.

Lemma remove_whitespace_space (l : list ascii) :
  remove_whitespace (" "%char :: l) = remove_whitespace l.
Proof. reflexivity. Qed.

Lemma remove_whitespace_newline (l : list ascii) :
  remove_whitespace ("010"%char :: l) = remove_whitespace l.
Proof. reflexivity. Qed.

Lemma lstrip_space (l : list ascii) : lstrip (" "%char :: l) = lstrip l.
Proof. reflexivity. Qed.

Lemma lstrip_keep (ch : ascii) (l : list ascii) :
  isspace ch = false -> lstrip (ch :: l) = ch :: l.
Proof. intros H. simpl. by rewrite H. Qed.

(** A list of 54 stickers, spelled out. *)
Ltac spell_out s Hlen :=
  do 54 (destruct s as [| ? s]; [discriminate Hlen |]);
  destruct s; [clear Hlen | discriminate Hlen].

Ltac split_Forall H :=
  repeat match type of H with
         | Forall _ (_ :: _) =>
             let H1 := fresh "Hws" in
             apply Forall_cons_1 in H; destruct H as [H1 H]
         end.

(** C8 at its failing input.  The file separator (code point 28) is not in
    [string.whitespace], so [Cube.__init__] and the filter of [flat_str]
    keep it as a sticker, but [str.strip] in [Cube.__str__] takes it for
    whitespace: as the first sticker of the net it is lost, the cube is
    built and its flat string has 53 characters, not the 54 it was built
    from. *)
Theorem flat_str_drops_leading_separator :
  let cube_str :=
    String "028"%char "OOOOOOOOYYYWWWGGGBBBYYYWWWGGGBBBYYYWWWGGGBBBRRRRRRRRR" in
  let s := remove_whitespace (list_ascii_of_string cube_str) in
  length s = 54%nat /\
  exists c out,
    Cube_init cube_str = Ok c /\
    flat_str c = Ok out /\
    out <> s.
Proof.
  cbv zeta. split; [reflexivity |].
  eexists; eexists. split; [reflexivity |]. split; [reflexivity |].
  vm_compute. discriminate.
Qed.

(** X8.  The round trip of C8 where it holds.  For every string that has 54
    characters once the characters of [string.whitespace] are discarded,
    [Cube.__init__] succeeds and the net-order colour list of the cube is
    that string, sticker for sticker.  The flat string [flat_str] is that
    string too provided its first and its last character are not
    whitespace for [str.strip] (which, besides [string.whitespace], takes
    the separators 28..31, NEL and the no-break space for whitespace). *)
Theorem construct_then_render (cube_str : string) :
  let s := remove_whitespace (list_ascii_of_string cube_str) in
  length s = 54%nat ->
  exists c,
    Cube_init cube_str = Ok c /\
    _color_list c = Ok (map Some s) /\
    (isspace (List.hd " "%char s) = false ->
     isspace (List.last s " "%char) = false ->
     flat_str c = Ok s).
Proof.
  intros s Hlen.
  pose proof (remove_whitespace_Forall (list_ascii_of_string cube_str)) as Hws.
  unfold Cube_init. fold s. fold s in Hws. clearbody s.
  spell_out s Hlen. split_Forall Hws.
  eexists. split; [reflexivity |]. split; [reflexivity |].
  cbn [List.hd List.last]. intros Hfirst Hlast.
  unfold flat_str, Cube_str.
  match goal with
  | |- context [_color_list ?c] =>
      let v := eval vm_compute in (_color_list c) in
      change (_color_list c) with v
  end.
  cbn [rbind].
  match goal with
  | |- context [format ?t ?l] =>
      let v := eval vm_compute in (format t l) in
      change (format t l) with v
  end.
  cbn [rbind]. unfold strip.
  rewrite !lstrip_space, (lstrip_keep _ _ Hfirst).
  cbn [rev app]. rewrite (lstrip_keep _ _ Hlast). cbn [rev app].
  cbn [list_ascii_of_string app].
  repeat first [ rewrite remove_whitespace_space
               | rewrite remove_whitespace_newline
               | rewrite remove_whitespace_keep by assumption ].
  reflexivity.
Qed.

Example construct_then_render_solved :
  exists c,
    Cube_init SOLVED_CUBE_STR = Ok c /\
    flat_str c = Ok (list_ascii_of_string SOLVED_CUBE_STR).
Proof.
  destruct (construct_then_render SOLVED_CUBE_STR eq_refl) as (c & Hc & _ & Hf).
  exists c. split; [exact Hc | exact (Hf eq_refl eq_refl)].
Defined.

(** ** The cubes that exist satisfy the invariant *)

Lemma Cube_init_well_formed (cube_str : string) (c : Cube) :
  Cube_init cube_str = Ok c -> well_formed c.
Proof.
  unfold Cube_init.
  set (s := remove_whitespace (list_ascii_of_string cube_str)).
  destruct (length s =? 54)%nat eqn:Hlen; [| discriminate].
  apply Nat.eqb_eq in Hlen. clearbody s. spell_out s Hlen.
  vm_compute. intros H. injection H as <-.
  split.
  - reflexivity.
  - apply NoDup_ListNoDup.
    apply (List.NoDup_count_occ' Point_eq_dec).
    intros pt Hin. repeat (destruct Hin as [<- | Hin]; [reflexivity |]).
    contradiction.
  - repeat constructor; discriminate.
  - repeat constructor.
Qed.

Lemma reachable_well_formed (c : Cube) : reachable c -> well_formed c.
Proof.
  induction 1 as [cube_str c Hinit | m c c' _ IH Hm].
  - by apply (Cube_init_well_formed cube_str).
  - rewrite (method_map m c (well_formed_ok c IH)) in Hm.
    injection Hm as <-. by apply map_turned_well_formed.
Qed.

Lemma reachable_ok (c : Cube) : reachable c -> Forall piece_ok c.
Proof. intros H. by apply well_formed_ok, reachable_well_formed. Qed.

(** ** Cube.sequence *)

Lemma getattr_each_unknown (other_attribute : string -> option (proc Cube unit))
    (names : list string) (name : string) :
  name ∈ names ->
  Move.of_name name = None -> other_attribute name = None ->
  getattr_each other_attribute names = Raise AttributeError.
Proof.
  intros Hin Hmove Hother.
  induction names as [| n names IH]; [by inversion Hin |].
  simpl. apply elem_of_cons in Hin as [<- | Hin].
  - unfold getattr. by rewrite Hmove, Hother.
  - unfold getattr at 1.
    destruct (Move.of_name n); simpl; [by rewrite IH |].
    destruct (other_attribute n); simpl; [by rewrite IH | reflexivity].
Qed.

(** C10.  When some whitespace-delimited token of the argument names no
    attribute of the cube (neither one of the 24 move methods nor any
    other attribute), [Cube.sequence] raises [AttributeError] and the
    store is the one it was called on: every name is resolved before the
    first move is called. *)
Theorem sequence_unknown_name (other_attribute : string -> option (proc Cube unit))
    (move_str : string) (c : Cube) (name : string) :
  name ∈ split move_str ->
  Move.of_name name = None -> other_attribute name = None ->
  sequence other_attribute move_str c = (Raise AttributeError, c).
Proof.
  intros Hin Hmove Hother. unfold sequence.
  by rewrite (getattr_each_unknown _ _ name Hin Hmove Hother).
Qed.

Lemma sequence_unknown_name_witness :
  sequence (fun _ => None) "R U Q Ri" solved_cube = (Raise AttributeError, solved_cube).
Proof.
  apply (sequence_unknown_name (fun _ => None) "R U Q Ri" solved_cube "Q").
  - vm_compute. do 2 right. left.
  - reflexivity.
  - reflexivity.
Defined.

(** ** What a list of move names does to one piece *)

Lemma act_name_ok (s : string) (p : Piece) : piece_ok p -> piece_ok (act_name s p).
Proof.
  intros Hp. unfold act_name. destruct (Move.of_name s); [by apply turned_ok | exact Hp].
Qed.

Lemma act_ok (names : list string) (p : Piece) : piece_ok p -> piece_ok (act names p).
Proof.
  revert p. induction names as [| s names IH]; intros p Hp; [exact Hp |].
  apply IH. by apply act_name_ok.
Qed.

Lemma act_app (l k : list string) (p : Piece) : act (l ++ k) p = act k (act l p).
Proof. unfold act. by rewrite fold_left_app. Qed.

Lemma act_name_move (m : Move.t) (p : Piece) : act_name (Move.name m) p = turned m p.
Proof. unfold act_name. by rewrite of_name_name. Qed.

Lemma valid_invert (a : string) : valid_name a -> valid_name (_invert a).
Proof. intros [m <-]. exists (Move.inverse m). apply name_inverse. Qed.

Lemma act_cancel (a : string) (p : Piece) :
  valid_name a -> piece_ok p -> act_name (_invert a) (act_name a p) = p.
Proof.
  intros [m <-] Hp. rewrite <- name_inverse, !act_name_move.
  by apply turned_inverse.
Qed.

Lemma act_triple (a : string) (p : Piece) :
  valid_name a -> piece_ok p ->
  act_name a (act_name a (act_name a p)) = act_name (_invert a) p.
Proof.
  intros [m <-] Hp. rewrite <- name_inverse, !act_name_move.
  rewrite <- (turned_four m p) at 2 by exact Hp.
  rewrite turned_inverse; [reflexivity |].
  by do 3 apply turned_ok.
Qed.

Lemma in_rots_cases (r : string) :
  in_rots r = true ->
  exists m, Move.name m = r /\ In m [Move.X; Move.Y; Move.Z; Move.Xi; Move.Yi; Move.Zi].
Proof.
  unfold in_rots, rots. simpl. rewrite !orb_true_iff, !String.eqb_eq.
  intros [-> | [-> | [-> | [-> | [-> | [-> | H]]]]]]; [.. | discriminate H].
  - exists Move.X. simpl. auto.
  - exists Move.Y. simpl. auto.
  - exists Move.Z. simpl. auto.
  - exists Move.Xi. simpl. auto 10.
  - exists Move.Yi. simpl. auto 10.
  - exists Move.Zi. simpl. auto 10.
Qed.

Ltac rot_cases Hr :=
  let m := fresh "r" in
  let Hin := fresh "Hin" in
  apply in_rots_cases in Hr; destruct Hr as (m & <- & Hin);
  simpl in Hin; repeat (destruct Hin as [<- | Hin]); [.. | contradiction].

Lemma rot_table_total (r : string) :
  in_rots r = true -> exists table, get_rot_table r = Some table.
Proof. intros Hr. rot_cases Hr; eexists; reflexivity. Qed.

Lemma valid_unrotate (r x : string) (table : list (string * string)) :
  in_rots r = true -> get_rot_table r = Some table -> valid_name x ->
  valid_name (unrotate_move table x).
Proof.
  intros Hr Ht [m <-]. rot_cases Hr; injection Ht as <-; destruct m;
    match goal with
    | |- valid_name ?s =>
        let v := eval vm_compute in (Move.of_name s) in
        match v with
        | Some ?m' => exists m'; reflexivity
        end
    end.
Qed.

(** Case analysis on a well-formed piece: 27 positions, each with its
    stickers where the position is nonzero. *)
Ltac well_formed_cases p Hwf :=
  let Hp := fresh "Hp" in
  let Hs := fresh "Hs" in
  pose proof (well_formed_piece_ok p Hwf) as Hp;
  destruct Hwf as [_ Hs];
  lattice_cases p Hp;
  match type of Hs with
  | slots_match (mkPiece _ [?a; ?b; ?c] _) =>
      destruct a, b, c; try discriminate Hs
  end; clear Hs.

Lemma act_name_well_formed (s : string) (p : Piece) :
  well_formed_piece p -> well_formed_piece (act_name s p).
Proof.
  intros Hp. unfold act_name.
  destruct (Move.of_name s); [by apply turned_well_formed | exact Hp].
Qed.

Lemma act_well_formed (names : list string) (p : Piece) :
  well_formed_piece p -> well_formed_piece (act names p).
Proof.
  revert p. induction names as [| s names IH]; intros p Hp; [exact Hp |].
  apply IH. by apply act_name_well_formed.
Qed.

(** Turning the cube, making a move and turning the cube back is the move
    that the table of the rotation gives. *)
Lemma act_unrotate (r x : string) (table : list (string * string)) (p : Piece) :
  in_rots r = true -> get_rot_table r = Some table -> valid_name x ->
  well_formed_piece p ->
  act_name (unrotate_move table x) p
  = act_name (_invert r) (act_name x (act_name r p)).
Proof.
  intros Hr Ht [m <-] Hp.
  well_formed_cases p Hp; rot_cases Hr; injection Ht as <-; destruct m;
    vm_compute; reflexivity.
Qed.

Lemma same_effect_refl (l : list string) : Forall valid_name l -> same_effect l l.
Proof. by split. Qed.

Lemma same_effect_trans (l k j : list string) :
  same_effect l k -> same_effect k j -> same_effect l j.
Proof.
  intros [_ H1] [Hv H2]. split; [exact Hv |].
  intros p Hp. by rewrite H2, H1.
Qed.

Lemma same_effect_cons (a : string) (l k : list string) :
  valid_name a -> same_effect l k -> same_effect (a :: l) (a :: k).
Proof.
  intros Ha [Hv H]. split; [by constructor |].
  intros p Hp. simpl. apply H. by apply act_name_well_formed.
Qed.

(** ** The cancel-pair rule *)

Lemma do_undo_pass_cons (a b : string) (rest : list string) :
  do_undo_pass (a :: b :: rest)
  = if String.eqb (_invert a) b then (fst (do_undo_pass rest), true)
    else (a :: fst (do_undo_pass (b :: rest)), snd (do_undo_pass (b :: rest))).
Proof.
  change (do_undo_pass (a :: b :: rest))
    with (if String.eqb (_invert a) b then (fst (do_undo_pass rest), true)
          else let '(moves', changed) := do_undo_pass (b :: rest) in
               (a :: moves', changed)).
  by destruct (do_undo_pass (b :: rest)).
Qed.

Lemma do_undo_pass_ind (P : list string -> list string * bool -> Prop) :
  P [] ([], false) ->
  (forall a, P [a] ([a], false)) ->
  (forall a b rest,
      String.eqb (_invert a) b = true ->
      P rest (do_undo_pass rest) ->
      P (a :: b :: rest) (fst (do_undo_pass rest), true)) ->
  (forall a b rest,
      String.eqb (_invert a) b = false ->
      P (b :: rest) (do_undo_pass (b :: rest)) ->
      P (a :: b :: rest)
        (a :: fst (do_undo_pass (b :: rest)), snd (do_undo_pass (b :: rest)))) ->
  forall l, P l (do_undo_pass l).
Proof.
  intros Hnil Hone Hcancel Hkeep l.
  assert (H : forall n l, (length l <= n)%nat -> P l (do_undo_pass l)).
  { clear l. induction n as [| n IH]; intros l Hl.
    - destruct l; [exact Hnil | simpl in Hl; lia].
    - destruct l as [| a [| b rest]]; [exact Hnil | apply Hone |].
      simpl in Hl. rewrite do_undo_pass_cons.
      destruct (String.eqb (_invert a) b) eqn:Hab.
      + apply Hcancel; [exact Hab |]. apply IH. lia.
      + apply Hkeep; [exact Hab |]. apply IH. simpl. lia. }
  apply (H (length l)). lia.
Qed.



Lemma do_undo_pass_effect (l : list string) :
  Forall valid_name l -> same_effect l (fst (do_undo_pass l)).
Proof.
  apply (do_undo_pass_ind
           (fun l r => Forall valid_name l -> same_effect l (fst r))); simpl.
  - apply same_effect_refl.
  - intros a. apply same_effect_refl.
  - intros a b rest Hab IH Hv.
    apply String.eqb_eq in Hab. subst b.
    apply Forall_cons_1 in Hv as [Ha Hv]. apply Forall_cons_1 in Hv as [_ Hv].
    destruct (IH Hv) as [Hv' Heff]. split; [exact Hv' |].
    intros p Hp. rewrite Heff by exact Hp. simpl.
    rewrite act_cancel; [reflexivity | exact Ha | by apply well_formed_piece_ok].
  - intros a b rest _ IH Hv.
    apply Forall_cons_1 in Hv as [Ha Hv].
    apply same_effect_cons; [exact Ha | by apply IH].
Qed.

Lemma do_undo_rec_effect (depth : nat) (l : list string) :
  Forall valid_name l -> same_effect l (do_undo_rec depth l).
Proof.
  revert l. induction depth as [| depth IH]; intros l Hv; [by apply same_effect_refl |].
  simpl. pose proof (do_undo_pass_effect l Hv) as Hpass.
  destruct (do_undo_pass l) as [l' [|]]; simpl in Hpass; [| exact Hpass].
  eapply same_effect_trans; [exact Hpass |]. apply IH. by destruct Hpass.
Qed.


(** ** The repeat-three rule *)


(** The loop needs no more iterations than the list is long. *)
Lemma repeat_three_pass_fuel (f1 f2 : nat) (l : list string) :
  (length l <= f1)%nat -> (length l <= f2)%nat ->
  repeat_three_pass f1 l = repeat_three_pass f2 l.
Proof.
  revert f2 l. induction f1 as [| f1 IH]; intros f2 l H1 H2.
  - destruct l; [| simpl in H1; lia]. by destruct f2.
  - destruct f2 as [| f2].
    + destruct l; [reflexivity | simpl in H2; lia].
    + simpl. destruct l as [| a [| b [| c rest]]]; try reflexivity.
      simpl in H1, H2.
      destruct (String.eqb a b && String.eqb b c).
      * rewrite (IH f2); [reflexivity | simpl; lia | simpl; lia].
      * rewrite (IH f2); [reflexivity | simpl; lia | simpl; lia].
Qed.


Lemma repeat_three_pass_effect (fuel : nat) (l : list string) :
  Forall valid_name l -> same_effect l (fst (repeat_three_pass fuel l)).
Proof.
  revert l. induction fuel as [| fuel IH]; intros l Hv; simpl;
    [by apply same_effect_refl |].
  destruct l as [| a [| b [| c rest]]]; simpl; try by apply same_effect_refl.
  destruct (String.eqb a b && String.eqb b c) eqn:Habc.
  - simpl. apply andb_true_iff in Habc as [Hab Hbc].
    apply String.eqb_eq in Hab, Hbc. subst b c.
    apply Forall_cons_1 in Hv as [Ha Hv]. apply Forall_cons_1 in Hv as [_ Hv].
    apply Forall_cons_1 in Hv as [_ Hv].
    eapply same_effect_trans; [| apply IH; constructor; [by apply valid_invert | exact Hv]].
    split; [constructor; [by apply valid_invert | exact Hv] |].
    intros p Hp. simpl.
    rewrite act_triple; [reflexivity | exact Ha | by apply well_formed_piece_ok].
  - apply Forall_cons_1 in Hv as [Ha Hv].
    specialize (IH (b :: c :: rest) Hv).
    destruct (repeat_three_pass fuel (b :: c :: rest)) as [l' ch]. simpl in *.
    by apply same_effect_cons.
Qed.

Lemma repeat_three_rec_effect (depth : nat) (l : list string) :
  Forall valid_name l -> same_effect l (repeat_three_rec depth l).
Proof.
  revert l. induction depth as [| depth IH]; intros l Hv; [by apply same_effect_refl |].
  simpl. pose proof (repeat_three_pass_effect (length l) l Hv) as Hpass.
  destruct (repeat_three_pass (length l) l) as [l' [|]]; simpl in Hpass; [| exact Hpass].
  eapply same_effect_trans; [exact Hpass |]. apply IH. by destruct Hpass.
Qed.


(** ** The rule that eliminates whole-cube rotations *)

Lemma split_at_last_spec (target : string) (l inner after : list string) :
  split_at_last target l = Some (inner, after) -> l = inner ++ target :: after.
Proof.
  revert inner after. induction l as [| a l IH]; intros inner after H; [discriminate H |].
  simpl in H. destruct (split_at_last target l) as [[inner' after'] |].
  - injection H as <- <-. simpl. f_equal. by apply IH.
  - destruct (String.eqb a target) eqn:Ha; [| discriminate H].
    injection H as <- <-. apply String.eqb_eq in Ha. by subst a.
Qed.

Lemma split_at_last_None (target : string) (l : list string) :
  existsb (fun a => String.eqb a target) l = false -> split_at_last target l = None.
Proof.
  induction l as [| a l IH]; intros H; [reflexivity |].
  simpl in *. apply orb_false_iff in H as [Ha Hl].
  by rewrite IH, Ha.
Qed.

Lemma unrotate_ok (m : string) (inner : list string) :
  in_rots m = true ->
  exists table,
    get_rot_table m = Some table /\
    _unrotate m inner = Ok (map (unrotate_move table) inner).
Proof.
  intros Hm. destruct (rot_table_total m Hm) as [table Ht].
  exists table. split; [exact Ht |]. unfold _unrotate. by rewrite Ht.
Qed.

(** The loop returns normally, never with a longer list, and with a
    shorter one when it reports a change. *)
Lemma no_rotation_pass_length (fuel : nat) (l : list string) :
  exists r,
    no_rotation_pass fuel l = Ok r /\
    (snd r = false -> fst r = l) /\
    (snd r = true -> (length (fst r) < length l)%nat) /\
    (length (fst r) <= length l)%nat.
Proof.
  revert l. induction fuel as [| fuel IH]; intros l; simpl.
  { eexists. split; [reflexivity |]. by repeat split. }
  destruct l as [| m rest].
  { eexists. split; [reflexivity |]. by repeat split. }
  assert (Hskip : exists r,
             rbind (no_rotation_pass fuel rest) (fun r => Ok (m :: fst r, snd r)) = Ok r /\
             (snd r = false -> fst r = m :: rest) /\
             (snd r = true -> (length (fst r) < length (m :: rest))%nat) /\
             (length (fst r) <= length (m :: rest))%nat).
  { destruct (IH rest) as ([l' ch] & -> & H1 & H2 & H3). simpl in *.
    eexists. split; [reflexivity |]. simpl. repeat split.
    - intros H. by rewrite H1.
    - intros H. specialize (H2 H). lia.
    - lia. }
  destruct (in_rots m) eqn:Hm; simpl; [| exact Hskip].
  destruct (split_at_last (_invert m) rest) as [[inner after] |] eqn:Hs; [| exact Hskip].
  apply split_at_last_spec in Hs. subst rest.
  destruct (unrotate_ok m inner Hm) as (table & _ & ->). simpl.
  destruct (map (unrotate_move table) inner ++ after) as [| h t] eqn:Hnew.
  - eexists. split; [reflexivity |]. simpl. repeat split; [discriminate | lia | lia].
  - assert (Hlen : length (h :: t) = (length inner + length after)%nat).
    { by rewrite <- Hnew, length_app, length_map. }
    simpl in Hlen.
    destruct (IH t) as ([l' ch] & -> & _ & _ & H3). simpl in *.
    eexists. split; [reflexivity |]. simpl.
    rewrite length_app. simpl.
    repeat split; [discriminate | lia | lia].
Qed.

(** The loop needs no more iterations than the list is long. *)
Lemma no_rotation_pass_fuel (f1 f2 : nat) (l : list string) :
  (length l <= f1)%nat -> (length l <= f2)%nat ->
  no_rotation_pass f1 l = no_rotation_pass f2 l.
Proof.
  revert f2 l. induction f1 as [| f1 IH]; intros f2 l H1 H2.
  - destruct l; [| simpl in H1; lia]. by destruct f2.
  - destruct f2 as [| f2].
    + destruct l; [reflexivity | simpl in H2; lia].
    + simpl. destruct l as [| m rest]; [reflexivity |].
      simpl in H1, H2.
      rewrite (IH f2 rest) by lia.
      destruct (in_rots m); simpl; [| reflexivity].
      destruct (split_at_last (_invert m) rest) as [[inner after] |] eqn:Hs;
        [| reflexivity].
      apply split_at_last_spec in Hs. subst rest.
      destruct (_unrotate m inner) as [inner' | e] eqn:Hu; [| reflexivity]. simpl.
      destruct (inner' ++ after) as [| h t] eqn:Hnew; [reflexivity |].
      assert (Hlen : (length (h :: t) <= length inner + length after)%nat).
      { rewrite <- Hnew, length_app.
        unfold _unrotate in Hu. destruct (get_rot_table m).
        - injection Hu as <-. by rewrite length_map.
        - destruct inner; [injection Hu as <-; simpl; lia | discriminate Hu]. }
      rewrite length_app in H1, H2. simpl in H1, H2, Hlen.
      rewrite (IH f2 t) by lia. reflexivity.
Qed.

Lemma no_rotation_rec_normal (depth : nat) (l : list string) :
  (length l < depth)%nat ->
  exists r,
    no_rotation_rec depth l = Ok r /\
    (length r <= length l)%nat /\
    no_rotation_pass (length r) r = Ok (r, false).
Proof.
  revert l. induction depth as [| depth IH]; intros l Hl; [lia |].
  simpl. destruct (no_rotation_pass_length (length l) l)
    as ([l' ch] & Hp & H1 & H2 & H3).
  rewrite Hp. simpl in *. destruct ch.
  - specialize (H2 eq_refl).
    destruct (IH l') as (r & Hr & Hlen & Hn); [lia |].
    exists r. split; [exact Hr |]. split; [lia | exact Hn].
  - specialize (H1 eq_refl). subst l'. exists l. by repeat split.
Qed.

Lemma invert_invert (a : string) : valid_name a -> _invert (_invert a) = a.
Proof. intros [m <-]. by destruct m. Qed.

Lemma in_rots_valid (m : string) : in_rots m = true -> valid_name m.
Proof. intros Hm. apply in_rots_cases in Hm as (r & <- & _). by exists r. Qed.

(** Between a rotation and its inverse, the moves one by one through the
    table do what the whole bracket does. *)
Lemma act_unrotate_list (m : string) (table : list (string * string))
    (inner : list string) (p : Piece) :
  in_rots m = true -> get_rot_table m = Some table ->
  Forall valid_name inner -> well_formed_piece p ->
  act (map (unrotate_move table) inner) p
  = act_name (_invert m) (act inner (act_name m p)).
Proof.
  intros Hm Ht Hv. revert p. induction Hv as [| x inner Hx _ IH]; intros p Hp.
  - simpl. rewrite act_cancel;
      [reflexivity | by apply in_rots_valid | by apply well_formed_piece_ok].
  - simpl. rewrite IH by by apply act_name_well_formed.
    rewrite (act_unrotate m x table p Hm Ht Hx Hp).
    do 2 f_equal.
    rewrite <- (invert_invert m) at 1 by by apply in_rots_valid.
    apply act_cancel; [by apply valid_invert, in_rots_valid |].
    apply well_formed_piece_ok. by do 2 apply act_name_well_formed.
Qed.

Lemma no_rotation_pass_effect (fuel : nat) (l : list string) :
  Forall valid_name l ->
  exists r, no_rotation_pass fuel l = Ok r /\ same_effect l (fst r).
Proof.
  revert l. induction fuel as [| fuel IH]; intros l Hv; simpl.
  { eexists. split; [reflexivity |]. by apply same_effect_refl. }
  destruct l as [| m rest].
  { eexists. split; [reflexivity |]. by apply same_effect_refl. }
  apply Forall_cons_1 in Hv as [Hm Hrest].
  assert (Hskip : exists r,
             rbind (no_rotation_pass fuel rest) (fun r => Ok (m :: fst r, snd r)) = Ok r /\
             same_effect (m :: rest) (fst r)).
  { destruct (IH rest Hrest) as ([l' ch] & -> & Heff). simpl in *.
    eexists. split; [reflexivity |]. by apply same_effect_cons. }
  destruct (in_rots m) eqn:Hrot; simpl; [| exact Hskip].
  destruct (split_at_last (_invert m) rest) as [[inner after] |] eqn:Hs; [| exact Hskip].
  apply split_at_last_spec in Hs. subst rest.
  apply Forall_app in Hrest as [Hinner Hafter].
  apply Forall_cons_1 in Hafter as [_ Hafter].
  destruct (unrotate_ok m inner Hrot) as (table & Ht & ->). simpl.
  assert (Hnew : same_effect (m :: inner ++ _invert m :: after)
                             (map (unrotate_move table) inner ++ after)).
  { split.
    - apply Forall_app. split; [| exact Hafter].
      apply Forall_map. eapply Forall_impl; [exact Hinner |].
      intros x Hx. by apply (valid_unrotate m).
    - intros p Hp. rewrite act_app.
      rewrite (act_unrotate_list m table inner p Hrot Ht Hinner Hp).
      change (act (m :: inner ++ _invert m :: after) p)
        with (act (inner ++ _invert m :: after) (act_name m p)).
      by rewrite act_app. }
  destruct (map (unrotate_move table) inner ++ after) as [| h t].
  - eexists. split; [reflexivity |]. exact Hnew.
  - destruct Hnew as [Hvnew Heff]. apply Forall_cons_1 in Hvnew as [Hh Ht'].
    destruct (IH t Ht') as ([l' ch] & -> & Heff'). simpl in Heff'.
    eexists. split; [reflexivity |]. cbn [fst].
    eapply same_effect_trans; [split; [| exact Heff]; by constructor |].
    by apply same_effect_cons.
Qed.

Lemma no_rotation_rec_effect (depth : nat) (l : list string) :
  Forall valid_name l ->
  exists r, no_rotation_rec depth l = Ok r /\ same_effect l r.
Proof.
  revert l. induction depth as [| depth IH]; intros l Hv; simpl.
  { eexists. split; [reflexivity |]. by apply same_effect_refl. }
  destruct (no_rotation_pass_effect (length l) l Hv) as ([l' ch] & -> & Heff).
  simpl in *. destruct ch.
  - destruct (IH l') as (r & Hr & Heff'); [by destruct Heff |].
    exists r. split; [exact Hr |]. by eapply same_effect_trans.
  - eexists. split; [reflexivity | exact Heff].
Qed.

Lemma no_rotation_pass_no_pair (fuel : nat) (l : list string) :
  no_rotation_pair l = true -> no_rotation_pass fuel l = Ok (l, false).
Proof.
  revert l. induction fuel as [| fuel IH]; intros l Hl; [reflexivity |].
  simpl. destruct l as [| m rest]; [reflexivity |].
  simpl in Hl. apply andb_true_iff in Hl as [Hm Hrest].
  rewrite (IH rest Hrest). simpl.
  destruct (in_rots m); simpl; [| reflexivity].
  simpl in Hm. apply negb_true_iff in Hm.
  by rewrite (split_at_last_None _ _ Hm).
Qed.

(** ** optimize_moves *)

Lemma optimize_moves_effect (l : list string) :
  Forall valid_name l ->
  exists out, optimize_moves l = Ok out /\ same_effect l out.
Proof.
  intros Hv. unfold optimize_moves, apply_no_full_cube_rotation_optimization.
  destruct (no_rotation_rec_effect (S (length l)) l Hv) as (r & -> & Hr).
  simpl. eexists. split; [reflexivity |].
  eapply same_effect_trans; [exact Hr |].
  eapply same_effect_trans.
  - apply repeat_three_rec_effect. by destruct Hr.
  - apply do_undo_rec_effect.
    by destruct (repeat_three_rec_effect (S (length r)) r (proj1 Hr)).
Qed.

(** ** Replaying a list of move names *)

Lemma string_app_cons (ch : ascii) (s t : string) :
  (String ch s ++ t)%string = String ch (s ++ t)%string.
Proof. reflexivity. Qed.

Lemma string_app_assoc (s t u : string) :
  ((s ++ t) ++ u)%string = (s ++ (t ++ u))%string.
Proof.
  induction s as [| ch s IH]; [reflexivity |].
  by rewrite !string_app_cons, IH.
Qed.

Lemma string_app_nil_r (s : string) : (s ++ "")%string = s.
Proof.
  induction s as [| ch s IH]; [reflexivity |].
  by rewrite string_app_cons, IH.
Qed.

Lemma split_from_no_space (s tok rest : string) :
  no_space s = true ->
  split_from tok (s ++ rest)%string = split_from (tok ++ s)%string rest.
Proof.
  revert tok. induction s as [| ch s IH]; intros tok Hs.
  - by rewrite string_app_nil_r.
  - simpl in Hs. apply andb_true_iff in Hs as [Hch Hs].
    apply negb_true_iff in Hch.
    rewrite string_app_cons. cbn [split_from]. rewrite Hch.
    rewrite IH by exact Hs. by rewrite string_app_assoc.
Qed.

Lemma split_join (names : list string) :
  Forall (fun s => s <> EmptyString /\ no_space s = true) names ->
  split (join names) = names.
Proof.
  intros H. induction H as [| a names [Ha Hs] Hrest IH]; [reflexivity |].
  unfold split, join in *. cbn [String.concat].
  destruct names as [| b names].
  - rewrite <- (string_app_nil_r a) at 1.
    rewrite split_from_no_space by exact Hs.
    cbn. by destruct a.
  - rewrite split_from_no_space by exact Hs.
    change (split_from ("" ++ a) (" " ++ String.concat " " (b :: names)))
      with (match a with
            | EmptyString => split_from EmptyString (String.concat " " (b :: names))
            | _ => a :: split_from EmptyString (String.concat " " (b :: names))
            end).
    rewrite IH. by destruct a.
Qed.

Lemma valid_name_token (s : string) :
  valid_name s -> s <> EmptyString /\ no_space s = true.
Proof. intros [m <-]. by destruct m. Qed.

Lemma getattr_each_valid (other_attribute : string -> option (proc Cube unit))
    (names : list string) :
  Forall valid_name names ->
  exists moves,
    getattr_each other_attribute names = Ok moves /\
    forall c, Forall piece_ok c -> call_each moves c = (Ok tt, map (act names) c).
Proof.
  intros H. induction H as [| a names [m <-] _ (moves & Hmoves & Hcall)].
  - exists []. split; [reflexivity |]. intros c _. simpl. by rewrite map_id.
  - exists (method m :: moves). split.
    + simpl. unfold getattr. by rewrite of_name_name, Hmoves.
    + intros c Hc. cbn [call_each].
      rewrite (bind_ok _ _ _ _ _ (method_map m c Hc)).
      rewrite Hcall by by apply map_turned_ok.
      rewrite map_map. f_equal. apply map_ext. intros p.
      simpl. by rewrite act_name_move.
Qed.

Lemma replay_valid (other_attribute : string -> option (proc Cube unit))
    (names : list string) (c : Cube) :
  Forall valid_name names -> Forall piece_ok c ->
  replay other_attribute names c = (Ok tt, map (act names) c).
Proof.
  intros Hv Hc. unfold replay, sequence.
  rewrite split_join.
  - destruct (getattr_each_valid other_attribute names Hv) as (moves & -> & Hcall).
    by apply Hcall.
  - eapply Forall_impl; [exact Hv |]. apply valid_name_token.
Qed.

Lemma valid_names (ms : list Move.t) : Forall valid_name (map Move.name ms).
Proof. apply Forall_map, Forall_forall. intros m _. by exists m. Qed.



(** ** optimize_moves applied twice *)




(** * More of the code: verification *)

(** ** Equality by comparison *)

Lemma peqb_eq (a b : Point) : peqb a b = true <-> a = b.
Proof.
  destruct a, b. unfold peqb. simpl.
  rewrite !andb_true_iff, !Z.eqb_eq. split.
  - by intros [[-> ->] ->].
  - intros H. by injection H as -> -> ->.
Qed.

Lemma peqb_refl (a : Point) : peqb a a = true.
Proof. by apply peqb_eq. Qed.

Lemma first_ref_spec (f : Piece -> bool) (c : Cube) :
  match first_ref f c with
  | Some r => exists p, c !! r = Some p /\ f p = true
  | None => forall r p, c !! r = Some p -> f p = false
  end.
Proof.
  unfold first_ref. destruct (select f c) as [| r l] eqn:Hs; simpl.
  - intros r p Hp. destruct (f p) eqn:Hf; [| reflexivity].
    assert (Hin : r ∈ select f c) by (apply select_spec; eauto).
    rewrite Hs in Hin. inversion Hin.
  - apply select_spec. rewrite Hs. left.
Qed.

(** X1.  [Matrix.__mul__] composes: the product of two matrices applied
    to a point is the second applied first, then the first; and the
    product of matrices is associative. *)
Theorem matrix_product_composes (a b c : Matrix) (p : Point) :
  mmul_point (mmul a b) p = mmul_point a (mmul_point b p) /\
  mmul (mmul a b) c = mmul a (mmul b c).
Proof.
  destruct a, b, c, p. unfold mmul_point, mmul, rows, cols, dot. simpl.
  split; f_equal; ring.
Qed.

(** X2.  [Matrix.__add__] and [Matrix.__sub__] undo each other, entry by
    entry, in either order, and the sum does not depend on the order of
    its operands. *)
Theorem matrix_add_then_sub (a b : Matrix) :
  msub (madd a b) b = a /\ madd (msub a b) b = a /\ madd a b = madd b a.
Proof.
  destruct a, b. unfold madd, msub. simpl. repeat split; f_equal; ring.
Qed.

(** X3.  [Point.cross]: the cross product of two points has dot product 0
    with each of them, and swapping the operands gives the product times
    -1. *)
Theorem cross_orthogonal (a b : Point) :
  dot (cross a b) a = 0 /\
  dot (cross a b) b = 0 /\
  cross b a = pmul (cross a b) (-1).
Proof.
  destruct a, b. unfold dot, cross, pmul. simpl.
  repeat split; [ring | ring | f_equal; ring].
Qed.

(** X4.  Each of the six rotation matrices of [cube.py] keeps the dot
    product of two points, maps their cross product to the cross product
    of their images, and multiplied four times with itself gives the
    identity matrix. *)
Theorem rotation_matrix_isometry (r : Matrix) (p q : Point) :
  In r (map fst rotations) ->
  dot (mmul_point r p) (mmul_point r q) = dot p q /\
  cross (mmul_point r p) (mmul_point r q) = mmul_point r (cross p q) /\
  mmul r (mmul r (mmul r r)) = identity_matrix.
Proof.
  intros Hr. destruct p as [x y z], q as [x' y' z']. simpl in Hr.
  repeat (destruct Hr as [<- | Hr];
          [split; [| split];
           [cbv [mmul_point rows dot ROT_XY_CW ROT_XY_CC ROT_XZ_CW ROT_XZ_CC
                   ROT_YZ_CW ROT_YZ_CC m0 m1 m2 m3 m4 m5 m6 m7 m8 px py pz]; ring
           | cbv [mmul_point rows dot cross ROT_XY_CW ROT_XY_CC ROT_XZ_CW ROT_XZ_CC
                    ROT_YZ_CW ROT_YZ_CC m0 m1 m2 m3 m4 m5 m6 m7 m8 px py pz];
             f_equal; ring
           | reflexivity] |]).
  contradiction.
Qed.

Lemma rotation_matrix_isometry_witness :
  dot (mmul_point ROT_XY_CW (mkPoint 1 0 (-1))) (mmul_point ROT_XY_CW (mkPoint 1 1 0)) = 1.
Proof.
  destruct (rotation_matrix_isometry ROT_XY_CW (mkPoint 1 0 (-1)) (mkPoint 1 1 0)) as [H _].
  - simpl. auto.
  - exact H.
Defined.

Ltac this_face mv :=
  split; [simpl; auto 10 |]; exists mv;
  split; [reflexivity |]; split; [reflexivity |];
  let p := fresh "p" in
  let Hp := fresh "Hp" in
  let H := fresh "H" in
  intros p Hp; lattice_cases p Hp; split; intros H;
  first [reflexivity | exfalso; vm_compute in H; first [discriminate H | apply H; reflexivity]].

(** X5.  [get_rot_from_face] returns a pair of names exactly for the six
    face vectors, and [None] for every other point.  The pair names a
    move method and its inverse; the first leaves every piece that is not
    on the side of the face where it is, and keeps the pieces of that
    side on it. *)
Theorem get_rot_from_face_names (face : Point) :
  match get_rot_from_face face with
  | Some (cw, cc) =>
      In face [RIGHT; LEFT; UP; DOWN; FRONT; BACK] /\
      exists m,
        Move.name m = cw /\ Move.name (Move.inverse m) = cc /\
        forall p, piece_ok p ->
          (dot (pos p) face <= 0 -> turned m p = p) /\
          (0 < dot (pos p) face -> 0 < dot (pos (turned m p)) face)
  | None => ~ In face [RIGHT; LEFT; UP; DOWN; FRONT; BACK]
  end.
Proof.
  unfold get_rot_from_face.
  destruct (peqb face RIGHT) eqn:H1; [apply peqb_eq in H1; subst face; this_face Move.R |].
  destruct (peqb face LEFT) eqn:H2; [apply peqb_eq in H2; subst face; this_face Move.L |].
  destruct (peqb face UP) eqn:H3; [apply peqb_eq in H3; subst face; this_face Move.U |].
  destruct (peqb face DOWN) eqn:H4; [apply peqb_eq in H4; subst face; this_face Move.D |].
  destruct (peqb face FRONT) eqn:H5; [apply peqb_eq in H5; subst face; this_face Move.F |].
  destruct (peqb face BACK) eqn:H6; [apply peqb_eq in H6; subst face; this_face Move.B |].
  intros Hin. simpl in Hin.
  destruct Hin as [<- | [<- | [<- | [<- | [<- | [<- | []]]]]]]; discriminate.
Qed.

(** ** Piece.__init__ *)

(** [Piece.__init__] by cases. *)
Lemma Piece_init_cases (p : Point) (cs : list color) :
  Piece_init p cs =
    if negb (on_lattice p) || negb (length cs =? 3)%nat then Raise AssertionError
    else
      match count_None cs with
      | 0%nat => Ok (mkPiece p cs CORNER)
      | 1%nat => Ok (mkPiece p cs EDGE)
      | 2%nat => Ok (mkPiece p cs FACE)
      | _ => Raise ValueError
      end.
Proof.
  unfold Piece_init.
  assert (H : forallb (fun v => (v =? -1) || (v =? 0) || (v =? 1)) (piter p)
              = on_lattice p).
  { assert (Hv : forall v, (v =? -1) || (v =? 0) || (v =? 1) = (-1 <=? v) && (v <=? 1)).
    { intros v.
      destruct (v =? -1) eqn:E1, (v =? 0) eqn:E2, (v =? 1) eqn:E3,
        (-1 <=? v) eqn:E4, (v <=? 1) eqn:E5; try reflexivity; lia. }
    destruct p. unfold on_lattice. simpl. by rewrite !Hv. }
  rewrite H. destruct (on_lattice p); simpl; [| reflexivity].
  destruct (length cs =? 3)%nat; simpl; [| reflexivity].
  unfold _set_piece_type.
  destruct (count_None cs) as [| [| [| n]]]; reflexivity.
Qed.

(** ** Cube.__init__ *)

(** X7.  [Cube.__init__] succeeds exactly on the strings that have 54
    characters once those of [string.whitespace] are discarded, and
    raises [AssertionError] on all others.  The cube it builds has 26
    pieces at the 26 distinct positions around the centre, stickers on
    the axes of each position, and in its store 6 face pieces, then 12
    edges, then 8 corners. *)
Theorem Cube_init_cases (cube_str : string) :
  let s := remove_whitespace (list_ascii_of_string cube_str) in
  if (length s =? 54)%nat then
    exists c,
      Cube_init cube_str = Ok c /\
      well_formed c /\
      map type c = repeat FACE 6 ++ repeat EDGE 12 ++ repeat CORNER 8
  else Cube_init cube_str = Raise AssertionError.
Proof.
  intros s. destruct (length s =? 54)%nat eqn:Hlen.
  - destruct (Cube_init cube_str) as [c | e] eqn:Hc.
    + exists c. split; [reflexivity |].
      split; [by apply (Cube_init_well_formed cube_str) |].
      revert Hc. unfold Cube_init. fold s. rewrite Hlen.
      apply Nat.eqb_eq in Hlen. clearbody s. spell_out s Hlen.
      vm_compute. intros H. by injection H as <-.
    + exfalso. revert Hc. unfold Cube_init. fold s. rewrite Hlen.
      apply Nat.eqb_eq in Hlen. clearbody s. spell_out s Hlen.
      vm_compute. discriminate.
  - unfold Cube_init. fold s. by rewrite Hlen.
Qed.

Lemma turned_typed (m : Move.t) (p : Piece) :
  well_formed_piece p -> typed p -> typed (turned m p).
Proof.
  intros Hwf Ht. well_formed_cases p Hwf; unfold typed in *; vm_compute in Ht;
    first [discriminate Ht | injection Ht as <-; destruct m; reflexivity].
Qed.

Lemma Cube_init_typed (cube_str : string) (c : Cube) :
  Cube_init cube_str = Ok c -> Forall typed c.
Proof.
  unfold Cube_init.
  set (s := remove_whitespace (list_ascii_of_string cube_str)).
  destruct (length s =? 54)%nat eqn:Hlen; [| discriminate].
  apply Nat.eqb_eq in Hlen. clearbody s. spell_out s Hlen.
  vm_compute. intros H. injection H as <-.
  repeat constructor.
Qed.

Lemma reachable_typed (c : Cube) : reachable c -> Forall typed c.
Proof.
  induction 1 as [cube_str c Hinit | m c c' Hr IH Hm].
  - by apply (Cube_init_typed cube_str).
  - pose proof (reachable_well_formed c Hr) as Hwf.
    rewrite (method_map m c (well_formed_ok c Hwf)) in Hm.
    injection Hm as <-. apply Forall_map.
    destruct Hwf as [_ _ _ Hp].
    rewrite Forall_forall in *. intros p Hin.
    apply turned_typed; auto.
Qed.

Lemma from_cube_id (c : Cube) :
  Forall piece_ok c -> Forall typed c -> _from_cube c = Ok c.
Proof.
  intros Hok Hty. induction c as [| p c IH]; [reflexivity |].
  apply Forall_cons_1 in Hok as [[Hl Hc] Hok].
  apply Forall_cons_1 in Hty as [Ht Hty].
  cbn [_from_cube]. unfold Piece_init.
  assert (H : forallb (fun v => (v =? -1) || (v =? 0) || (v =? 1)) (piter (pos p)) = true).
  { apply forallb_forall. intros v Hv.
    unfold on_lattice in Hl. rewrite forallb_forall in Hl.
    specialize (Hl v Hv). apply andb_true_iff in Hl as [H1 H2].
    destruct (v =? -1) eqn:E1, (v =? 0) eqn:E2, (v =? 1) eqn:E3; try reflexivity; lia. }
  rewrite H, Hc. simpl. unfold typed in Ht. rewrite Ht. simpl.
  rewrite (IH Hok Hty). simpl. by destruct p.
Qed.

(** X9.  [Cube._from_cube], the copy made by [Cube(c)]: for a cube that
    was built from a sticker string and turned by move methods, every
    piece is constructed again without error, the copy holds the same
    pieces in the same order, and it is equal to the original by
    [Cube.__eq__]. *)
Theorem copy_of_reachable_cube (c : Cube) :
  reachable c ->
  exists copy, _from_cube c = Ok copy /\ copy = c /\ Cube_eq copy c = Ok true.
Proof.
  intros Hr. exists c.
  split; [by apply from_cube_id; [apply reachable_ok | apply reachable_typed] |].
  split; [reflexivity | by apply Cube_eq_refl, reachable_ok].
Qed.

Lemma copy_of_reachable_cube_witness :
  exists copy, _from_cube solved_cube = Ok copy /\ copy = solved_cube /\
               Cube_eq copy solved_cube = Ok true.
Proof.
  apply copy_of_reachable_cube.
  exact (reachable_init SOLVED_CUBE_STR solved_cube solved_cube_init).
Defined.

(** X10.  [Cube.get_piece] on a cube that satisfies the invariant: for
    each of the 26 positions around the centre it returns the one piece
    of the store that is at this position, and for every other point
    (the centre, or off the lattice) it returns [None]. *)
Theorem get_piece_at (c : Cube) (pt : Point) :
  well_formed c ->
  if bool_decide (pt ∈ cubie_positions) then
    exists r p,
      get_piece pt c = Some r /\ c !! r = Some p /\ pos p = pt /\
      forall r' p', c !! r' = Some p' -> pos p' = pt -> r' = r
  else get_piece pt c = None.
Proof.
  intros Hwf. pose proof (well_formed_positions c Hwf) as Hperm.
  pose proof (first_ref_spec (fun p => peqb (pos p) pt) c) as Hfirst.
  unfold get_piece. case_bool_decide as Hin.
  - destruct (first_ref _ c) as [r |].
    + destruct Hfirst as (p & Hp & Hf). apply peqb_eq in Hf.
      exists r, p. repeat split; try done.
      intros r' p' Hp' Hpos.
      apply (NoDup_lookup (map pos c) r' r pt).
      * apply Hwf.
      * by rewrite list_lookup_fmap, Hp'; simpl; rewrite Hpos.
      * by rewrite list_lookup_fmap, Hp; simpl; rewrite Hf.
    + exfalso. rewrite <- Hperm in Hin.
      apply list_elem_of_fmap in Hin as (p & -> & Hp).
      apply list_elem_of_lookup in Hp as [r Hr].
      specialize (Hfirst r p Hr).
      assert (peqb (pos p) (pos p) = true) by by apply peqb_eq.
      congruence.
  - destruct (first_ref _ c) as [r |]; [| reflexivity].
    exfalso. destruct Hfirst as (p & Hp & Hf). apply peqb_eq in Hf.
    apply Hin. rewrite <- Hperm. apply list_elem_of_fmap. exists p.
    split; [done |]. apply list_elem_of_lookup. eauto.
Qed.

Lemma get_piece_at_witness :
  exists r p,
    get_piece (mkPoint 1 1 1) solved_cube = Some r /\ solved_cube !! r = Some p /\
    pos p = mkPoint 1 1 1.
Proof.
  pose proof (get_piece_at solved_cube (mkPoint 1 1 1) solved_cube_well_formed) as H.
  assert (Hb : bool_decide (mkPoint 1 1 1 ∈ cubie_positions) = true) by (vm_compute; reflexivity).
  rewrite Hb in H.
  destruct H as (r & p & H1 & H2 & H3 & _). by exists r, p.
Defined.

(** ** Cube.find_piece *)

Lemma colors_turned (m : Move.t) (p : Piece) :
  piece_ok p -> Permutation (colors (turned m p)) (colors p).
Proof.
  intros Hp. lattice_cases p Hp; destruct m;
    first [ reflexivity
          | apply perm_swap
          | apply perm_skip, perm_swap
          | apply (Permutation_rev [_; _; _]) ].
Qed.

Lemma select_from_ext (f g : Piece -> bool) (c : list Piece) (n : nat) :
  Forall (fun p => f p = g p) c -> select_from n f c = select_from n g c.
Proof.
  intros H. revert n. induction H as [| p c Hp _ IH]; intros n; simpl; [reflexivity |].
  by rewrite Hp, IH.
Qed.

Lemma select_from_map (f : Piece -> bool) (g : Piece -> Piece) (c : list Piece) (n : nat) :
  select_from n f (map g c) = select_from n (fun p => f (g p)) c.
Proof. revert n. induction c as [| p c IH]; intros n; simpl; [reflexivity |]. by rewrite IH. Qed.

Lemma existsb_perm {A} (f : A -> bool) (l k : list A) :
  Permutation l k -> existsb f l = existsb f k.
Proof.
  intros H. induction H; simpl; try congruence.
  by destruct (f x), (f y).
Qed.

Lemma count_None_perm (l k : list color) :
  Permutation l k -> count_None l = count_None k.
Proof.
  intros H. unfold count_None. induction H; simpl; try congruence.
  - destruct (color_eqb x None); simpl; congruence.
  - destruct (color_eqb x None), (color_eqb y None); reflexivity.
Qed.

(** X11.  [Cube.find_piece] does not depend on where the pieces are: after
    any move method it returns the same piece of the store, for the same
    colours, as before the move. *)
Theorem find_piece_after_move (m : Move.t) (cs : list color) (c : Cube) :
  Forall piece_ok c ->
  exists c', method m c = (Ok tt, c') /\ find_piece cs c' = find_piece cs c.
Proof.
  intros Hok. exists (map (turned m) c). split; [by apply method_map |].
  unfold find_piece. destruct (existsb (color_eqb None) cs); [reflexivity |].
  unfold first_ref, select. f_equal.
  rewrite select_from_map. apply select_from_ext.
  eapply Forall_impl; [exact Hok |]. intros p Hp. simpl.
  pose proof (colors_turned m p Hp) as Hperm.
  rewrite (count_None_perm _ _ Hperm). f_equal.
  induction cs as [| v cs IH]; simpl; [reflexivity |].
  by rewrite IH, (existsb_perm _ _ _ Hperm).
Qed.

Lemma find_piece_after_move_witness :
  exists c', method Move.R solved_cube = (Ok tt, c') /\
             find_piece [Some "W"%char; Some "G"%char] c'
             = find_piece [Some "W"%char; Some "G"%char] solved_cube.
Proof. exact (find_piece_after_move Move.R _ solved_cube solved_cube_ok). Defined.

(** ** Cube.is_solved *)

Lemma face_length (face : Point) (c : Cube) :
  well_formed c -> In face [RIGHT; LEFT; UP; DOWN; FRONT; BACK] ->
  exists refs, _face face c = Ok refs /\ length refs = 9%nat /\
               Forall (fun r => (r < length c)%nat) refs.
Proof.
  intros Hwf Hin. exists (select (fun p => 0 <? dot (pos p) face) c).
  split; [| split].
  - simpl in Hin. by destruct Hin as [<- | [<- | [<- | [<- | [<- | [<- | []]]]]]].
  - rewrite (select_count (fun pt => 0 <? dot pt face) c Hwf).
    simpl in Hin. by destruct Hin as [<- | [<- | [<- | [<- | [<- | [<- | []]]]]]].
  - apply select_valid.
Qed.

Lemma check_face_total (face : Point) (i : nat) (c : Cube) :
  well_formed c -> In face [RIGHT; LEFT; UP; DOWN; FRONT; BACK] -> (i < 3)%nat ->
  exists b, check_face face i c = Ok b.
Proof.
  intros Hwf Hin Hi. unfold check_face.
  destruct (face_length face c Hwf Hin) as (refs & -> & Hlen & Hrefs). simpl.
  destruct (slot_of_each_total c i refs (well_formed_ok c Hwf) Hi Hrefs) as [l Hl].
  rewrite Hl. simpl. unfold check.
  assert (Hl9 : length l = 9%nat).
  { rewrite <- Hlen. clear -Hl. revert l Hl.
    induction refs as [| r refs IH]; intros l Hl; simpl in Hl.
    - by injection Hl as <-.
    - destruct (deref c r); [| discriminate]. simpl in Hl.
      destruct (color_slot a i); [| discriminate]. simpl in Hl.
      destruct (slot_of_each c i refs); [| discriminate]. simpl in Hl.
      injection Hl as <-. simpl. f_equal. by apply IH. }
  rewrite Hl9. simpl. eauto.
Qed.

(** X12.  [Cube.is_solved] never fails on a cube that satisfies the
    invariant: each of the six faces has nine pieces, so none of the
    assertions of [check] fails and no colour slot is missing, and the
    method returns a boolean. *)
Theorem is_solved_total (c : Cube) :
  well_formed c -> exists b, is_solved c = Ok b.
Proof.
  intros Hwf. unfold is_solved.
  repeat match goal with
         | |- context [check_face ?f ?i c] =>
             let b := fresh "b" in
             let H := fresh "H" in
             destruct (check_face_total f i c Hwf) as [b H];
             [simpl; auto 10 | lia |]; rewrite H; simpl; destruct b; [| eauto]
         end.
  eauto.
Qed.

Lemma is_solved_total_witness : exists b, is_solved solved_cube = Ok b.
Proof. exact (is_solved_total solved_cube solved_cube_well_formed). Defined.

(** ** Cube.__eq__ *)

Lemma color_list_init (cube_str : string) :
  let s := remove_whitespace (list_ascii_of_string cube_str) in
  length s = 54%nat ->
  exists c, Cube_init cube_str = Ok c /\ _color_list c = Ok (map Some s).
Proof.
  intros s Hlen. unfold Cube_init. fold s. clearbody s. spell_out s Hlen.
  eexists. split; reflexivity.
Qed.

(** X13.  [Cube.__eq__] compares sticker strings: two cubes built from
    strings with 54 characters apart from whitespace are equal exactly
    when the two strings are the same once whitespace is discarded. *)
Theorem cubes_equal_by_stickers (s1 s2 : string) :
  let r1 := remove_whitespace (list_ascii_of_string s1) in
  let r2 := remove_whitespace (list_ascii_of_string s2) in
  length r1 = 54%nat -> length r2 = 54%nat ->
  exists c1 c2,
    Cube_init s1 = Ok c1 /\ Cube_init s2 = Ok c2 /\
    Cube_eq c1 c2 = Ok (bool_decide (r1 = r2)).
Proof.
  intros r1 r2 H1 H2.
  destruct (color_list_init s1 H1) as (c1 & Hc1 & Hl1).
  destruct (color_list_init s2 H2) as (c2 & Hc2 & Hl2).
  exists c1, c2. split; [exact Hc1 |]. split; [exact Hc2 |].
  unfold Cube_eq. rewrite Hl1, Hl2. simpl. f_equal.
  fold r1 r2. apply bool_decide_ext. split; [| by intros ->].
  intros H. revert H. generalize r2. clear.
  induction r1 as [| a r1 IH]; intros [| b r2] H; try discriminate H; [reflexivity |].
  simpl in H. injection H as -> H. f_equal. by apply IH.
Qed.

Lemma cubes_equal_by_stickers_witness :
  exists c1 c2,
    Cube_init SOLVED_CUBE_STR = Ok c1 /\
    Cube_init "OOO OOO OOO YYYWWWGGGBBB YYYWWWGGGBBB YYYWWWGGGBBB RRR RRR RRR" = Ok c2 /\
    Cube_eq c1 c2 = Ok true.
Proof.
  exact (cubes_equal_by_stickers SOLVED_CUBE_STR
           "OOO OOO OOO YYYWWWGGGBBB YYYWWWGGGBBB YYYWWWGGGBBB RRR RRR RRR"
           eq_refl eq_refl).
Defined.

(** ** Whole-cube rotations and layers *)

(** X14.  A whole-cube rotation is the turn of its three layers: on a
    store of pieces with lattice positions and three colour slots, [X]
    leaves what [R], [Mi], [Li] in a row leave, [Y] what [U], [Ei], [Di]
    leave, and [Z] what [F], [S], [Bi] leave. *)
Theorem rotation_is_three_layer_turns (c : Cube) :
  Forall piece_ok c ->
  call_each [method Move.R; method Move.Mi; method Move.Li] c = method Move.X c /\
  call_each [method Move.U; method Move.Ei; method Move.Di] c = method Move.Y c /\
  call_each [method Move.F; method Move.S; method Move.Bi] c = method Move.Z c.
Proof.
  intros Hok.
  assert (H : forall a b d e,
             (forall p, piece_ok p -> turned d (turned b (turned a p)) = turned e p) ->
             call_each [method a; method b; method d] c = method e c).
  { intros a b d e Hp. cbn [call_each].
    rewrite (bind_ok _ _ _ _ _ (method_map a c Hok)).
    rewrite (bind_ok _ _ _ _ _ (method_map b _ (map_turned_ok a c Hok))).
    rewrite (bind_ok _ _ _ _ _ (method_map d _ (map_turned_ok b _ (map_turned_ok a c Hok)))).
    rewrite (method_map e c Hok). unfold ret. f_equal.
    rewrite !map_map. apply map_ext_Forall.
    eapply Forall_impl; [exact Hok |]. exact Hp. }
  repeat split; apply H; intros p Hp; lattice_cases p Hp; reflexivity.
Qed.

Lemma rotation_is_three_layer_turns_witness :
  call_each [method Move.R; method Move.Mi; method Move.Li] solved_cube
  = method Move.X solved_cube.
Proof. exact (proj1 (rotation_is_three_layer_turns solved_cube solved_cube_ok)). Defined.

Lemma turned_commute (a b : Move.t) (p : Piece) :
  axis_of a = axis_of b -> piece_ok p -> turned b (turned a p) = turned a (turned b p).
Proof.
  intros Hab Hp. destruct a, b; try discriminate Hab; clear Hab;
    lattice_cases p Hp; reflexivity.
Qed.

(** X15.  Two move methods that turn about the same axis (layers of one
    axis, or the rotation about it) can be called in either order: the
    store they leave is the same. *)
Theorem same_axis_moves_commute (a b : Move.t) (c : Cube) :
  axis_of a = axis_of b -> Forall piece_ok c ->
  call_each [method a; method b] c = call_each [method b; method a] c.
Proof.
  intros Hab Hok. cbn [call_each].
  rewrite (bind_ok _ _ _ _ _ (method_map a c Hok)).
  rewrite (bind_ok _ _ _ _ _ (method_map b _ (map_turned_ok a c Hok))).
  rewrite (bind_ok _ _ _ _ _ (method_map b c Hok)).
  rewrite (bind_ok _ _ _ _ _ (method_map a _ (map_turned_ok b c Hok))).
  f_equal. rewrite !map_map. apply map_ext_Forall.
  eapply Forall_impl; [exact Hok |]. intros p. by apply turned_commute.
Qed.

Lemma same_axis_moves_commute_witness :
  call_each [method Move.L; method Move.Ri] solved_cube
  = call_each [method Move.Ri; method Move.L] solved_cube.
Proof. exact (same_axis_moves_commute Move.L Move.Ri solved_cube eq_refl solved_cube_ok). Defined.

(** ** Cube.sequence composes *)

Lemma split_from_app_space (a tok b : string) :
  split_from tok (a ++ String " " b) = (split_from tok a ++ split b)%list.
Proof.
  revert tok. induction a as [| ch a IH]; intros tok.
  - cbn [String.append split_from]. change (isspace " ") with true. cbn iota.
    by destruct tok.
  - rewrite string_app_cons. cbn [split_from].
    destruct (isspace ch).
    + destruct tok; by rewrite IH.
    + apply IH.
Qed.

Lemma sequence_valid (other_attribute : string -> option (proc Cube unit))
    (move_str : string) (c : Cube) :
  Forall valid_name (split move_str) -> Forall piece_ok c ->
  sequence other_attribute move_str c = (Ok tt, map (act (split move_str)) c).
Proof.
  intros Hv Hc. unfold sequence.
  destruct (getattr_each_valid other_attribute _ Hv) as (moves & -> & Hcall).
  by apply Hcall.
Qed.

(** X16.  [Cube.sequence] on two strings of move names joined by a space
    does what [sequence] on the first followed by [sequence] on the second
    does; the amount of whitespace between the names plays no role. *)
Theorem sequence_of_joined_strings (other_attribute : string -> option (proc Cube unit))
    (a b : string) (c : Cube) :
  Forall valid_name (split a) -> Forall valid_name (split b) -> Forall piece_ok c ->
  sequence other_attribute (a ++ " " ++ b) c
  = bind (sequence other_attribute a) (fun _ => sequence other_attribute b) c.
Proof.
  intros Ha Hb Hc.
  assert (Hsplit : split (a ++ " " ++ b) = (split a ++ split b)%list)
    by apply split_from_app_space.
  unfold bind. rewrite (sequence_valid _ a c Ha Hc).
  rewrite (sequence_valid _ b); [| exact Hb |].
  - rewrite sequence_valid.
    + rewrite Hsplit, map_map. f_equal. apply map_ext. intros p. apply act_app.
    + rewrite Hsplit. by apply Forall_app.
    + exact Hc.
  - apply Forall_map. eapply Forall_impl; [exact Hc |]. intros p. apply act_ok.
Qed.

Lemma sequence_of_joined_strings_witness :
  sequence (fun _ => None) ("R U" ++ " " ++ "Ri  Ui") solved_cube
  = bind (sequence (fun _ => None) "R U") (fun _ => sequence (fun _ => None) "Ri  Ui")
      solved_cube.
Proof.
  apply sequence_of_joined_strings.
  - repeat constructor; [by exists Move.R | by exists Move.U].
  - repeat constructor; [by exists Move.Ri | by exists Move.Ui].
  - exact solved_cube_ok.
Defined.

(** X17.  [Cube.sequence] on a string that holds only whitespace (the
    empty string too) returns normally and leaves the cube as it is. *)
Theorem sequence_without_names (other_attribute : string -> option (proc Cube unit))
    (move_str : string) (c : Cube) :
  forallb isspace (list_ascii_of_string move_str) = true ->
  sequence other_attribute move_str c = (Ok tt, c).
Proof.
  intros H. unfold sequence.
  assert (Hs : split move_str = []).
  { unfold split. induction move_str as [| ch s IH]; [reflexivity |].
    simpl in H. apply andb_true_iff in H as [Hch Hs].
    cbn [split_from]. rewrite Hch. by apply IH. }
  by rewrite Hs.
Qed.

Lemma sequence_without_names_witness :
  sequence (fun _ => None) "  " solved_cube = (Ok tt, solved_cube).
Proof. exact (sequence_without_names (fun _ => None) "  " solved_cube eq_refl). Defined.

(** ** Solver.move *)

(** X18.  [Solver.move] appends the names of the string to [self.moves]
    before it turns the cube.  When all are names of move methods the
    cube is turned by them in order; when one is the name of no attribute
    of the cube, [AttributeError] is raised, the cube is not turned at
    all, and the names stay in [self.moves]. *)
Theorem move_log (other_attribute : string -> option (proc Cube unit))
    (move_str : string) (s : Solver.t) :
  Forall piece_ok (Solver.cube s) ->
  let logged c :=
    Solver.mk c (Solver.moves s ++ split move_str)
      (Solver.left_piece s) (Solver.right_piece s) (Solver.up_piece s)
      (Solver.down_piece s) (Solver.inifinite_loop_max_iterations s) in
  (Forall valid_name (split move_str) ->
   Solver.move other_attribute move_str s
   = (Ok tt, logged (map (act (split move_str)) (Solver.cube s)))) /\
  (forall name, name ∈ split move_str ->
     Move.of_name name = None -> other_attribute name = None ->
     Solver.move other_attribute move_str s = (Raise AttributeError, logged (Solver.cube s))).
Proof.
  intros Hc logged. split.
  - intros Hv. unfold Solver.move. simpl.
    by rewrite (sequence_valid _ _ _ Hv Hc).
  - intros name Hin Hm Ho. unfold Solver.move, sequence. simpl.
    by rewrite (getattr_each_unknown _ _ name Hin Hm Ho).
Qed.

Lemma move_log_witness :
  Solver.move (fun _ => None) "R U" (Solver.mk solved_cube [] None None None None 12)
  = (Ok tt, Solver.mk (map (act ["R"; "U"]%string) solved_cube) ["R"; "U"]%string
              None None None None 12).
Proof.
  apply (move_log (fun _ => None) "R U" (Solver.mk solved_cube [] None None None None 12)
           solved_cube_ok).
  repeat constructor; [by exists Move.R | by exists Move.U].
Defined.

(** ** The three rules one by one *)






Lemma split_at_last_found (target : string) (l : list string) :
  existsb (fun a => String.eqb a target) l = true ->
  exists r, split_at_last target l = Some r.
Proof.
  induction l as [| a l IH]; intros H; [discriminate H |].
  simpl in *. destruct (split_at_last target l) as [[inner after] |] eqn:Hs; [eauto |].
  destruct (String.eqb a target); [eauto |]. simpl in H.
  destruct (IH H) as [r Hr]. discriminate Hr.
Qed.

Lemma no_rotation_pass_pair (fuel : nat) (l : list string) :
  (length l <= fuel)%nat ->
  (exists r, no_rotation_pass fuel l = Ok (r, false)) -> no_rotation_pair l = true.
Proof.
  revert l. induction fuel as [| fuel IH]; intros l Hlen.
  - destruct l; [reflexivity | simpl in Hlen; lia].
  - destruct l as [| m rest]; [reflexivity |].
    simpl in Hlen. cbn [no_rotation_pass no_rotation_pair].
    assert (Hskip : (exists r,
               rbind (no_rotation_pass fuel rest) (fun r => Ok (m :: fst r, snd r))
               = Ok (r, false)) -> no_rotation_pair rest = true).
    { intros [r Hr]. apply IH; [lia |].
      destruct (no_rotation_pass fuel rest) as [[l' ch] | e]; [| discriminate Hr].
      simpl in Hr. injection Hr as _ ->. eauto. }
    destruct (in_rots m) eqn:Hrot; simpl.
    + destruct (existsb (fun a => String.eqb a (_invert m)) rest) eqn:Hex; simpl.
      * destruct (split_at_last_found _ _ Hex) as [[inner after] ->].
        intros [r Hr]. exfalso.
        destruct (_unrotate m inner); [| discriminate Hr]. simpl in Hr.
        destruct (a ++ after) as [| h t]; [discriminate Hr |].
        destruct (no_rotation_pass fuel t); discriminate Hr.
      * rewrite (split_at_last_None _ _ Hex). exact Hskip.
    + exact Hskip.
Qed.

(** X21.  [apply_no_full_cube_rotation_optimization] returns for every
    list of names: in the list it leaves no whole-cube rotation has its
    inverse anywhere behind it; applying it again changes nothing; the
    list is not longer than the given one, and is the given one when that
    had no such pair; and for names of move methods the two lists turn
    every well-formed piece alike. *)
Theorem no_rotation_optimization_result (l : list string) :
  exists out,
    apply_no_full_cube_rotation_optimization l = Ok out /\
    no_rotation_pair out = true /\
    apply_no_full_cube_rotation_optimization out = Ok out /\
    (length out <= length l)%nat /\
    (no_rotation_pair l = true -> out = l) /\
    (Forall valid_name l -> same_effect l out).
Proof.
  unfold apply_no_full_cube_rotation_optimization.
  destruct (no_rotation_rec_normal (S (length l)) l) as (r & Hr & Hlen & Hn); [lia |].
  exists r. split; [exact Hr |].
  split; [apply (no_rotation_pass_pair (length r)); [lia | eauto] |].
  split; [clear Hr; cbn [no_rotation_rec]; by rewrite Hn |].
  split; [exact Hlen |].
  split.
  - intros H. cbn [no_rotation_rec] in Hr.
    rewrite (no_rotation_pass_no_pair _ _ H) in Hr. simpl in Hr. by injection Hr as <-.
  - intros Hv. destruct (no_rotation_rec_effect (S (length l)) l Hv) as (r' & Hr' & Heff).
    rewrite Hr in Hr'. by injection Hr' as <-.
Qed.


(** ** _invert and _unrotate *)

(** X23.  [_invert] on the name of a move method gives the name of the
    method that undoes it: inverting twice gives the name back, and a
    move followed by its inverse leaves every piece with a lattice
    position and three colour slots as it was. *)
Theorem invert_names (m : Move.t) :
  _invert (Move.name m) = Move.name (Move.inverse m) /\
  _invert (_invert (Move.name m)) = Move.name m /\
  forall p, piece_ok p -> act [Move.name m; _invert (Move.name m)] p = p.
Proof.
  split; [by destruct m |]. split; [by destruct m |].
  intros p Hp. apply act_cancel; [by exists m | exact Hp].
Qed.



(** X24.  [_unrotate]: for a rotation name it returns a list as long as
    the given one, and when that is made of move names, so is the
    result, which turns every well-formed piece as the rotation, the
    given moves and the inverse rotation do in a row.  For any other
    first argument it raises [TypeError] as soon as there is a move to
    translate, and returns the empty list when there is none. *)
Theorem unrotate_contract (rot : string) (moves : list string) :
  if in_rots rot then
    exists out,
      _unrotate rot moves = Ok out /\
      length out = length moves /\
      (Forall valid_name moves ->
       Forall valid_name out /\
       forall p, well_formed_piece p ->
         act out p = act ([rot] ++ moves ++ [_invert rot]) p)
  else
    _unrotate rot moves = match moves with [] => Ok [] | _ => Raise TypeError end.
Proof.
  destruct (in_rots rot) eqn:Hrot.
  - destruct (unrotate_ok rot moves Hrot) as (table & Ht & Hu).
    eexists. split; [exact Hu |]. split; [by rewrite length_map |].
    intros Hv. split.
    + apply Forall_map. eapply Forall_impl; [exact Hv |].
      intros x Hx. by apply (valid_unrotate rot).
    + intros p Hp. rewrite (act_unrotate_list rot table moves p Hrot Ht Hv Hp).
      change (act ([rot] ++ moves ++ [_invert rot]) p)
        with (act (moves ++ [_invert rot]) (act_name rot p)).
      by rewrite act_app.
  - unfold _unrotate. unfold get_rot_table.
    unfold in_rots, rots in Hrot. simpl in Hrot.
    rewrite !orb_false_iff in Hrot.
    destruct Hrot as (H1 & H2 & H3 & H4 & H5 & H6 & _).
    by rewrite H1, H4, H2, H5, H3, H6.
Qed.

(** * The solver solves every scrambled cube *)

(** The proof has four parts.  First, every scrambled cube obeys the laws
    of the cube ([scrambled_lawful]): each piece is in one of the states
    of its orbit, and the flips, the twists and the parity of the
    positions are as in the solved cube.  Second, what the events do to
    what is known covers what they do to any cube that is known to that
    extent and obeys the laws ([known_event_sound]), and so does the run
    of a whole tree ([known_run_sound]).  Third, the run of the solver on
    the centres alone ends in solved cubes only ([run_checked], by
    computation).  Fourth, the trees do what the methods of [Solver] do
    ([sim_solve]). *)

Lemma slot_eqb_eq (a b : color) : slot_eqb a b = true <-> a = b.
Proof.
  destruct a as [x |], b as [y |]; simpl; try (split; [discriminate | discriminate]);
    [| done].
  rewrite Ascii.eqb_eq. split; [by intros -> | by intros [= ->]].
Qed.

Lemma slots_eqb_eq (l k : list color) : slots_eqb l k = true <-> l = k.
Proof.
  revert k. induction l as [| a l IH]; intros [| b k]; simpl; try done.
  destruct (slot_eqb a b) eqn:Hab.
  - apply slot_eqb_eq in Hab. subst b. rewrite IH. split; [by intros -> | by intros [= ->]].
  - split; [discriminate |]. intros [= -> _].
    assert (slot_eqb b b = true) by by apply slot_eqb_eq. congruence.
Qed.

Lemma piece_eqb_eq (p q : Piece) : piece_eqb p q = true <-> p = q.
Proof.
  destruct p as [pp pc pt], q as [qp qc qt]. unfold piece_eqb. simpl.
  destruct (peqb pp qp) eqn:Hp.
  - apply peqb_eq in Hp. subst qp.
    destruct (slots_eqb pc qc) eqn:Hc.
    + apply slots_eqb_eq in Hc. subst qc.
      destruct pt, qt; simpl; split; congruence.
    + split; [discriminate |]. intros [= -> _].
      assert (slots_eqb qc qc = true) by by apply slots_eqb_eq. congruence.
  - split; [discriminate |]. intros [= -> _ _].
    rewrite peqb_refl in Hp. discriminate.
Qed.

Lemma pieces_eqb_eq (l k : list Piece) : pieces_eqb l k = true <-> l = k.
Proof.
  revert k. induction l as [| a l IH]; intros [| b k]; simpl; try done.
  destruct (piece_eqb a b) eqn:Hab.
  - apply piece_eqb_eq in Hab. subst b. rewrite IH. split; [by intros -> | by intros [= ->]].
  - split; [discriminate |]. intros [= -> _].
    assert (piece_eqb b b = true) by by apply piece_eqb_eq. congruence.
Qed.

Lemma knowledge_eqb_eq (a b : knowledge) : knowledge_eqb a b = true -> a = b.
Proof.
  revert b. induction a as [| x a IH]; intros [| y b]; simpl; try done.
  destruct (key_eqb x y) eqn:Hxy; [| discriminate].
  intros H. f_equal; [| by apply IH].
  destruct x, y; simpl in Hxy; try discriminate; [| reflexivity].
  f_equal. by apply pieces_eqb_eq.
Qed.

Lemma dedupe_In {A} (eqb : A -> A -> bool) (l : list A) (a : A) :
  (forall x y, eqb x y = true -> x = y) -> In a l -> In a (dedupe eqb l).
Proof.
  intros Heq. induction l as [| b l IH]; simpl; [done |].
  intros [-> | Hin].
  - destruct (existsb (eqb a) l) eqn:Hex.
    + apply IH. apply existsb_exists in Hex as (x & Hx & Hax).
      by rewrite (Heq _ _ Hax).
    + by left.
  - destruct (existsb (eqb b) l); [by apply IH | right; by apply IH].
Qed.

Lemma dedupe_incl {A} (eqb : A -> A -> bool) (l : list A) (a : A) :
  In a (dedupe eqb l) -> In a l.
Proof.
  induction l as [| b l IH]; simpl; [done |].
  destruct (existsb (eqb b) l); [by right; apply IH |].
  intros [-> | H]; [by left | right; by apply IH].
Qed.

(** ** The orbits *)

(** A check of every state of every orbit carries over to the pieces. *)
Lemma orbits_all (P : list Piece -> Piece -> bool) (orbs : list (list Piece)) :
  forallb (fun orb => forallb (P orb) orb) orbs = true ->
  forall orb p, In orb orbs -> In p orb -> P orb p = true.
Proof.
  intros H orb p Horb Hp. rewrite forallb_forall in H.
  specialize (H orb Horb). rewrite forallb_forall in H. by apply H.
Qed.

Lemma orbits_checked : forallb (fun orb => forallb (piece_check orb) orb) orbits = true.
Proof. vm_compute. reflexivity. Qed.

Lemma orbit_piece (orb : list Piece) (p : Piece) :
  In orb orbits -> In p orb ->
  well_formed_piece p /\ pos p <> origin /\
  forall m, turned m p = turn m p /\ In (turn m p) orb.
Proof.
  intros Horb Hp.
  pose proof (orbits_all piece_check orbits orbits_checked orb p Horb Hp) as H.
  unfold piece_check in H. rewrite !andb_true_iff in H.
  destruct H as [[[H1 H2] H3] H4].
  split; [split; [exact H1 | by apply bool_decide_eq_true_1 in H3] |].
  split.
  - intros Heq. rewrite Heq in H2. discriminate H2.
  - intros m. rewrite forallb_forall in H4.
    specialize (H4 m ltac:(destruct m; simpl; auto 30)).
    apply andb_true_iff in H4 as [Ha Hb].
    split; [by apply piece_eqb_eq |].
    apply existsb_exists in Hb as (q & Hq & Heq).
    apply piece_eqb_eq in Heq. by rewrite Heq.
Qed.

(** ** The laws under the moves *)

Lemma lawful_length (c : Cube) : lawful c -> length c = 26%nat.
Proof. intros [H _ _ _ _]. by rewrite (Forall2_length _ _ _ H). Qed.

Lemma in_orbit (c : Cube) (r : nat) (p : Piece) :
  Forall2 (fun p orb => In p orb) c orbits -> c !! r = Some p ->
  exists orb, orbits !! r = Some orb /\ In p orb.
Proof. intros H Hp. by apply (Forall2_lookup_l _ _ _ _ _ H Hp). Qed.

Lemma in_some_orbit (orbs : list (list Piece)) (l : list Piece) (p : Piece) :
  Forall2 (fun p orb => In p orb) l orbs -> In p l ->
  exists orb, In orb orbs /\ In p orb.
Proof.
  intros H Hin. apply list_elem_of_In, list_elem_of_lookup in Hin as [r Hr].
  destruct (Forall2_lookup_l _ _ _ _ _ H Hr) as (orb & Horb & Hp).
  exists orb. split; [| exact Hp].
  apply list_elem_of_In, list_elem_of_lookup. eauto.
Qed.

Lemma lawful_pieces (c : Cube) (p : Piece) :
  lawful c -> In p c ->
  exists orb, In orb orbits /\ In p orb.
Proof. intros [H _ _ _ _]. by apply in_some_orbit. Qed.

Lemma lawful_well_formed (c : Cube) : lawful c -> well_formed c.
Proof.
  intros Hl. split.
  - by apply lawful_length.
  - apply Hl.
  - apply Forall_forall. intros p Hp. apply list_elem_of_In in Hp.
    destruct (lawful_pieces c p Hl Hp) as (orb & Horb & Hin).
    by destruct (orbit_piece orb p Horb Hin) as (_ & H & _).
  - apply Forall_forall. intros p Hp. apply list_elem_of_In in Hp.
    destruct (lawful_pieces c p Hl Hp) as (orb & Horb & Hin).
    by destruct (orbit_piece orb p Horb Hin) as (H & _).
Qed.

Lemma lawful_ok (c : Cube) : lawful c -> Forall piece_ok c.
Proof. intros H. by apply well_formed_ok, lawful_well_formed. Qed.

Lemma orbits_turned (m : Move.t) (orbs : list (list Piece)) (l : list Piece) :
  (forall orb, In orb orbs -> In orb orbits) ->
  Forall2 (fun p orb => In p orb) l orbs ->
  map (turned m) l = map (turn m) l /\
  Forall2 (fun p orb => In p orb) (map (turn m) l) orbs.
Proof.
  intros Hsub H. induction H as [| p orb l orbs Hp _ IH]; [by split |].
  destruct IH as [IH1 IH2]; [intros o Ho; apply Hsub; by right |].
  destruct (orbit_piece orb p (Hsub orb ltac:(by left)) Hp) as (_ & _ & Hm).
  destruct (Hm m) as [Ht Hin]. simpl. rewrite Ht, IH1.
  split; [reflexivity | by constructor].
Qed.

Lemma sum_perm (l k : list Z) : Permutation l k -> sum_of l = sum_of k.
Proof. intros H. unfold sum_of. induction H; simpl; lia. Qed.

Lemma total_shift (f : Piece -> Z) (n : Z) (d : Point -> Z) (g : Piece -> Piece)
    (l : list Piece) :
  (forall p, In p l -> f (g p) mod n = (f p + d (pos p)) mod n) ->
  total f (map g l) mod n = (total f l + sum_of (map d (map pos l))) mod n.
Proof.
  induction l as [| p l IH]; intros H; [reflexivity |].
  simpl. rewrite Zplus_mod, (H p ltac:(by left)), IH by (intros q Hq; apply H; by right).
  rewrite <- Zplus_mod. f_equal. lia.
Qed.

Lemma positions_perm (orbs : list (list Piece)) (pts : list Point) (l : list Piece) :
  Forall2 (fun p orb => In p orb) l orbs ->
  NoDup (map pos l) ->
  length pts = length orbs ->
  (forall orb p, In orb orbs -> In p orb -> In (pos p) pts) ->
  map pos l ≡ₚ pts.
Proof.
  intros H Hnd Hlen Hpts.
  apply submseteq_length_Permutation.
  - apply NoDup_submseteq; [exact Hnd |].
    intros pt Hpt. apply list_elem_of_fmap in Hpt as (p & -> & Hp).
    apply list_elem_of_In in Hp.
    destruct (in_some_orbit orbs l p H Hp) as (orb & Horb & Hin).
    apply list_elem_of_In. by apply (Hpts orb).
  - rewrite length_map, (Forall2_length _ _ _ H). lia.
Qed.

Lemma total_turn (f : Piece -> Z) (n : Z) (orbs : list (list Piece)) (pts : list Point)
    (m : Move.t) (l : list Piece) :
  shift_check f n orbs pts = true ->
  Forall2 (fun p orb => In p orb) l orbs ->
  NoDup (map pos l) ->
  total f (map (turn m) l) mod n = total f l mod n.
Proof.
  unfold shift_check. rewrite !andb_true_iff.
  intros [[Hlen Hp] Hs] H Hnd. apply Nat.eqb_eq in Hlen.
  assert (Hm : In m Move.all) by (destruct m; simpl; auto 30).
  assert (Hin : forall orb p, In orb orbs -> In p orb ->
            In (pos p) pts /\
            f (turn m p) mod n = (f p + shift f orbs m (pos p)) mod n).
  { intros orb p Horb Hp'. rewrite forallb_forall in Hp.
    specialize (Hp orb Horb). rewrite forallb_forall in Hp.
    specialize (Hp p Hp'). apply andb_true_iff in Hp as [H1 H2].
    split.
    - apply existsb_exists in H1 as (q & Hq & Heq).
      apply peqb_eq in Heq. by rewrite Heq.
    - rewrite forallb_forall in H2. by apply Z.eqb_eq, H2. }
  rewrite (total_shift f n (shift f orbs m)).
  - rewrite (sum_perm _ (map (shift f orbs m) pts)).
    + rewrite forallb_forall in Hs. specialize (Hs m Hm). apply Z.eqb_eq in Hs.
      rewrite Zplus_mod, Hs, Z.add_0_r. apply Zmod_mod.
    + apply Permutation_map.
      apply (positions_perm orbs pts l H Hnd Hlen).
      intros orb p Horb Hp'. by apply (Hin orb p).
  - intros p Hp'. destruct (in_some_orbit orbs l p H Hp') as (orb & Horb & Hq).
    by apply (Hin orb p).
Qed.

Lemma flips_checked :
  shift_check edge_flip 2 edge_orbits (map pos (edges solved_cube)) = true.
Proof. vm_compute. reflexivity. Qed.

Lemma twists_checked :
  shift_check corner_twist 3 corner_orbits (map pos (corners solved_cube)) = true.
Proof. vm_compute. reflexivity. Qed.

Lemma xorb_swap (a b c : bool) : xorb a (xorb b c) = xorb b (xorb a c).
Proof. by destruct a, b, c. Qed.

Lemma xorb_four (a b c d : bool) :
  xorb (xorb a b) (xorb c d) = xorb (xorb a c) (xorb b d).
Proof. by destruct a, b, c, d. Qed.

Lemma xor_all_perm (f : Point -> bool) (l k : list Point) :
  Permutation l k -> xor_all f l = xor_all f k.
Proof.
  intros H. unfold xor_all. induction H; simpl; try congruence.
  apply xorb_swap.
Qed.

Lemma xor_all_xor (f g : Point -> bool) (l : list Point) :
  xor_all (fun b => xorb (f b) (g b)) l = xorb (xor_all f l) (xor_all g l).
Proof.
  unfold xor_all. induction l as [| a l IH]; simpl; [reflexivity |].
  rewrite IH. apply xorb_four.
Qed.

Lemma xor_all_map (f : Point -> bool) (g : Point -> Point) (l : list Point) :
  xor_all f (map g l) = xor_all (fun b => f (g b)) l.
Proof. unfold xor_all. induction l as [| a l IH]; simpl; congruence. Qed.

Lemma xor_all_ext (f g : Point -> bool) (l : list Point) :
  (forall b, In b l -> f b = g b) -> xor_all f l = xor_all g l.
Proof.
  unfold xor_all. induction l as [| a l IH]; intros H; simpl; [reflexivity |].
  rewrite (H a ltac:(by left)), IH; [reflexivity |]. intros b Hb. apply H. by right.
Qed.

Lemma over_pairs_perm (q : Point -> Point -> bool) (l k : list Point) :
  Permutation l k ->
  (forall a b, In a l -> In b l -> q a b = q b a) ->
  over_pairs q l = over_pairs q k.
Proof.
  intros H. induction H as [| x l k H IH | x y l | l k j H1 IH1 H2 IH2]; intros Hq.
  - reflexivity.
  - simpl. fold (xor_all (q x) l). fold (xor_all (q x) k).
    rewrite (xor_all_perm _ _ _ H), IH; [reflexivity |].
    intros a b Ha Hb. apply Hq; by right.
  - simpl. fold (xor_all (q x) l). fold (xor_all (q y) l).
    rewrite (Hq y x ltac:(by left) ltac:(by right; left)).
    by destruct (q x y), (xor_all (q x) l), (xor_all (q y) l), (over_pairs q l).
  - rewrite IH1 by exact Hq. apply IH2.
    intros a b Ha Hb. apply Hq; by apply (Permutation_in _ (Permutation_sym H1)).
Qed.

Lemma odd_inversions_map (g : Point -> Point) (l : list Point) :
  odd_inversions (map g l)
  = xorb (odd_inversions l)
         (over_pairs (fun a b => xorb (precedes (g b) (g a)) (precedes b a)) l).
Proof.
  induction l as [| a l IH]; [reflexivity |].
  cbn [map odd_inversions over_pairs].
  fold (xor_all (fun b => precedes b (g a)) (map g l)).
  fold (xor_all (fun b => precedes b a) l).
  fold (xor_all (fun b => xorb (precedes (g b) (g a)) (precedes b a)) l).
  rewrite IH, xor_all_map, xor_all_xor.
  generalize (xor_all (fun b => precedes (g b) (g a)) l)
    (xor_all (fun b => precedes b a) l) (odd_inversions l)
    (over_pairs (fun a b => xorb (precedes (g b) (g a)) (precedes b a)) l).
  by intros [] [] [] [].
Qed.

Lemma parity_checked : parity_check = true.
Proof. vm_compute. reflexivity. Qed.

Lemma odd_inversions_moved (m : Move.t) (pts : list Point) :
  pts ≡ₚ cubie_positions ->
  odd_inversions (map (moved m) pts) = odd_inversions pts.
Proof.
  intros Hperm.
  pose proof parity_checked as H. unfold parity_check in H.
  rewrite forallb_forall in H.
  specialize (H m ltac:(destruct m; simpl; auto 30)).
  apply andb_true_iff in H as [H1 H2]. apply andb_true_iff in H1 as [H1 H3].
  assert (Hc : map (moved m) pts = map (carried m) pts).
  { apply map_ext_in. intros a Ha. apply peqb_eq.
    rewrite forallb_forall in H3. apply H3.
    apply list_elem_of_In. rewrite <- Hperm. by apply list_elem_of_In. }
  rewrite Hc, odd_inversions_map.
  change (fun a b => xorb (precedes (carried m b) (carried m a)) (precedes b a))
    with (swapped m).
  rewrite (over_pairs_perm _ _ _ Hperm).
  - apply negb_true_iff in H1. rewrite H1. by destruct (odd_inversions pts).
  - intros a b Ha Hb.
    rewrite forallb_forall in H2.
    assert (Ha' : In a cubie_positions)
      by (apply list_elem_of_In; rewrite <- Hperm; by apply list_elem_of_In).
    assert (Hb' : In b cubie_positions)
      by (apply list_elem_of_In; rewrite <- Hperm; by apply list_elem_of_In).
    specialize (H2 a Ha'). rewrite forallb_forall in H2.
    specialize (H2 b Hb'). by apply Bool.eqb_prop.
Qed.

(** *** The laws are kept *)

Lemma edge_orbits_sub (orb : list Piece) : In orb edge_orbits -> In orb orbits.
Proof.
  intros H. apply list_elem_of_In in H. apply list_elem_of_In.
  unfold edge_orbits in H.
  by apply (subseteq_take 12), (subseteq_drop 6) in H.
Qed.

Lemma corner_orbits_sub (orb : list Piece) : In orb corner_orbits -> In orb orbits.
Proof.
  intros H. apply list_elem_of_In in H. apply list_elem_of_In.
  by apply (subseteq_drop 18) in H.
Qed.

Lemma NoDup_sublist_pos (l k : list Piece) :
  sublist l k -> NoDup (map pos k) -> NoDup (map pos l).
Proof. intros Hs Hk. exact (sublist_NoDup _ _ Hk (fmap_sublist pos _ _ Hs)). Qed.

Lemma lawful_turn (m : Move.t) (c : Cube) :
  lawful c -> map (turned m) c = map (turn m) c /\ lawful (map (turn m) c).
Proof.
  intros Hl. pose proof (lawful_well_formed c Hl) as Hwf.
  destruct Hl as [Ho Hd Hf Ht Hp].
  destruct (orbits_turned m orbits c (fun _ H => H) Ho) as [Heq Ho'].
  split; [exact Heq |].
  assert (He : Forall2 (fun p orb => In p orb) (edges c) edge_orbits).
  { unfold edges, edge_orbits. by apply Forall2_take, Forall2_drop. }
  assert (Hc : Forall2 (fun p orb => In p orb) (corners c) corner_orbits).
  { unfold corners, corner_orbits. by apply Forall2_drop. }
  split.
  - exact Ho'.
  - rewrite <- Heq. apply (map_turned_well_formed m c Hwf).
  - assert (Hm : edges (map (turn m) c) = map (turn m) (edges c)).
    { unfold edges. by rewrite <- fmap_drop, <- fmap_take. }
    rewrite Hm, (total_turn edge_flip 2 edge_orbits _ m _ flips_checked He); [exact Hf |].
    apply (NoDup_sublist_pos _ c); [| exact Hd].
    unfold edges. etrans; [apply sublist_take | apply sublist_drop].
  - assert (Hm : corners (map (turn m) c) = map (turn m) (corners c)).
    { unfold corners. by rewrite <- fmap_drop. }
    rewrite Hm, (total_turn corner_twist 3 corner_orbits _ m _ twists_checked Hc); [exact Ht |].
    apply (NoDup_sublist_pos _ c); [| exact Hd]. apply sublist_drop.
  - rewrite <- Heq, (map_pos_turned m c (well_formed_ok c Hwf)).
    rewrite odd_inversions_moved; [exact Hp |].
    by apply well_formed_positions.
Qed.

Lemma store_checked : store_check = true.
Proof. vm_compute. reflexivity. Qed.

Lemma Forall2_combine {A B} (P : A -> B -> Prop) (l : list A) (k : list B) :
  length l = length k -> Forall (fun ab => P (fst ab) (snd ab)) (combine l k) ->
  Forall2 P l k.
Proof.
  revert k. induction l as [| a l IH]; intros [| b k] Hlen H; try discriminate Hlen.
  - constructor.
  - simpl in H. apply Forall_cons_1 in H as [H1 H2].
    constructor; [exact H1 |]. apply IH; [by injection Hlen | exact H2].
Qed.

Lemma lawful_solved : lawful solved_cube.
Proof.
  pose proof store_checked as H. unfold store_check in H.
  rewrite !andb_true_iff in H. destruct H as [[[[H1 H2] H3] H4] H5].
  split.
  - apply Forall2_combine; [by apply Nat.eqb_eq |].
    apply Forall_forall. intros [p orb] Hin. simpl.
    rewrite forallb_forall in H2. apply list_elem_of_In in Hin.
    specialize (H2 _ Hin). simpl in H2.
    apply existsb_exists in H2 as (q & Hq & Heq).
    apply piece_eqb_eq in Heq. by rewrite Heq.
  - by apply bool_decide_eq_true_1 in H3.
  - by apply Z.eqb_eq.
  - by apply Z.eqb_eq.
  - reflexivity.
Qed.

Lemma centres_checked : centres_check = true.
Proof. vm_compute. reflexivity. Qed.

Lemma scrambled_lawful (c : Cube) : scrambled c -> lawful c /\ centred c.
Proof.
  pose proof centres_checked as Hc. unfold centres_check in Hc.
  apply andb_true_iff in Hc as [Hstep Hinit].
  induction 1 as [| m c c' _ [IH1 IH2] Hm].
  - split; [apply lawful_solved |].
    apply existsb_exists in Hinit as (cfg & Hcfg & Heq).
    apply pieces_eqb_eq in Heq. unfold centred. by rewrite Heq.
  - rewrite (method_map m c (lawful_ok c IH1)) in Hm. injection Hm as <-.
    destruct (lawful_turn m c IH1) as [Heq Hl]. rewrite Heq.
    split; [exact Hl |].
    unfold centred, faces in *.
    assert (Hf : take 6 (map (turn m) c) = map (turn m) (take 6 c))
      by (symmetry; apply fmap_take).
    rewrite Hf.
    rewrite forallb_forall in Hstep. specialize (Hstep _ IH2).
    rewrite forallb_forall in Hstep.
    specialize (Hstep m ltac:(destruct m; simpl; auto 30)).
    apply existsb_exists in Hstep as (cfg & Hcfg & Heq').
    apply pieces_eqb_eq in Heq'.
    by rewrite Heq'.
Qed.

(** X25.  What the move methods never do.  Every cube turned from the
    solved one, by any moves, satisfies the invariant of the store; its
    six centres are as one of the 24 rotations of the solved cube leaves
    them; the edges that are flipped are even in number; the twists of
    the corners add up to a multiple of 3; and the positions of the
    pieces, in store order, have as many inversions, up to parity, as in
    the solved cube.  So no moves flip one edge alone, twist one corner
    alone, or exchange two pieces alone. *)
Theorem scrambled_cube_laws (c : Cube) :
  scrambled c ->
  well_formed c /\
  In (faces c) centre_configs /\
  total edge_flip (edges c) mod 2 = 0 /\
  total corner_twist (corners c) mod 3 = 0 /\
  odd_inversions (map pos c) = odd_inversions (map pos solved_cube).
Proof.
  intros Hs. destruct (scrambled_lawful c Hs) as [Hl Hc].
  split; [by apply lawful_well_formed |]. split; [exact Hc |].
  split; [apply Hl |]. split; [apply Hl |]. apply Hl.
Qed.

Lemma scrambled_cube_laws_witness :
  total edge_flip (edges (map (turned Move.R) solved_cube)) mod 2 = 0.
Proof.
  destruct (scrambled_cube_laws (map (turned Move.R) solved_cube)) as (_ & _ & H & _).
  - exact (scrambled_move Move.R solved_cube _ scrambled_solved
             (method_map Move.R solved_cube solved_cube_ok)).
  - exact H.
Defined.

(** ** What is known, and the cube *)

Lemma fits_length (c : Cube) (s : knowledge) : fits c s -> length c = length s.
Proof. apply Forall2_length. Qed.

Lemma fits_lookup (c : Cube) (s : knowledge) (r : nat) (p : Piece) :
  fits c s -> c !! r = Some p ->
  exists k, s !! r = Some k /\ match k with Some K => In p K | None => True end.
Proof. intros H Hp. by apply (Forall2_lookup_l _ _ _ _ _ H Hp). Qed.

Lemma fits_lookup_r (c : Cube) (s : knowledge) (r : nat) (k : option (list Piece)) :
  fits c s -> s !! r = Some k ->
  exists p, c !! r = Some p /\ match k with Some K => In p K | None => True end.
Proof. intros H Hk. by apply (Forall2_lookup_r _ _ _ _ _ H Hk). Qed.

Lemma fits_insert (c : Cube) (s : knowledge) (r : nat) (p : Piece) (K : list Piece) :
  fits c s -> c !! r = Some p -> In p K -> fits c (<[r := Some K]> s).
Proof.
  intros H Hp Hin. unfold fits.
  rewrite <- (list_insert_id c r p Hp).
  by apply Forall2_insert.
Qed.

Lemma located_sound (k : option (list Piece)) (pt : Point) (p : Piece) :
  located k = Some pt ->
  match k with Some K => In p K | None => True end -> pos p = pt.
Proof.
  destruct k as [[| q K] |]; try discriminate. simpl.
  destruct (forallb _ K) eqn:Hall; [| discriminate].
  intros [= <-] [<- | Hin]; [reflexivity |].
  rewrite forallb_forall in Hall. by apply peqb_eq, Hall.
Qed.

Lemma occupied_sound (c : Cube) (s : knowledge) (r : nat) (p : Piece)
    (k : option (list Piece)) :
  NoDup (map pos c) -> fits c s -> c !! r = Some p -> s !! r = Some k ->
  located k = None -> free (occupied s) p = true.
Proof.
  intros Hd Hf Hp Hk Hloc. unfold free. apply negb_true_iff.
  destruct (existsb _ _) eqn:Hex; [| reflexivity]. exfalso.
  apply existsb_exists in Hex as (pt & Hin & Heq). apply peqb_eq in Heq.
  unfold occupied in Hin. apply list_elem_of_In, list_elem_of_omap in Hin.
  destruct Hin as (kj & Hkj & Hlocj).
  apply list_elem_of_lookup in Hkj as [j Hj].
  destruct (fits_lookup_r c s j kj Hf Hj) as (pj & Hpj & Hinj).
  pose proof (located_sound kj pt pj Hlocj Hinj) as Hposj.
  assert (j = r).
  { apply (NoDup_lookup (map pos c) j r pt Hd).
    - by rewrite list_lookup_fmap, Hpj; simpl; rewrite Hposj.
    - by rewrite list_lookup_fmap, Hp; simpl; rewrite Heq. }
  subst j. assert (Hkk : Some kj = Some k) by (etrans; [symmetry; exact Hj | exact Hk]).
  injection Hkk as ->. rewrite Hloc in Hlocj. discriminate Hlocj.
Qed.

Lemma states_sound (c : Cube) (s : knowledge) (r : nat) :
  lawful c -> fits c s ->
  match c !! r with
  | Some p => exists E, states s r = Some E /\ In p E
  | None => states s r = None
  end.
Proof.
  intros Hl Hf. unfold states. destruct (c !! r) as [p |] eqn:Hp.
  - destruct (fits_lookup c s r p Hf Hp) as (k & Hk & Hin). rewrite Hk.
    destruct k as [K |].
    + destruct (located (Some K)) eqn:Hloc; [by exists K |].
      eexists. split; [reflexivity |]. apply filter_In. split; [exact Hin |].
      apply (occupied_sound c s r p (Some K)); try done. apply Hl.
    + eexists. split; [reflexivity |]. apply filter_In. split.
      * destruct (in_orbit c r p (law_orbits c Hl) Hp) as (orb & Horb & Hin').
        by rewrite (nth_lookup_Some _ _ _ _ Horb).
      * apply (occupied_sound c s r p None); try done. apply Hl.
  - assert (Hs : s !! r = None).
    { apply lookup_ge_None. rewrite <- (fits_length c s Hf). by apply lookup_ge_None. }
    by rewrite Hs.
Qed.

Lemma exactly_fits (c : list Piece) (s : knowledge) (l : list Piece) :
  fits c s -> exactly s = Some l -> c = l.
Proof.
  intros H. revert l. induction H as [| p k c s Hp _ IH]; intros l; simpl.
  - by intros [= <-].
  - destruct k as [[| q [| q' K]] |]; try discriminate.
    destruct (exactly s) as [l' |]; [| discriminate].
    intros [= <-]. destruct Hp as [-> | []]. f_equal. by apply IH.
Qed.

Lemma positions_fits (c : list Piece) (s : knowledge) (l : list Point) :
  fits c s -> positions s = Some l -> map pos c = l.
Proof.
  intros H. revert l. induction H as [| p k c s Hp _ IH]; intros l; simpl.
  - by intros [= <-].
  - destruct (located k) as [pt |] eqn:Hloc; [| discriminate].
    destruct (positions s) as [l' |]; [| discriminate].
    intros [= <-]. f_equal; [by apply (located_sound k) | by apply IH].
Qed.

Lemma consistent_sound (c : Cube) (s : knowledge) :
  lawful c -> fits c s -> consistent s = true.
Proof.
  intros [_ _ Hflip Htwist Hpar] Hf. unfold consistent.
  rewrite !andb_true_iff. repeat split.
  - destruct (exactly (take 12 (drop 6 s))) as [l |] eqn:He; [| reflexivity].
    apply Z.eqb_eq. rewrite <- (exactly_fits (edges c) (take 12 (drop 6 s)) l); [exact Hflip | | exact He].
    unfold edges. by apply Forall2_take, Forall2_drop.
  - destruct (exactly (drop 18 s)) as [l |] eqn:He; [| reflexivity].
    apply Z.eqb_eq. rewrite <- (exactly_fits (corners c) (drop 18 s) l); [exact Htwist | | exact He].
    unfold corners. by apply Forall2_drop.
  - destruct (positions s) as [l |] eqn:He; [| reflexivity].
    rewrite <- (positions_fits c s l Hf He), Hpar. by destruct solved_parity.
Qed.

(** ** Reading a piece *)

Lemma group_In {V} (eqb : V -> V -> bool) (f : Piece -> V) (E : list Piece) (p : Piece) :
  (forall x y, eqb x y = true <-> x = y) -> In p E ->
  In (f p, List.filter (fun q => eqb (f q) (f p)) E) (group eqb f E) /\
  In p (List.filter (fun q => eqb (f q) (f p)) E).
Proof.
  intros Heq Hin. split.
  - unfold group. apply in_map_iff. exists (f p). split; [reflexivity |].
    apply dedupe_In; [intros x y; apply Heq |]. by apply in_map.
  - apply filter_In. split; [exact Hin | by apply Heq].
Qed.

Lemma split_by_sound {V} (eqb : V -> V -> bool) (f : Piece -> V) (c : Cube)
    (s : knowledge) (r : nat) :
  (forall x y, eqb x y = true <-> x = y) ->
  lawful c -> fits c s ->
  exists s', In ((p <- deref c r ;; Ok (f p))%result, s') (split_by eqb f s r) /\ fits c s'.
Proof.
  intros Heq Hl Hf. pose proof (states_sound c s r Hl Hf) as Hst.
  unfold split_by, deref. destruct (c !! r) as [p |] eqn:Hp.
  - destruct Hst as (E & -> & Hin). simpl.
    destruct (group_In eqb f E p Heq Hin) as [Hg Hk].
    assert (Hgen : exists s',
      In (Ok (f p), s')
         (flat_map (fun vK => let s' := <[r := Some (snd vK)]> s in
                              if consistent s' then [(Ok (fst vK), s')] else [])
                   (group eqb f E)) /\ fits c s').
    { eexists. split.
      - apply in_flat_map. eexists. split; [exact Hg |]. simpl.
        rewrite (consistent_sound c); [by left | exact Hl |].
        by apply (fits_insert c s r p).
      - by apply (fits_insert c s r p). }
    destruct E as [| a [| b E']]; [destruct Hin | | exact Hgen].
    destruct Hin as [-> | []]. exists s. split; [by left | exact Hf].
  - rewrite Hst. exists s. split; [by left | exact Hf].
Qed.

Lemma color_slot_nth (p : Piece) (i : nat) :
  piece_ok p -> (i < 3)%nat -> color_slot p i = Ok (nth i (colors p) None).
Proof.
  intros [_ Hlen] Hi. unfold color_slot.
  destruct (colors p) as [| a [| b [| d [| ? ?]]]]; try discriminate Hlen.
  destruct i as [| [| [| i]]]; try reflexivity. lia.
Qed.

Lemma get_piece_unique (c : Cube) (pt : Point) (r : nat) (p : Piece) :
  NoDup (map pos c) -> c !! r = Some p -> pos p = pt -> get_piece pt c = Some r.
Proof.
  intros Hd Hp Hpos. unfold get_piece.
  pose proof (first_ref_spec (fun p => peqb (pos p) pt) c) as Hfirst.
  destruct (first_ref _ c) as [r' |].
  - destruct Hfirst as (p' & Hp' & Hf). apply peqb_eq in Hf. f_equal.
    apply (NoDup_lookup (map pos c) r' r pt Hd).
    + by rewrite list_lookup_fmap, Hp'; simpl; rewrite Hf.
    + by rewrite list_lookup_fmap, Hp; simpl; rewrite Hpos.
  - specialize (Hfirst r p Hp). simpl in Hfirst. rewrite Hpos, peqb_refl in Hfirst.
    discriminate Hfirst.
Qed.

Lemma get_piece_found (c : Cube) (pt : Point) :
  well_formed c -> In pt cubie_positions ->
  exists r p, get_piece pt c = Some r /\ c !! r = Some p /\ pos p = pt.
Proof.
  intros Hwf Hin. pose proof (well_formed_positions c Hwf) as Hperm.
  apply list_elem_of_In in Hin. rewrite <- Hperm in Hin.
  apply list_elem_of_fmap in Hin as (p & -> & Hp).
  apply list_elem_of_lookup in Hp as [r Hr].
  exists r, p. split; [| by split].
  apply (get_piece_unique c (pos p) r p); [apply Hwf | exact Hr | reflexivity].
Qed.

Lemma get_piece_outside (c : Cube) (pt : Point) :
  well_formed c -> ~ In pt cubie_positions -> get_piece pt c = None.
Proof.
  intros Hwf Hin. pose proof (well_formed_positions c Hwf) as Hperm.
  pose proof (first_ref_spec (fun p => peqb (pos p) pt) c) as Hfirst.
  unfold get_piece. destruct (first_ref _ c) as [r |]; [| reflexivity].
  exfalso. destruct Hfirst as (p & Hp & Hf). apply peqb_eq in Hf.
  apply Hin. apply list_elem_of_In. rewrite <- Hperm. apply list_elem_of_fmap. exists p.
  split; [done |]. apply list_elem_of_lookup. eauto.
Qed.

Lemma index_where_Some {A} (f : A -> bool) (n : nat) (l : list A) (r : nat) :
  index_where f n l = Some r ->
  exists x, (n <= r)%nat /\ l !! (r - n)%nat = Some x /\ f x = true.
Proof.
  revert n. induction l as [| a l IH]; intros n; simpl; [discriminate |].
  destruct (f a) eqn:Hfa.
  - intros [= <-]. exists a. by rewrite Nat.sub_diag.
  - intros H. destruct (IH _ H) as (x & Hn & Hx & Hfx).
    exists x. split; [lia |]. split; [| exact Hfx].
    replace (r - n)%nat with (S (r - S n)) by lia. exact Hx.
Qed.

Lemma raw_sound (c : Cube) (s : knowledge) (r : nat) (p : Piece) :
  lawful c -> fits c s -> c !! r = Some p -> In p (raw s r).
Proof.
  intros Hl Hf Hp. unfold raw.
  destruct (fits_lookup c s r p Hf Hp) as (k & -> & Hin).
  destruct k as [K |]; [exact Hin |].
  destruct (in_orbit c r p (law_orbits c Hl) Hp) as (orb & Horb & Hin').
  by rewrite (nth_lookup_Some _ _ _ _ Horb).
Qed.

(** ** Finding a piece by its colours *)

Lemma colors_checked : colors_check = true.
Proof. vm_compute. reflexivity. Qed.

Lemma select_from_same (f : Piece -> bool) (c c' : list Piece) (n : nat) :
  Forall2 (fun p q => f p = f q) c c' -> select_from n f c = select_from n f c'.
Proof.
  intros H. revert n. induction H as [| p q c c' Hpq _ IH]; intros n; simpl; [reflexivity |].
  by rewrite Hpq, IH.
Qed.

Lemma existsb_same {A} (f : A -> bool) (l k : list A) :
  (forall x, In x l -> f x = true -> existsb f k = true) ->
  (forall x, In x k -> f x = true -> existsb f l = true) ->
  existsb f l = existsb f k.
Proof.
  intros H1 H2. destruct (existsb f l) eqn:Hl.
  - apply existsb_exists in Hl as (x & Hx & Hfx). symmetry. by apply (H1 x).
  - destruct (existsb f k) eqn:Hk; [| reflexivity].
    apply existsb_exists in Hk as (x & Hx & Hfx). exact (H2 x Hx Hfx).
Qed.

Lemma color_eqb_eq (a b : color) : color_eqb a b = true <-> a = b.
Proof. unfold color_eqb. apply bool_decide_eq_true. Qed.

Lemma find_piece_lawful (cs : list color) (c : Cube) :
  lawful c -> find_piece cs c = find_piece cs solved_cube.
Proof.
  intros Hl. pose proof colors_checked as H. unfold colors_check in H.
  apply andb_true_iff in H as [Hlen H]. apply Nat.eqb_eq in Hlen.
  unfold find_piece. destruct (existsb (color_eqb None) cs); [reflexivity |].
  unfold first_ref, select. f_equal. apply select_from_same.
  pose proof (law_orbits c Hl) as Ho.
  apply Forall2_same_length_lookup. split.
  { by rewrite (Forall2_length _ _ _ Ho). }
  intros r p q Hp Hq.
  destruct (in_orbit c r p Ho Hp) as (orb & Horb & Hin).
  rewrite forallb_forall in H.
  assert (Hc : In (q, orb) (combine solved_cube orbits)).
  { apply list_elem_of_In, list_elem_of_lookup. exists r.
    apply lookup_zip_with_Some. by exists q, orb. }
  specialize (H _ Hc). simpl in H. rewrite forallb_forall in H.
  specialize (H p Hin). rewrite !andb_true_iff in H. destruct H as [[H1 H2] H3].
  apply Nat.eqb_eq in H1. rewrite H1. f_equal.
  rewrite forallb_forall in H2. rewrite forallb_forall in H3.
  induction cs as [| v cs IH]; simpl; [reflexivity |]. rewrite IH. f_equal.
  apply existsb_same.
  - intros x Hx Hv. apply color_eqb_eq in Hv. subst x. by apply H2.
  - intros x Hx Hv. apply color_eqb_eq in Hv. subst x. by apply H3.
Qed.

(** ** Making every piece exact *)

Lemma index_where_None (n : nat) (s : knowledge) :
  index_where inexact n s = None -> exists l, exactly s = Some l.
Proof.
  revert n. induction s as [| k s IH]; intros n; simpl; [by exists [] |].
  destruct (inexact k) eqn:Hk; [discriminate |].
  intros H. destruct (IH _ H) as [l Hl].
  destruct k as [[| p [| q K]] |]; try discriminate Hk.
  rewrite Hl. by eexists.
Qed.

Lemma inexact_insert (s : knowledge) (r : nat) (k : option (list Piece)) (p : Piece) :
  s !! r = Some k -> inexact k = true ->
  (length (List.filter inexact (<[r := Some [p]]> s))
   < length (List.filter inexact s))%nat.
Proof.
  revert r. induction s as [| a s IH]; intros r; [discriminate |].
  destruct r as [| r]; simpl.
  - intros [= ->] ->. simpl. lia.
  - intros Hk Hin. specialize (IH r Hk Hin).
    destruct (inexact a); simpl; [apply -> Nat.succ_lt_mono |]; exact IH.
Qed.

Lemma complete_sound (c : Cube) (fuel : nat) (s : knowledge) :
  lawful c -> fits c s -> (length (List.filter inexact s) <= fuel)%nat ->
  exists s', In s' (complete fuel s) /\ fits c s' /\ exactly s' = Some c.
Proof.
  intros Hl. revert s. induction fuel as [| fuel IH]; intros s Hf Hn.
  - assert (Hnone : index_where inexact 0 s = None).
    { destruct (index_where inexact 0 s) as [r |] eqn:Hr; [| reflexivity].
      apply index_where_Some in Hr as (k & _ & Hk & Hin).
      rewrite Nat.sub_0_r in Hk.
      pose proof (inexact_insert s r k (mkPiece origin [] FACE) Hk Hin). lia. }
    simpl. rewrite Hnone. exists s. split; [by left |]. split; [exact Hf |].
    destruct (index_where_None 0 s Hnone) as [l Hex].
    by rewrite (exactly_fits c s l Hf Hex).
  - cbn [complete]. destruct (index_where inexact 0 s) as [r |] eqn:Hr.
    + apply index_where_Some in Hr as (k & _ & Hk & Hin).
      rewrite Nat.sub_0_r in Hk.
      destruct (fits_lookup_r c s r k Hf Hk) as (p & Hp & _).
      pose proof (states_sound c s r Hl Hf) as Hst. rewrite Hp in Hst.
      destruct Hst as (E & HE & HpE).
      assert (Hf' : fits c (<[r := Some [p]]> s))
        by (apply (fits_insert c s r p); [done | done | by left]).
      destruct (IH (<[r := Some [p]]> s) Hf') as (s' & Hs' & Hfs' & Hex).
      { pose proof (inexact_insert s r k p Hk Hin). lia. }
      exists s'. split; [| by split].
      apply in_flat_map. exists (<[r := Some [p]]> s). split; [| exact Hs'].
      unfold pin. rewrite HE. apply in_flat_map. exists p. split; [exact HpE |].
      simpl. rewrite (consistent_sound c _ Hl Hf'). by left.
    + exists s. split; [by left |]. split; [exact Hf |].
      destruct (index_where_None 0 s Hr) as [l Hex].
      by rewrite (exactly_fits c s l Hf Hex).
Qed.

(** ** Turning the cube *)

Lemma of_name_Some (n : string) (m : Move.t) : Move.of_name n = Some m -> Move.name m = n.
Proof.
  unfold Move.of_name. intros H. apply find_some in H as [_ H]. by apply String.eqb_eq.
Qed.

Lemma moves_of_names (names : list string) (ms : list Move.t) :
  moves_of names = Some ms -> names = map Move.name ms.
Proof.
  revert ms. induction names as [| n names IH]; intros ms; simpl.
  - by intros [= <-].
  - destruct (Move.of_name n) as [m |] eqn:Hm; [| discriminate].
    destruct (moves_of names) as [ms' |]; [| discriminate].
    intros [= <-]. simpl. by rewrite (of_name_Some n m Hm), <- (IH ms').
Qed.

Lemma lawful_turns (ms : list Move.t) (c : Cube) :
  lawful c ->
  map (act (map Move.name ms)) c = map (turns ms) c /\ lawful (map (turns ms) c).
Proof.
  revert c. induction ms as [| m ms IH]; intros c Hl.
  - unfold act, turns. simpl. by rewrite !map_id.
  - destruct (lawful_turn m c Hl) as [Heq Hl'].
    destruct (IH _ Hl') as [IH1 IH2].
    assert (Ha : map (act (map Move.name (m :: ms))) c
                 = map (act (map Move.name ms)) (map (turned m) c)).
    { rewrite map_map. apply map_ext. intros p. unfold act. simpl.
      by rewrite act_name_move. }
    assert (Ht : map (turns (m :: ms)) c = map (turns ms) (map (turn m) c)).
    { rewrite map_map. apply map_ext. intros p. reflexivity. }
    rewrite Ha, Ht, Heq. by split.
Qed.

Lemma fits_turns (ms : list Move.t) (c : Cube) (s : knowledge) :
  fits c s -> fits (map (turns ms) c) (map (option_map (map (turns ms))) s).
Proof.
  intros H. induction H as [| p k c s Hp _ IH]; simpl; [constructor |].
  constructor; [| exact IH].
  destruct k as [K |]; simpl; [by apply in_map | exact I].
Qed.

(** ** Merging what is known *)

Lemma union_sound (a b : option (list Piece)) (p : Piece) :
  match a with Some K => In p K | None => True end \/
  match b with Some K => In p K | None => True end ->
  match either a b with Some K => In p K | None => True end.
Proof.
  destruct a as [K |], b as [K' |]; simpl; try done.
  - intros [H | H]; apply in_or_app; [by left |].
    destruct (existsb (piece_eqb p) K) eqn:Hex.
    + left. apply existsb_exists in Hex as (q & Hq & Heq).
      apply piece_eqb_eq in Heq. by subst q.
    + right. apply filter_In. split; [exact H |]. by rewrite Hex.
Qed.

Lemma join2_length (a b : knowledge) :
  length a = length b -> length (join2 a b) = length a.
Proof.
  revert b. induction a as [| x a IH]; intros [| y b] Hlen; try discriminate Hlen;
    [reflexivity |].
  simpl. f_equal. apply IH. by injection Hlen.
Qed.

Lemma join2_sound (c : Cube) (a b : knowledge) :
  length a = length b -> fits c a \/ fits c b -> fits c (join2 a b).
Proof.
  revert c b. induction a as [| x a IH]; intros c [| y b] Hlen H; try discriminate Hlen.
  - by destruct H.
  - simpl. injection Hlen as Hlen.
    assert (Hc : exists p c', c = p :: c').
    { destruct H as [H | H]; inversion H; eauto. }
    destruct Hc as (p & c' & ->).
    constructor.
    + apply union_sound. destruct H as [H | H]; inversion H; auto.
    + apply IH; [exact Hlen |]. destruct H as [H | H]; inversion H; auto.
Qed.

Lemma fold_join2_sound (c : Cube) (l : list knowledge) (a : knowledge) :
  Forall (fun b => length b = length a) l ->
  fits c a \/ (exists b, In b l /\ fits c b) ->
  fits c (fold_left join2 l a).
Proof.
  revert a. induction l as [| b l IH]; intros a Hlen H; simpl.
  - destruct H as [H | (b & [] & _)]. exact H.
  - apply Forall_cons_1 in Hlen as [Hb Hl].
    apply IH.
    + eapply Forall_impl; [exact Hl |]. intros x Hx. simpl in Hx.
      by rewrite join2_length.
    + destruct H as [H | (b' & [<- | Hin] & Hf)].
      * left. apply join2_sound; auto.
      * left. apply join2_sound; auto.
      * right. eauto.
Qed.

Lemma merge_sound (name : string) (c : Cube) (l : list knowledge) (s : knowledge) :
  In s l -> fits c s -> exists s', In s' (merge name l) /\ fits c s'.
Proof.
  intros Hin Hf. unfold merge. destruct (joined name).
  - destruct l as [| a l]; [destruct Hin |]. unfold join_all.
    match goal with |- context [if ?b then _ else _] => destruct b eqn:Hall end;
      [| exists s; by split].
    eexists. split; [by left |].
    apply fold_join2_sound.
    + apply Forall_forall. intros b Hb. apply list_elem_of_In in Hb.
      rewrite forallb_forall in Hall. by apply Nat.eqb_eq, Hall.
    + destruct Hin as [-> | Hin]; eauto.
  - exists s. split; [| exact Hf].
    apply dedupe_In; [apply knowledge_eqb_eq | exact Hin].
Qed.

Lemma trace_refl (o : Tree.objects) : trace o o.
Proof.
  exists []. split; [by rewrite app_nil_r |]. split; [constructor |].
  unfold act. simpl. by rewrite map_id.
Qed.

Lemma trace_trans (o1 o2 o3 : Tree.objects) : trace o1 o2 -> trace o2 o3 -> trace o1 o3.
Proof.
  intros (n1 & H1 & V1 & C1) (n2 & H2 & V2 & C2). exists (n1 ++ n2)%list.
  split; [by rewrite H2, H1, app_assoc |]. split; [by apply Forall_app |].
  rewrite C2, C1, map_map. apply map_ext. intros p. by rewrite act_app.
Qed.

Section Sound.
Variable other_attribute : string -> option (proc Cube unit).

Lemma known_event_sound {X} (e : event X) (o : Tree.objects) (s : knowledge) :
  lawful (Tree.cube o) -> fits (Tree.cube o) s ->
  exists out, In out (known_event e s) /\
              describes o out (Tree.handle other_attribute e o).
Proof.
  intros Hl Hf. destruct o as [c log]. simpl in Hl, Hf.
  pose proof (lawful_well_formed c Hl) as Hwf.
  pose proof (lawful_ok c Hl) as Hok.
  destruct e as [piece | piece i | pt | cs | | move_str];
    cbn [known_event Tree.handle Tree.cube Tree.moves].
  - (* Get_pos *)
    destruct piece as [r |].
    + destruct (split_by_sound peqb pos c s r peqb_eq Hl Hf) as (s' & Hin & Hf').
      eexists. split; [exact Hin |]. right. simpl.
      split; [reflexivity |]. split; [exact Hf' |]. split; [exact Hl | apply trace_refl].
    + eexists. split; [by left |]. right. simpl.
      split; [reflexivity |]. split; [exact Hf |]. split; [exact Hl | apply trace_refl].
  - (* Get_color *)
    destruct piece as [r |].
    + destruct (i <? 3)%nat eqn:Hi.
      * apply Nat.ltb_lt in Hi.
        destruct (split_by_sound slot_eqb (fun p => nth i (colors p) None) c s r
                    slot_eqb_eq Hl Hf) as (s' & Hin & Hf').
        eexists. split; [exact Hin |]. right. simpl.
        split; [| split; [exact Hf' |]; split; [exact Hl | apply trace_refl]].
        unfold deref. destruct (c !! r) as [p |] eqn:Hp; [| reflexivity]. simpl.
        symmetry. apply color_slot_nth; [| exact Hi].
        exact (Forall_lookup_1 _ _ _ _ Hok Hp).
      * eexists. split; [by left |]. by left.
    + eexists. split; [by left |]. right. simpl.
      split; [reflexivity |]. split; [exact Hf |]. split; [exact Hl | apply trace_refl].
  - (* Get_piece *)
    destruct (existsb (peqb pt) cubie_positions) eqn:Hpt; cbn [negb];
      [| eexists; split; [by left | by left]].
    apply existsb_exists in Hpt as (pt' & Hpt & Heq). apply peqb_eq in Heq. subst pt'.
    destruct (index_where (at_point pt) 0 s) as [r |] eqn:Hr.
    + eexists. split; [by left |]. right. simpl.
      split; [| split; [exact Hf |]; split; [exact Hl | apply trace_refl]].
      apply index_where_Some in Hr as (k & _ & Hk & Hat). rewrite Nat.sub_0_r in Hk.
      destruct (fits_lookup_r c s r k Hf Hk) as (p & Hp & Hin).
      unfold at_point in Hat. destruct (located k) as [q |] eqn:Hloc; [| discriminate].
      apply peqb_eq in Hat. subst q.
      f_equal. symmetry. apply (get_piece_unique c pt r p); [apply Hwf | exact Hp |].
      by apply (located_sound k).
    + destruct (get_piece_found c pt Hwf Hpt) as (r & p & Hget & Hp & Hpos).
      pose proof (raw_sound c s r p Hl Hf Hp) as Hraw.
      assert (Hin : In p (List.filter (fun q => peqb (pos q) pt) (raw s r))).
      { apply filter_In. split; [exact Hraw | by apply peqb_eq]. }
      assert (Hf' : fits c (<[r := Some (List.filter (fun q => peqb (pos q) pt) (raw s r))]> s))
        by by apply (fits_insert c s r p).
      destruct (List.filter (fun q => peqb (pos q) pt) (raw s r)) as [| a K] eqn:HK;
        [destruct Hin |].
      exists (Ok (Some r), <[r := Some (a :: K)]> s). split.
      * apply in_flat_map. exists r. split.
        -- apply in_seq. split; [lia |]. simpl. rewrite <- (fits_length c s Hf).
           by apply lookup_lt_Some in Hp.
        -- rewrite HK, (consistent_sound c _ Hl Hf'). by left.
      * right. simpl. rewrite Hget.
        split; [reflexivity |]. split; [exact Hf' |]. split; [exact Hl | apply trace_refl].
  - (* Find_piece *)
    eexists. split; [by left |]. right. simpl.
    split; [by rewrite (find_piece_lawful cs c Hl) |].
    split; [exact Hf |]. split; [exact Hl | apply trace_refl].
  - (* Is_solved *)
    destruct (complete_sound c 26 s Hl Hf) as (s' & Hin & Hf' & Hex).
    { etrans; [apply List.filter_length_le |].
      rewrite <- (fits_length c s Hf), (lawful_length c Hl). lia. }
    eexists. split.
    + apply in_map_iff. exists s'. split; [reflexivity | exact Hin].
    + rewrite Hex. right. simpl.
      split; [reflexivity |]. split; [exact Hf' |]. split; [exact Hl | apply trace_refl].
  - (* Do_move *)
    destruct (moves_of (split move_str)) as [ms |] eqn:Hms;
      [| eexists; split; [by left | by left]].
    apply moves_of_names in Hms.
    assert (Hv : Forall valid_name (split move_str)) by (rewrite Hms; apply valid_names).
    destruct (getattr_each_valid other_attribute _ Hv) as (fs & Hfs & Hcall).
    unfold sequence. rewrite Hfs, (Hcall c Hok).
    destruct (lawful_turns ms c Hl) as [Heq Hl']. rewrite <- Hms in Heq.
    eexists. split; [by left |]. right. simpl.
    split; [reflexivity |]. rewrite Heq.
    split; [by apply fits_turns |]. split; [exact Hl' |].
    exists (split move_str). simpl. by rewrite Heq.
Qed.

Lemma describes_after {A} (o o1 : Tree.objects) (out : result A * knowledge)
    (ro : result A * Tree.objects) :
  trace o o1 -> describes o1 out ro -> describes o out ro.
Proof.
  intros Ht [H | (H1 & H2 & H3 & H4)]; [by left | right].
  split; [exact H1 |]. split; [exact H2 |]. split; [exact H3 |].
  by apply (trace_trans o o1).
Qed.

Lemma describes_here {A} (o : Tree.objects) (r : result A) (s : knowledge) :
  lawful (Tree.cube o) -> fits (Tree.cube o) s -> describes o (r, s) (r, o).
Proof.
  intros Hl Hf. right. simpl. split; [reflexivity |]. split; [exact Hf |].
  split; [exact Hl | apply trace_refl].
Qed.

Lemma known_run_sound {A} (p : prog A) :
  forall (l : list knowledge) (o : Tree.objects) (s : knowledge),
    lawful (Tree.cube o) -> In s l -> fits (Tree.cube o) s ->
    exists out, In out (known_run p l) /\
                describes o out (Tree.interp other_attribute p o).
Proof.
  induction p as [A a | A e | A X e k IH | A name body IHbody k IHk];
    intros l o s Hl Hin Hf.
  - exists (Ok a, s). split; [by apply (in_map (fun s => (Ok a, s))) |].
    by apply describes_here.
  - exists (Raise e, s). split; [by apply (in_map (fun s => (Raise e, s))) |].
    by apply describes_here.
  - destruct (known_event_sound e o s Hl Hf) as (out & Hout & Hd).
    cbn [known_run Tree.interp]. unfold bind.
    destruct (Tree.handle other_attribute e o) as [r o1] eqn:Hh.
    destruct Hd as [Hu | (H1 & H2 & H3 & H4)]; simpl in *.
    + exists (Raise unknown, snd out). split; [| by left].
      apply in_flat_map. exists s. split; [exact Hin |].
      apply in_flat_map. exists out. split; [exact Hout |]. rewrite Hu. by left.
    + destruct r as [x | ex].
      * destruct (IH x [snd out] o1 (snd out) H3 ltac:(by left) H2) as (out' & Hout' & Hd').
        exists out'. split; [| by apply (describes_after o o1)].
        apply in_flat_map. exists s. split; [exact Hin |].
        apply in_flat_map. exists out. split; [exact Hout |]. by rewrite H1.
      * exists (Raise ex, snd out). split.
        -- apply in_flat_map. exists s. split; [exact Hin |].
           apply in_flat_map. exists out. split; [exact Hout |]. rewrite H1. by left.
        -- right. simpl. split; [reflexivity |]. split; [exact H2 |]. by split.
  - cbn [known_run Tree.interp]. unfold bind.
    destruct (IHbody l o s Hl Hin Hf) as (out & Hout & Hd).
    destruct (forallb (fun o => is_ok (fst o)) (known_run body l)) eqn:Hall;
      [| exists (Raise unknown, []); split; [by left | by left]].
    rewrite forallb_forall in Hall. pose proof (Hall out Hout) as Hok.
    destruct Hd as [Hu | (H1 & H2 & H3 & H4)]; [rewrite Hu in Hok; discriminate Hok |].
    destruct (Tree.interp other_attribute body o) as [r o1]. simpl in *.
    rewrite <- H1. destruct (fst out) as [[] | ex] eqn:Hfst; [| discriminate Hok].
    destruct (merge_sound name (Tree.cube o1) (map snd (known_run body l)) (snd out))
      as (s' & Hs' & Hf'); [by apply in_map | exact H2 |].
    destruct (IHk _ o1 s' H3 Hs' Hf') as (out' & Hout' & Hd').
    exists out'. split; [exact Hout' | by apply (describes_after o o1)].
Qed.

End Sound.

(** ** The solver on what is known of a scrambled cube *)

(** From the centres alone, in each of their 24 configurations, every case
    of the run ends with all 26 pieces known and the cube solved. *)
Lemma run_checked :
  forallb solved_outcome (known_run (Tree.run 12) (map initial centre_configs)) = true.
Proof. vm_compute. reflexivity. Qed.

Lemma fits_unknown (l : list Piece) : fits l (repeat None (length l)).
Proof. induction l as [| p l IH]; simpl; by constructor. Qed.

Lemma fits_initial (c : Cube) : length c = 26%nat -> fits c (initial (faces c)).
Proof.
  intros Hlen. unfold initial, faces, fits.
  rewrite <- (take_drop 6 c) at 1. apply Forall2_app.
  - apply Forall2_fmap_r, Forall_Forall2_diag, Forall_forall. intros p _. by left.
  - replace 20%nat with (length (drop 6 c)) by (rewrite length_drop; lia).
    apply fits_unknown.
Qed.

Lemma solve_solves (other_attribute : string -> option (proc Cube unit)) (c : Cube) :
  scrambled c ->
  exists o,
    Tree.interp other_attribute (Tree.run 12) (Tree.mk_objects c []) = (Ok tt, o) /\
    is_solved (Tree.cube o) = Ok true /\
    Forall valid_name (Tree.moves o) /\
    Tree.cube o = map (act (Tree.moves o)) c.
Proof.
  intros Hs. destruct (scrambled_lawful c Hs) as [Hl Hc].
  destruct (known_run_sound other_attribute (Tree.run 12)
              (map initial centre_configs) (Tree.mk_objects c []) (initial (faces c)))
    as (out & Hout & Hd).
  - exact Hl.
  - by apply in_map.
  - apply fits_initial. by apply lawful_length.
  - pose proof run_checked as Hall. rewrite forallb_forall in Hall.
    specialize (Hall out Hout). unfold solved_outcome in Hall.
    destruct (Tree.interp other_attribute (Tree.run 12) (Tree.mk_objects c []))
      as [r o].
    exists o. destruct Hd as [Hu | (H1 & H2 & H3 & (names & Hn & Hv & Hcube))];
      [rewrite Hu in Hall; discriminate Hall |].
    clear Hout. cbn [fst snd] in H1, H2, H3, Hn, Hv, Hcube |- *.
    cbn [Tree.cube Tree.moves] in Hn, Hcube.
    destruct (fst out) as [[] |]; [| discriminate Hall].
    destruct (exactly (snd out)) as [c' |] eqn:Hex; [| discriminate Hall].
    rewrite <- (exactly_fits _ _ _ H2 Hex) in Hall.
    split; [by rewrite <- H1 |].
    split; [by destruct (is_solved (Tree.cube o)) as [[|] |] |].
    rewrite Hn. by split.
Qed.

Section Link.
Variable other_attribute : string -> option (proc Cube unit).
Variable self : Tree.t.

Lemma interp_pbind {A B : Type} (p : prog A) (f : A -> prog B) (o : Tree.objects) :
  Tree.interp other_attribute (pbind p f) o
  = bind (Tree.interp other_attribute p)
         (fun x => Tree.interp other_attribute (f x)) o.
Proof.
  revert B f o. induction p as [A a | A e | A X e k IH | A name body _ k IH]; intros B f o.
  - reflexivity.
  - reflexivity.
  - cbn [pbind Tree.interp]. unfold bind.
    destruct (Tree.handle other_attribute e o) as [[x | ex] o1]; [apply IH | reflexivity].
  - cbn [pbind Tree.interp]. unfold bind.
    destruct (Tree.interp other_attribute body o) as [[[] | ex] o1]; [apply IH | reflexivity].
Qed.

Lemma sim_ret {A : Type} (a : A) : sim other_attribute self (Ret a) (ret a).
Proof. intros o. reflexivity. Qed.

Lemma sim_throw {A : Type} (e : exn) : sim other_attribute self (Throw (A := A) e) (raise e).
Proof. intros o. reflexivity. Qed.

Lemma sim_bind {A B : Type} (p : prog A) (m : proc Solver.t A)
    (f : A -> prog B) (g : A -> proc Solver.t B) :
  sim other_attribute self p m -> (forall x, sim other_attribute self (f x) (g x)) -> sim other_attribute self (pbind p f) (bind m g).
Proof.
  intros Hp Hf o. rewrite interp_pbind. unfold bind. rewrite (Hp o).
  destruct (Tree.interp other_attribute p o) as [[x | ex] o1]; simpl; [apply Hf | reflexivity].
Qed.

Lemma sim_call (name : string) (body : prog unit) (m : proc Solver.t unit) :
  sim other_attribute self body m -> sim other_attribute self (call name body) m.
Proof.
  intros H o. unfold call. cbn [Tree.interp]. unfold bind. rewrite (H o).
  by destruct (Tree.interp other_attribute body o) as [[[] | ex] o1].
Qed.

Lemma sim_self {A : Type} (p : prog A) (k : Solver.t -> proc Solver.t A) :
  (forall o, sim other_attribute self p (k (pack self o))) -> sim other_attribute self p (bind Solver.self k).
Proof. intros H o. unfold bind, Solver.self. apply H. Qed.

Lemma sim_assert (b : bool) : sim other_attribute self (passert b) (assert b).
Proof. destruct b; intros o; reflexivity. Qed.

Lemma sim_move (move_str : string) :
  sim other_attribute self (Tree.move move_str) (Solver.move other_attribute move_str).
Proof.
  intros [c log]. unfold Tree.move, trigger, Solver.move, pack. simpl.
  unfold bind. simpl.
  by destruct (sequence other_attribute move_str c) as [[[] | ex] c'].
Qed.

Lemma sim_pos_of (piece : option nat) : sim other_attribute self (Tree.pos_of piece) (Solver.pos_of piece).
Proof.
  intros [c log]. unfold Tree.pos_of, trigger, Solver.pos_of, Solver.on_cube, pack.
  simpl. unfold bind. simpl.
  by destruct piece as [r |]; [destruct (deref c r) |].
Qed.

Lemma sim_color_of (piece : option nat) (i : nat) :
  sim other_attribute self (Tree.color_of piece i) (Solver.color_of piece i).
Proof.
  intros [c log]. unfold Tree.color_of, trigger, Solver.color_of, Solver.on_cube, pack.
  simpl. unfold bind. simpl.
  destruct piece as [r |]; [| reflexivity].
  destruct (deref c r) as [p |]; [| reflexivity]. simpl. by destruct (color_slot p i).
Qed.

Lemma sim_color_at (point : Point) (i : nat) :
  sim other_attribute self (Tree.color_at point i) (Solver.on_cube (color_at point i)).
Proof.
  intros [c log]. unfold Tree.color_at, Tree.color_of, trigger, Solver.on_cube,
    color_at, pack. simpl. unfold bind. simpl.
  destruct (get_piece point c) as [r |]; [| reflexivity].
  destruct (deref c r) as [p |]; [| reflexivity]. simpl. by destruct (color_slot p i).
Qed.

Lemma sim_get_piece (point : Point) :
  sim other_attribute self (trigger (Get_piece point)) (Solver.on_cube (fun c => Ok (get_piece point c))).
Proof. intros [c log]. reflexivity. Qed.

Lemma sim_solved : sim other_attribute self Tree.solved Solver.solved.
Proof.
  intros [c log]. unfold Tree.solved, Solver.solved, trigger, Solver.on_cube, pack.
  simpl. unfold bind. simpl. by destruct (is_solved c).
Qed.

Lemma sim_find (ps : list (prog color)) (fs : list (Cube -> result color)) :
  Forall2 (fun p f => sim other_attribute self p (Solver.on_cube f)) ps fs ->
  sim other_attribute self (Tree.find ps) (Solver.find fs).
Proof.
  intros H [c log]. unfold Tree.find, Solver.find, Solver.on_cube.
  rewrite interp_pbind. unfold bind.
  assert (He : forall log,
    (fix eval (l : list (Cube -> result color)) : result (list color) :=
       match l with
       | [] => Ok []
       | f :: l' => (v <- f c ;; vs <- eval l' ;; Ok (v :: vs))%result
       end) fs
    = fst (Tree.interp other_attribute (Tree.each ps) (Tree.mk_objects c log))
    /\ snd (Tree.interp other_attribute (Tree.each ps) (Tree.mk_objects c log))
       = Tree.mk_objects c log).
  { clear log. induction H as [| p f ps fs Hpf _ IH]; intros log; [by split |].
    cbn [Tree.each]. rewrite interp_pbind. unfold bind.
    pose proof (Hpf (Tree.mk_objects c log)) as Hp.
    unfold Solver.on_cube, pack in Hp. simpl in Hp.
    destruct (Tree.interp other_attribute p (Tree.mk_objects c log)) as [r [c1 log1]].
    simpl in Hp. injection Hp as Hr Hc Hlog. subst c1 log1. rewrite Hr.
    destruct r as [v | ex]; [| by split]. simpl.
    rewrite interp_pbind. unfold bind.
    destruct (IH log) as [IH1 IH2].
    destruct (Tree.interp other_attribute (Tree.each ps) (Tree.mk_objects c log))
      as [r' o']. simpl in IH1, IH2. subst o'. rewrite IH1.
    by destruct r'. }
  destruct (He log) as [He1 He2]. unfold pack at 1. simpl. rewrite He1.
  destruct (Tree.interp other_attribute (Tree.each ps) (Tree.mk_objects c log))
    as [r o']. simpl in He2. subst o'. by destruct r.
Qed.

Lemma sim_rot_from_face (p : Point) :
  sim other_attribute self (Tree.rot_from_face p) (Solver.rot_from_face p).
Proof.
  unfold Tree.rot_from_face, Solver.rot_from_face.
  destruct (get_rot_from_face p); [apply sim_ret | apply sim_throw].
Qed.

Lemma sim_while_count (fuel : nat) (cond : prog bool) (cond' : proc Solver.t bool)
    (body : Z -> prog unit) (body' : Z -> proc Solver.t unit) (count : Z) :
  sim other_attribute self cond cond' -> (forall n, sim other_attribute self (body n) (body' n)) ->
  sim other_attribute self (Tree.while_count fuel cond body count) (while_count fuel cond' body' count).
Proof.
  intros Hc Hb. revert count. induction fuel as [| fuel IH]; intros count.
  - apply sim_throw.
  - cbn [Tree.while_count while_count]. apply sim_bind; [exact Hc |].
    intros [|]; [| apply sim_ret]. apply sim_bind; [apply Hb | intros _; apply IH].
Qed.

Lemma sim_for_range (n : nat) (body : prog unit) (body' : proc Solver.t unit) :
  sim other_attribute self body body' -> sim other_attribute self (Tree.for_range n body) (for_range n body').
Proof.
  intros Hb. induction n as [| n IH]; [apply sim_ret |].
  cbn [Tree.for_range for_range]. apply sim_bind; [exact Hb | intros _; exact IH].
Qed.

Lemma sim_and_then (a b : prog bool) (a' b' : proc Solver.t bool) :
  sim other_attribute self a a' -> sim other_attribute self b b' -> sim other_attribute self (Tree.and_then a b) (and_then a' b').
Proof.
  intros Ha Hb. apply sim_bind; [exact Ha |]. intros [|]; [exact Hb | apply sim_ret].
Qed.

Lemma sim_or_else (a b : prog bool) (a' b' : proc Solver.t bool) :
  sim other_attribute self a a' -> sim other_attribute self b b' -> sim other_attribute self (Tree.or_else a b) (or_else a' b').
Proof.
  intros Ha Hb. apply sim_bind; [exact Ha |]. intros [|]; [apply sim_ret | exact Hb].
Qed.

Lemma sim_not (a : prog bool) (a' : proc Solver.t bool) :
  sim other_attribute self a a' -> sim other_attribute self (Tree.not_ a) (not_ a').
Proof. intros Ha. apply sim_bind; [exact Ha |]. intros v. apply sim_ret. Qed.

Lemma sim_sticker_is (point : Point) (i : nat) (face : prog color)
    (face' : Cube -> result color) :
  sim other_attribute self face (Solver.on_cube face') ->
  sim other_attribute self (Tree.sticker_is point i face) (Solver.sticker_is point i face').
Proof.
  intros H. apply sim_bind; [apply sim_color_at |]. intros a.
  apply sim_bind; [exact H |]. intros b. apply sim_ret.
Qed.

Lemma sim_first_of (cases : list (prog bool * string))
    (cases' : list (proc Solver.t bool * string)) (otherwise : string) :
  Forall2 (fun c c' => sim other_attribute self (fst c) (fst c') /\ snd c = snd c') cases cases' ->
  sim other_attribute self ((fix go (l : list (prog bool * string)) : prog unit :=
          match l with
          | [] => Tree.move otherwise
          | (test, names) :: l' =>
              (b <- test ;; if b : bool then Tree.move names else go l')%prog
          end) cases)
      ((fix go (l : list (proc Solver.t bool * string)) : proc Solver.t unit :=
          match l with
          | [] => Solver.move other_attribute otherwise
          | (test, names) :: l' =>
              (b <- test ;; if b : bool then Solver.move other_attribute names else go l')%proc
          end) cases').
Proof.
  intros H. induction H as [| [t n] [t' n'] l l' [Ht Hn] _ IH]; [apply sim_move |].
  simpl in Ht, Hn. subst n'. apply sim_bind; [exact Ht |].
  intros [|]; [apply sim_move | exact IH].
Qed.

Ltac sim_step :=
  lazymatch goal with
  | |- sim _ _ _ (bind Solver.self _) =>
      apply sim_self; intros ?;
      cbn [pack Solver.left_piece Solver.right_piece Solver.up_piece Solver.down_piece
           Solver.inifinite_loop_max_iterations]
  | |- sim _ _ (call _ _) _ => apply sim_call
  | |- sim _ _ (pbind _ _) (bind _ _) => apply sim_bind; [| intros ?]
  | |- sim _ _ (Ret _) _ => apply sim_ret
  | |- sim _ _ (Throw _) _ => apply sim_throw
  | |- sim _ _ (passert _) _ => apply sim_assert
  | |- sim _ _ (Tree.move _) _ => apply sim_move
  | |- sim _ _ (Tree.pos_of _) _ => apply sim_pos_of
  | |- sim _ _ (Tree.color_of _ _) _ => apply sim_color_of
  | |- sim _ _ (Tree.color_at _ _) _ => apply sim_color_at
  | |- sim _ _ Tree.left_color _ => apply sim_color_at
  | |- sim _ _ Tree.right_color _ => apply sim_color_at
  | |- sim _ _ Tree.up_color _ => apply sim_color_at
  | |- sim _ _ Tree.down_color _ => apply sim_color_at
  | |- sim _ _ Tree.front_color _ => apply sim_color_at
  | |- sim _ _ (trigger (Get_piece _)) _ => apply sim_get_piece
  | |- sim _ _ Tree.solved _ => apply sim_solved
  | |- sim _ _ (Tree.find _) _ => apply sim_find; repeat constructor; apply sim_color_at
  | |- sim _ _ (Tree.rot_from_face _) _ => apply sim_rot_from_face
  | |- sim _ _ (Tree.while_count _ _ _ _) _ => apply sim_while_count; [| intros ?]
  | |- sim _ _ (Tree.for_range _ _) _ => apply sim_for_range
  | |- sim _ _ (Tree.and_then _ _) _ => apply sim_and_then
  | |- sim _ _ (Tree.or_else _ _) _ => apply sim_or_else
  | |- sim _ _ (Tree.not_ _) _ => apply sim_not
  | |- sim _ _ (Tree.sticker_is _ _ _) _ => apply sim_sticker_is
  | |- sim _ _ (Tree.guarded _ _ _) _ => unfold Tree.guarded, Solver.guarded
  | |- sim _ _ (Tree.assert_at _ _) _ => unfold Tree.assert_at, Solver.assert_at
  | |- sim _ _ (if ?b then _ else _) _ => destruct b
  | |- sim _ _ (match ?x with Some _ => _ | None => _ end) _ => destruct x
  | |- sim _ _ (let '(_, _) := ?x in _) _ => destruct x
  end.

Ltac sim_steps := repeat sim_step.

Lemma sim__cross_left_or_right (fuel : nat) (edge_piece face_piece : option nat)
    (face_color : color) (move_1 move_2 : string) :
  sim other_attribute self (Tree._cross_left_or_right self fuel edge_piece face_piece face_color move_1 move_2)
      (Solver._cross_left_or_right other_attribute fuel edge_piece face_piece face_color
         move_1 move_2).
Proof. unfold Tree._cross_left_or_right, Solver._cross_left_or_right. sim_steps. Qed.

Lemma sim_cross (fuel : nat) :
  sim other_attribute self (Tree.cross self fuel) (Solver.cross other_attribute fuel).
Proof.
  unfold Tree.cross, Solver.cross. sim_steps; apply sim__cross_left_or_right.
Qed.

Lemma sim_place_frd_corner (fuel : nat) (corner_piece right_piece down_piece : option nat)
    (front_color : color) :
  sim other_attribute self (Tree.place_frd_corner fuel corner_piece right_piece down_piece front_color)
      (Solver.place_frd_corner other_attribute fuel corner_piece right_piece down_piece
         front_color).
Proof. unfold Tree.place_frd_corner, Solver.place_frd_corner. cbv zeta. sim_steps. Qed.

Lemma sim_cross_corners (fuel : nat) :
  sim other_attribute self (Tree.cross_corners self fuel) (Solver.cross_corners other_attribute fuel).
Proof.
  unfold Tree.cross_corners, Solver.cross_corners. sim_steps; apply sim_place_frd_corner.
Qed.

Lemma sim_place_middle_layer_ld_edge (fuel : nat) (ld_piece : option nat)
    (left_color down_color : color) :
  sim other_attribute self (Tree.place_middle_layer_ld_edge fuel ld_piece left_color down_color)
      (Solver.place_middle_layer_ld_edge other_attribute fuel ld_piece left_color down_color).
Proof.
  unfold Tree.place_middle_layer_ld_edge, Solver.place_middle_layer_ld_edge. sim_steps.
Qed.

Lemma sim_second_layer (fuel : nat) :
  sim other_attribute self (Tree.second_layer fuel) (Solver.second_layer other_attribute fuel).
Proof.
  unfold Tree.second_layer, Solver.second_layer. cbv zeta.
  sim_steps; apply sim_place_middle_layer_ld_edge.
Qed.

Lemma sim_back_face_edges (fuel : nat) :
  sim other_attribute self (Tree.back_face_edges self fuel) (Solver.back_face_edges other_attribute fuel).
Proof. unfold Tree.back_face_edges, Solver.back_face_edges. cbv zeta. sim_steps. Qed.

Lemma sim_last_layer_corners_position :
  sim other_attribute self Tree.last_layer_corners_position
      (Solver.last_layer_corners_position other_attribute).
Proof.
  unfold Tree.last_layer_corners_position, Solver.last_layer_corners_position.
  cbv zeta. sim_steps.
Qed.

Lemma sim_last_layer_corners_orientation (fuel : nat) :
  sim other_attribute self (Tree.last_layer_corners_orientation self fuel)
      (Solver.last_layer_corners_orientation other_attribute fuel).
Proof.
  unfold Tree.last_layer_corners_orientation, Solver.last_layer_corners_orientation.
  cbv zeta. sim_steps.
Qed.

Lemma sim__handle_last_layer_state1 (fuel : nat) (h_move : string) :
  sim other_attribute self (Tree._handle_last_layer_state1 fuel h_move)
      (Solver._handle_last_layer_state1 other_attribute fuel h_move).
Proof.
  unfold Tree._handle_last_layer_state1, Solver._handle_last_layer_state1. sim_steps.
Qed.

Lemma sim_correct_edge : sim other_attribute self Tree.correct_edge Solver.correct_edge.
Proof. unfold Tree.correct_edge, Solver.correct_edge. cbv zeta. sim_steps. Qed.

Lemma sim_find_correct_edge (fuel : nat) (cycle_move : string) (count : Z) :
  sim other_attribute self (Tree.find_correct_edge self fuel cycle_move count)
      (Solver.find_correct_edge other_attribute fuel cycle_move count).
Proof.
  revert count. induction fuel as [| fuel IH]; intros count; [apply sim_throw |].
  cbn [Tree.find_correct_edge Solver.find_correct_edge]. cbv zeta.
  apply sim_bind; [apply sim_correct_edge |]. intros edge.
  sim_steps. apply IH.
Qed.

Lemma sim__handle_last_layer_state2 (fuel : nat) (cycle_move : string) :
  sim other_attribute self (Tree._handle_last_layer_state2 self fuel cycle_move)
      (Solver._handle_last_layer_state2 other_attribute fuel cycle_move).
Proof.
  unfold Tree._handle_last_layer_state2, Solver._handle_last_layer_state2.
  apply sim_bind; [apply sim_find_correct_edge |]. intros edge. sim_steps.
Qed.

Lemma sim_fish_rounds (n : nat) (fish_pattern : prog bool)
    (fish_pattern' : proc Solver.t bool) (fish_move : string) :
  sim other_attribute self fish_pattern fish_pattern' ->
  sim other_attribute self (Tree.fish_rounds n fish_pattern fish_move)
      (Solver.fish_rounds other_attribute n fish_pattern' fish_move).
Proof.
  intros H. induction n as [| n IH]; [apply sim_ret |].
  cbn [Tree.fish_rounds Solver.fish_rounds].
  apply sim_bind; [exact H |]. intros b. sim_steps; exact IH.
Qed.

Lemma sim_finish_edges (fuel : nat) (fish_pattern h_pattern1 h_pattern2 : prog bool)
    (fish_pattern' h_pattern1' h_pattern2' : proc Solver.t bool)
    (fish_move h_pattern_move cycle_move : string) (count : Z) :
  sim other_attribute self fish_pattern fish_pattern' -> sim other_attribute self h_pattern1 h_pattern1' ->
  sim other_attribute self h_pattern2 h_pattern2' ->
  sim other_attribute self (Tree.finish_edges self fuel fish_pattern h_pattern1 h_pattern2
         fish_move h_pattern_move cycle_move count)
      (Solver.finish_edges other_attribute fuel fish_pattern' h_pattern1' h_pattern2'
         fish_move h_pattern_move cycle_move count).
Proof.
  intros Hf H1 H2. revert count. induction fuel as [| fuel IH]; intros count;
    [apply sim_throw |].
  cbn [Tree.finish_edges Solver.finish_edges]. cbv zeta.
  apply sim_bind; [apply sim_solved |]. intros done.
  destruct done; [apply sim_ret |].
  apply sim_bind; [by apply sim_fish_rounds |]. intros returned.
  destruct returned; [apply sim_ret |].
  apply sim_bind; [exact H1 |]. intros b.
  apply sim_bind.
  - destruct b; [apply sim_move |].
    apply sim_bind; [exact H2 |]. intros b'. destruct b'; apply sim_move.
  - intros _. sim_steps. apply IH.
Qed.

Lemma sim_last_layer_edges (fuel : nat) :
  sim other_attribute self (Tree.last_layer_edges self fuel) (Solver.last_layer_edges other_attribute fuel).
Proof.
  unfold Tree.last_layer_edges, Solver.last_layer_edges. cbv zeta.
  do 5 (apply sim_bind; [sim_steps | intros ?]).
  apply sim_bind; [sim_steps |]. intros b.
  apply sim_bind.
  { destruct b; [apply sim_call, sim__handle_last_layer_state1 | apply sim_ret]. }
  intros _. apply sim_bind; [sim_steps |]. intros b2.
  apply sim_bind.
  { destruct b2; [apply sim_call, sim__handle_last_layer_state2 | apply sim_ret]. }
  intros _. apply sim_bind.
  - apply sim_finish_edges; sim_steps.
  - intros returned. sim_steps.
Qed.

Lemma sim_solve (fuel : nat) :
  sim other_attribute self (Tree.solve self fuel) (Solver.solve other_attribute fuel).
Proof.
  unfold Tree.solve, Solver.solve.
  repeat (apply sim_bind; [apply sim_call | intros _]).
  - apply sim_cross.
  - apply sim_cross_corners.
  - apply sim_second_layer.
  - apply sim_back_face_edges.
  - apply sim_last_layer_corners_position.
  - apply sim_last_layer_corners_orientation.
  - apply sim_call, sim_last_layer_edges.
Qed.

End Link.

(** ** Solver.solve and solve_random_cube *)

Section Solved.
Variable other_attribute : string -> option (proc Cube unit).

Lemma interp_find_one (point : Point) (i : nat) (c : Cube) (log : list string) :
  Tree.interp other_attribute (Tree.find [Tree.color_at point i])
    (Tree.mk_objects c log)
  = ((v <- color_at point i c ;; Ok (find_piece [v] c))%result, Tree.mk_objects c log).
Proof.
  unfold Tree.find, Tree.each, Tree.color_at, Tree.color_of, trigger, color_at.
  simpl. unfold bind. simpl.
  destruct (get_piece point c) as [r |]; [| reflexivity].
  destruct (deref c r) as [p |]; [| reflexivity]. simpl.
  by destruct (color_slot p i).
Qed.

Lemma interp_init (c : Cube) (log : list string) :
  Tree.interp other_attribute Tree.init (Tree.mk_objects c log)
  = ((l <- color_at LEFT 0 c ;;
      r <- color_at RIGHT 0 c ;;
      u <- color_at UP 1 c ;;
      d <- color_at DOWN 1 c ;;
      Ok (Tree.mk (find_piece [l] c) (find_piece [r] c)
            (find_piece [u] c) (find_piece [d] c) 12))%result,
     Tree.mk_objects c log).
Proof.
  unfold Tree.init, Tree.left_color, Tree.right_color,
    Tree.up_color, Tree.down_color.
  rewrite interp_pbind. unfold bind. rewrite interp_find_one.
  destruct (color_at LEFT 0 c) as [l |]; [| reflexivity]. cbn [rbind].
  rewrite interp_pbind. unfold bind. rewrite interp_find_one.
  destruct (color_at RIGHT 0 c) as [r |]; [| reflexivity]. cbn [rbind].
  rewrite interp_pbind. unfold bind. rewrite interp_find_one.
  destruct (color_at UP 1 c) as [u |]; [| reflexivity]. cbn [rbind].
  rewrite interp_pbind. unfold bind. rewrite interp_find_one.
  by destruct (color_at DOWN 1 c) as [d |].
Qed.

Lemma init_link (c : Cube) :
  match Solver.init c with
  | Ok s => exists self,
      Tree.interp other_attribute Tree.init (Tree.mk_objects c [])
      = (Ok self, Tree.mk_objects c []) /\
      s = pack self (Tree.mk_objects c [])
  | Raise e =>
      Tree.interp other_attribute Tree.init (Tree.mk_objects c [])
      = (Raise e, Tree.mk_objects c [])
  end.
Proof.
  rewrite interp_init.
  unfold Solver.init, left_color, right_color, up_color, down_color.
  destruct (color_at LEFT 0 c) as [l |]; [| reflexivity]. cbn [rbind].
  destruct (color_at RIGHT 0 c) as [r |]; [| reflexivity]. cbn [rbind].
  destruct (color_at UP 1 c) as [u |]; [| reflexivity]. cbn [rbind].
  destruct (color_at DOWN 1 c) as [d |]; [| reflexivity]. cbn [rbind].
  eexists. split; reflexivity.
Qed.

Lemma solver_run (c : Cube) :
  scrambled c ->
  exists s s',
    Solver.init c = Ok s /\
    Solver.solve other_attribute 12 s = (Ok tt, s') /\
    is_solved (Solver.cube s') = Ok true /\
    Forall valid_name (Solver.moves s') /\
    Solver.cube s' = map (act (Solver.moves s')) c.
Proof.
  intros Hs. destruct (solve_solves other_attribute c Hs) as (o & Hrun & Hsolved & Hv & Hc).
  unfold Tree.run in Hrun. rewrite interp_pbind in Hrun. unfold bind in Hrun.
  pose proof (init_link c) as Hinit. destruct (Solver.init c) as [s | e].
  - destruct Hinit as (self & Hi & ->). rewrite Hi in Hrun.
    exists (pack self (Tree.mk_objects c [])), (pack self o).
    split; [reflexivity |]. split; [| by repeat split].
    rewrite (sim_solve other_attribute self 12 (Tree.mk_objects c [])).
    by rewrite Hrun.
  - rewrite Hinit in Hrun. discriminate Hrun.
Qed.

(** X26.  [Solver.solve] solves every scrambled cube.  For every cube
    turned from the solved one by any moves (whole-cube rotations and
    slice moves too), [Solver.__init__] succeeds and [solve] returns
    normally, with no loop taking more than 12 rounds: no assertion
    fails, no [Stuck in loop] or [BUG] exception is raised.  The cube it
    leaves is solved by [Cube.is_solved], and replaying the recorded
    [moves] on the scrambled cube gives that cube. *)
Theorem solve_scrambled_cube (c : Cube) :
  scrambled c ->
  exists s s',
    Solver.init c = Ok s /\
    Solver.solve other_attribute 12 s = (Ok tt, s') /\
    is_solved (Solver.cube s') = Ok true /\
    replay other_attribute (Solver.moves s') c = (Ok tt, Solver.cube s').
Proof.
  intros Hs. destruct (solver_run c Hs) as (s & s' & H1 & H2 & H3 & H4 & H5).
  exists s, s'. split; [exact H1 |]. split; [exact H2 |]. split; [exact H3 |].
  rewrite H5. apply replay_valid; [exact H4 |].
  destruct (scrambled_lawful c Hs) as [Hl _]. by apply lawful_ok.
Qed.

Lemma scrambled_act (names : list string) (c : Cube) :
  Forall valid_name names -> scrambled c -> scrambled (map (act names) c).
Proof.
  intros Hv. revert c. induction Hv as [| n names [m <-] _ IH]; intros c Hc.
  - unfold act. simpl. by rewrite map_id.
  - assert (Ha : map (act (Move.name m :: names)) c
                 = map (act names) (map (turned m) c)).
    { rewrite map_map. apply map_ext. intros p. unfold act. simpl.
      by rewrite act_name_move. }
    rewrite Ha. apply IH.
    apply (scrambled_move m c); [exact Hc |].
    apply method_map. destruct (scrambled_lawful c Hc) as [Hl _]. by apply lawful_ok.
Qed.

Lemma scramble_moves_valid (choices : list string) :
  Forall (fun n => In n SCRAMBLE_MOVES) choices -> Forall valid_name choices.
Proof.
  intros H. eapply Forall_impl; [exact H |]. intros n Hn. simpl in Hn.
  unfold valid_name.
  repeat (destruct Hn as [<- | Hn];
          [first [ by exists Move.L | by exists Move.R | by exists Move.U | by exists Move.D
                 | by exists Move.F | by exists Move.B | by exists Move.Li | by exists Move.Ri
                 | by exists Move.Ui | by exists Move.Di | by exists Move.Fi
                 | by exists Move.Bi ] |]).
  destruct Hn.
Qed.

(** X27.  [solve_random_cube] of [solve_cube.py] passes its check for
    every scramble, whatever moves [random.choice] draws from
    [SCRAMBLE_MOVES] and however many: the solver returns, the optimizer
    returns, and the cube that is scrambled again and turned by the
    optimised moves is solved, so the final assertion holds. *)
Theorem solve_random_cube_passes (choices : list string) :
  Forall (fun n => In n SCRAMBLE_MOVES) choices ->
  solve_random_cube other_attribute 12 choices = Ok tt.
Proof.
  intros Hin. pose proof (scramble_moves_valid choices Hin) as Hv.
  unfold solve_random_cube, generate_scramble. cbv zeta.
  rewrite solved_cube_init. cbn [rbind].
  pose proof (replay_valid other_attribute choices solved_cube Hv solved_cube_ok) as Hseq.
  unfold replay in Hseq. unfold state_after at 1. rewrite Hseq. cbn [rbind].
  set (c := map (act choices) solved_cube).
  assert (Hs : scrambled c) by exact (scrambled_act choices solved_cube Hv scrambled_solved).
  destruct (solver_run c Hs) as (s & s' & -> & Hsolve & Hsolved & Hmv & Hcube).
  cbn [rbind]. unfold state_after at 1. rewrite Hsolve. cbn [rbind].
  destruct (optimize_moves_effect (Solver.moves s') Hmv) as (opt & -> & Hvo & Heff).
  cbn [rbind]. unfold state_after at 1. rewrite Hseq. cbn [rbind]. fold c.
  destruct (scrambled_lawful c Hs) as [Hl _].
  pose proof (replay_valid other_attribute opt c Hvo (lawful_ok c Hl)) as Hrep.
  unfold replay in Hrep. unfold state_after. rewrite Hrep. cbn [rbind].
  assert (Hsame : map (act opt) c = Solver.cube s').
  { rewrite Hcube. apply map_ext_Forall.
    pose proof (lawful_well_formed c Hl) as Hwf.
    eapply Forall_impl; [exact (wf_pieces c Hwf) |]. intros p Hp. by apply Heff. }
  by rewrite Hsame, Hsolved.
Qed.

End Solved.

Lemma solve_scrambled_cube_witness :
  exists s s',
    Solver.init (map (turned Move.R) solved_cube) = Ok s /\
    Solver.solve (fun _ => None) 12 s = (Ok tt, s') /\
    is_solved (Solver.cube s') = Ok true.
Proof.
  destruct (solve_scrambled_cube (fun _ => None) (map (turned Move.R) solved_cube))
    as (s & s' & H1 & H2 & H3 & _).
  - exact (scrambled_move Move.R solved_cube _ scrambled_solved
             (method_map Move.R solved_cube solved_cube_ok)).
  - by exists s, s'.
Defined.

Lemma solve_random_cube_passes_witness :
  solve_random_cube (fun _ => None) 12 ["R"; "U"; "Fi"]%string = Ok tt.
Proof.
  apply solve_random_cube_passes.
  repeat (constructor; [simpl; tauto |]). constructor.
Defined.
